(** * Guernica: the iptables comparison pipeline of [guernica.py]

    A shallow embedding of the pure core of the program (format detection,
    normalisation, diffing, risk classification, rule grouping, impact
    scoring and the bands of the report) and the
    properties proved about it.

    Python values are modelled as follows.
    - A [str] is the list of its Unicode code points ([N]).
    - An [int] is a [Z]; an index into a list is a [nat].
    - A [float] is an IEEE 754 binary64 value ([spec_float] with the
      operations of [SpecFloat] at precision 53 and maximal exponent 1024).
    - [re] patterns are terms of a small regular-expression syntax that are
      run by a backtracking matcher with Python's priorities (leftmost
      match, greedy repetition, alternatives from left to right). *)

From Stdlib Require Import Ascii String DecimalString DecimalPos.
From Stdlib Require Import List Bool Arith ZArith NArith Lia.
From Stdlib Require Import Permutation Sorted.
From Stdlib Require Import Floats.SpecFloat.
Import ListNotations.

Set Implicit Arguments.

(* ================================================================== *)
(** * Text *)
(* ================================================================== *)

Definition char := N.
Definition str := list char.

(** A string literal of the source, as code points. *)
Definition lit (s : string) : str :=
  List.map N_of_ascii (list_ascii_of_string s).

Definition in_range (lo hi c : char) : bool := ((lo <=? c) && (c <=? hi))%N.
Arguments in_range (lo hi c)%_N.

(** [str.isspace] on one code point ([Py_UNICODE_ISSPACE]); this is also the
    class [\s] of [re] and the set that [str.strip()] removes. *)
Definition isspace (c : char) : bool :=
  in_range 9 13 c || in_range 28 32 c || (c =? 133)%N || (c =? 160)%N
  || (c =? 5760)%N || in_range 8192 8202 c || (c =? 8232)%N || (c =? 8233)%N
  || (c =? 8239)%N || (c =? 8287)%N || (c =? 12288)%N.

(** The code points of general category Nd come in runs of ten consecutive
    digits 0..9; the table lists each run by its first code point and length
    (Unicode 14, the database of CPython 3.11). *)
Definition decimal_runs : list (N * N) :=
  [ (48, 10); (1632, 10); (1776, 10); (1984, 10); (2406, 10); (2534, 10);
    (2662, 10); (2790, 10); (2918, 10); (3046, 10); (3174, 10); (3302, 10);
    (3430, 10); (3558, 10); (3664, 10); (3792, 10); (3872, 10); (4160, 10);
    (4240, 10); (6112, 10); (6160, 10); (6470, 10); (6608, 10); (6784, 10);
    (6800, 10); (6992, 10); (7088, 10); (7232, 10); (7248, 10); (42528, 10);
    (43216, 10); (43264, 10); (43472, 10); (43504, 10); (43600, 10);
    (44016, 10); (65296, 10); (66720, 10); (68912, 10); (69734, 10);
    (69872, 10); (69942, 10); (70096, 10); (70384, 10); (70736, 10);
    (70864, 10); (71248, 10); (71360, 10); (71472, 10); (71904, 10);
    (72016, 10); (72784, 10); (73040, 10); (73120, 10); (92768, 10);
    (92864, 10); (93008, 10); (120782, 50); (123200, 10); (123632, 10);
    (125264, 10); (130032, 10) ]%N.

(** The value of a decimal digit ([Py_UNICODE_TODECIMAL]), if it is one. *)
Fixpoint decimal_in (runs : list (N * N)) (c : char) : option N :=
  match runs with
  | [] => None
  | (start, len) :: runs' =>
      if ((start <=? c) && (c <? start + len))%N
      then Some ((c - start) mod 10)%N
      else decimal_in runs' c
  end.

Definition decimal_value (c : char) : option N := decimal_in decimal_runs c.

(** The class [\d] of [re] on [str] patterns. *)
Definition isdecimal (c : char) : bool :=
  match decimal_value c with Some _ => true | None => false end.

(** [a == b] on strings. *)
Fixpoint str_eqb (a b : str) : bool :=
  match a, b with
  | [], [] => true
  | x :: a', y :: b' => (x =? y)%N && str_eqb a' b'
  | _, _ => false
  end.

(** [s.startswith(p)]. *)
Fixpoint startswith (p s : str) : bool :=
  match p, s with
  | [], _ => true
  | _ :: _, [] => false
  | a :: p', b :: s' => (a =? b)%N && startswith p' s'
  end.

(** [p in s] on strings: [p] occurs in [s] as a substring. *)
Fixpoint contains (p s : str) : bool :=
  startswith p s
  || match s with
     | [] => false
     | _ :: s' => contains p s'
     end.

Fixpoint lstrip (s : str) : str :=
  match s with
  | c :: s' => if isspace c then lstrip s' else s
  | [] => []
  end.

Definition rstrip (s : str) : str := rev (lstrip (rev s)).

(** [s.strip()]: leading and trailing whitespace removed. *)
Definition strip (s : str) : str := rstrip (lstrip s).

(** [a < b] on strings: lexicographic by code point. *)
Fixpoint str_ltb (a b : str) : bool :=
  match a, b with
  | _, [] => false
  | [], _ :: _ => true
  | x :: a', y :: b' =>
      if (x <? y)%N then true
      else if (y <? x)%N then false
      else str_ltb a' b'
  end.

(** [sorted(l)] for a list of strings.  Python's sort is stable and only
    uses [<]; a stable insertion sort returns the same list. *)
Fixpoint insert_sorted (x : str) (l : list str) : list str :=
  match l with
  | [] => [x]
  | y :: l' => if str_ltb y x then y :: insert_sorted x l' else x :: l
  end.

Fixpoint sorted (l : list str) : list str :=
  match l with
  | [] => []
  | x :: l' => insert_sorted x (sorted l')
  end.

(** [str(n)] for an [int]: its decimal digits, after a minus sign if it is
    negative. *)
Definition str_of_int (n : Z) : str :=
  lit (NilZero.string_of_int (Z.to_int n)).

(** [int(s)] for a string [s] of decimal digits; [None] when [int]
    raises [ValueError]: on the empty string, on a character that is not a
    decimal digit, and on a string of more digits than
    [sys.int_max_str_digits] (4300 unless the interpreter is configured
    otherwise; leading zeros count). *)
Definition int_max_str_digits : Z := 4300.

Fixpoint int_digits (acc : Z) (s : str) : option Z :=
  match s with
  | [] => Some acc
  | c :: s' =>
      match decimal_value c with
      | Some d => int_digits (10 * acc + Z.of_N d) s'
      | None => None
      end
  end.

Definition int_of_str (s : str) : option Z :=
  match s with
  | [] => None
  | _ =>
      if (int_max_str_digits <? Z.of_nat (length s))%Z then None
      else int_digits 0 s
  end.

(* ================================================================== *)
(** * Regular expressions ([re]) *)
(* ================================================================== *)

Module Re.

(** The syntax covers what the patterns of the source use: literal
    characters, one-character classes, a greedy [*] and [+] on a class,
    sequence, alternation, an optional group, capturing groups, [$] and
    the empty pattern. *)
Inductive regex : Type :=
| Chr (c : char)
| Cls (p : char -> bool)
| Star (p : char -> bool)
| Plus (p : char -> bool)
| Seq (r1 r2 : regex)
| Alt (r1 r2 : regex)
| Opt (r : regex)
| Group (n : nat) (r : regex)
| Eol
| Eps.

(** The classes of the patterns. *)
Definition any : char -> bool := fun c => negb (c =? 10)%N.   (* [.] *)
Definition space : char -> bool := isspace.                    (* [\s] *)
Definition digit : char -> bool := isdecimal.                  (* [\d] *)
Definition ascii_digit : char -> bool := in_range 48 57.       (* [[0-9]] *)
Definition upper : char -> bool := in_range 65 90.             (* [[A-Z]] *)

(** A literal word, and the concatenation of a list of pieces. *)
Definition word (w : str) : regex := fold_right (fun c r => Seq (Chr c) r) Eps w.

Definition text (s : string) : regex := word (lit s).

Definition cat (rs : list regex) : regex := fold_right Seq Eps rs.

(** Captured groups: group number and captured text. *)
Definition captures := list (nat * str).

Fixpoint group_of (caps : captures) (n : nat) : option str :=
  match caps with
  | [] => None
  | (k, s) :: caps' => if Nat.eqb k n then Some s else group_of caps' n
  end.

(** [$]: at the end of the string, or just before a final newline. *)
Definition at_end (s : str) : bool :=
  match s with
  | [] => true
  | [c] => (c =? 10)%N
  | _ => false
  end.

Section Matcher.
Variable R : Type.

(** Greedy repetition of a class: take as many characters as possible,
    and give them back one at a time when the rest fails. *)
Fixpoint greedy (p : char -> bool) (s : str) (k : str -> option R)
  : option R :=
  match s with
  | c :: s' =>
      if p c
      then match greedy p s' k with
           | Some x => Some x
           | None => k s
           end
      else k s
  | [] => k []
  end.

(** [rmatch r s caps k]: match [r] at the start of [s], then continue
    with [k] on what is left; the first success in priority order. *)
Fixpoint rmatch (r : regex) (s : str) (caps : captures)
         (k : str -> captures -> option R) : option R :=
  match r with
  | Chr c =>
      match s with
      | x :: s' => if (x =? c)%N then k s' caps else None
      | [] => None
      end
  | Cls p =>
      match s with
      | x :: s' => if p x then k s' caps else None
      | [] => None
      end
  | Star p => greedy p s (fun s' => k s' caps)
  | Plus p =>
      match s with
      | x :: s' => if p x then greedy p s' (fun s'' => k s'' caps) else None
      | [] => None
      end
  | Seq r1 r2 => rmatch r1 s caps (fun s' caps' => rmatch r2 s' caps' k)
  | Alt r1 r2 =>
      match rmatch r1 s caps k with
      | Some x => Some x
      | None => rmatch r2 s caps k
      end
  | Opt r1 =>
      match rmatch r1 s caps k with
      | Some x => Some x
      | None => k s caps
      end
  | Group n r1 =>
      rmatch r1 s caps
        (fun s' caps' =>
           k s' ((n, firstn (length s - length s') s) :: caps'))
  | Eol => if at_end s then k s caps else None
  | Eps => k s caps
  end.
End Matcher.

(** A match object: where it starts, the matched text ([group(0)]), the
    captured groups and the text after the match. *)
Record match_object : Type := Match
  { m_start : nat; m_text : str; m_groups : captures; m_rest : str }.

(** [pattern.match] at the start of [s]. *)
Definition match_at (r : regex) (pos : nat) (s : str) : option match_object :=
  rmatch r s []
    (fun s' caps =>
       Some (Match pos (firstn (length s - length s') s) caps s')).

(** [re.search(r, s)]: the match at the leftmost position that has one. *)
Fixpoint search_from (r : regex) (pos : nat) (s : str) : option match_object :=
  match match_at r pos s with
  | Some m => Some m
  | None =>
      match s with
      | [] => None
      | _ :: s' => search_from r (S pos) s'
      end
  end.

Definition search (r : regex) (s : str) : option match_object :=
  search_from r 0 s.

(** [bool(re.search(r, s))]. *)
Definition found (r : regex) (s : str) : bool :=
  match search r s with Some _ => true | None => false end.

Definition group (m : match_object) (n : nat) : option str :=
  group_of (m_groups m) n.

(** [re.sub(r, repl, s)] for a pattern that matches no empty string (both
    patterns of the source consume at least one character): scan from the
    left; where the pattern matches, emit the replacement and go on after
    the match; elsewhere copy the character. *)
Fixpoint sub_loop (fuel : nat) (r : regex) (repl : match_object -> str)
         (s : str) : str :=
  match fuel with
  | O => s
  | S fuel' =>
      match s with
      | [] => []
      | c :: s' =>
          match match_at r 0 s with
          | Some m =>
              if (length (m_rest m) <? length s)%nat
              then repl m ++ sub_loop fuel' r repl (m_rest m)
              else c :: sub_loop fuel' r repl s'
          | None => c :: sub_loop fuel' r repl s'
          end
      end
  end.

Definition sub (r : regex) (repl : match_object -> str) (s : str) : str :=
  sub_loop (length s) r repl s.

End Re.

(* ================================================================== *)
(** * The normalizer *)
(* ================================================================== *)

(** [r'--([A-Z])'] and its replacement [r'-\1']. *)
Definition double_dash_pattern : Re.regex :=
  Re.cat [Re.text "--"; Re.Group 1 (Re.Cls Re.upper)].

Definition single_dash_repl (m : Re.match_object) : str :=
  lit "-" ++ match Re.group m 1 with Some g => g | None => [] end.

(** [r'\s+'] and its replacement [' ']. *)
Definition spaces_pattern : Re.regex := Re.Plus Re.space.

Definition one_space_repl (_ : Re.match_object) : str := lit " ".

(** The test that keeps a line: not blank and not a comment line. *)
Definition is_rule_line (line : str) : bool :=
  match strip line with
  | [] => false
  | _ => negb (startswith (lit "#") (strip line))
  end.

(** The normalised form of a kept line. *)
Definition normalize_line (line : str) : str :=
  let fixed_line := Re.sub double_dash_pattern single_dash_repl (strip line) in
  Re.sub spaces_pattern one_space_repl fixed_line.

(** The loop of [normalize_iptables_config]: [normalized] in append order. *)
Fixpoint normalize_loop (lines : list str) : list str :=
  match lines with
  | [] => []
  | line :: rest =>
      if is_rule_line line
      then normalize_line line :: normalize_loop rest
      else normalize_loop rest
  end.

Definition normalize_iptables_config (lines : list str) : list str :=
  sorted (normalize_loop lines).

(* ================================================================== *)
(** * The format detector *)
(* ================================================================== *)

Section FormatDetector.

(** [str.isalnum] on the code points from 128 on: a table of the
    interpreter's Unicode database (several hundred ranges), which the
    detector's logic does not depend on. *)
Variable uni_alnum : char -> bool.

(** The class [\w] of [re]: alphanumeric or underscore. *)
Definition isword (c : char) : bool :=
  if (c <? 128)%N
  then in_range 48 57 c || in_range 65 90 c || in_range 97 122 c
       || (c =? 95)%N
  else uni_alnum c.

Definition iptables_patterns : list Re.regex :=
  [ Re.text "iptables";
    Re.cat [Re.text "-A"; Re.Plus Re.space; Re.Plus isword];
    Re.cat [Re.text "-p"; Re.Plus Re.space; Re.Plus isword];
    Re.text "--dport";
    Re.text "--sport";
    Re.cat [Re.text "-j"; Re.Plus Re.space; Re.Plus isword];
    Re.Alt (Re.text "ACCEPT")
           (Re.Alt (Re.text "DROP") (Re.text "REJECT")) ].

Definition threshold : nat := 3.

(** The inner loop over the patterns: the counter after one line.  The
    first pattern that matches adds one and leaves the loop. *)
Fixpoint count_line (patterns : list Re.regex) (line : str) (matches : nat)
  : nat :=
  match patterns with
  | [] => matches
  | pattern :: patterns' =>
      if Re.found pattern line
      then S matches
      else count_line patterns' line matches
  end.

(** The outer loop over the lines, from a counter value: the value
    returned, and how many lines the loop has read when it returns. *)
Fixpoint scan_lines (content : list str) (matches : nat) : bool * nat :=
  match content with
  | [] => (false, 0)
  | line :: rest =>
      let matches' := count_line iptables_patterns line matches in
      if (threshold <=? matches')%nat
      then (true, 1)
      else let (result, read) := scan_lines rest matches' in
           (result, S read)
  end.

Definition is_iptables_file (content : list str) : bool :=
  match content with
  | [] => false
  | _ => fst (scan_lines content 0)
  end.

(** The number of lines [is_iptables_file] reads before it returns. *)
Definition lines_read (content : list str) : nat :=
  snd (scan_lines content 0).

End FormatDetector.

(* ================================================================== *)
(** * [difflib]: the sequence matcher and the unified diff *)
(* ================================================================== *)

Module Difflib.

(** A matching block [(i, j, size)]: [a[i:i+size] == b[j:j+size]]. *)
Definition block := (nat * nat * nat)%type.

Inductive tag := Replace | Delete | Insert | Equal.

(** An opcode [(tag, i1, i2, j1, j2)]. *)
Record opcode : Type := Op
  { op_tag : tag; op_i1 : nat; op_i2 : nat; op_j1 : nat; op_j2 : nat }.

Definition is_equal (t : tag) : bool :=
  match t with Equal => true | _ => false end.

(** A dictionary from indices to lengths ([j2len]), by its items with the
    latest first. *)
Definition lengths := list (nat * nat).

Fixpoint lengths_get (d : lengths) (j : nat) : nat :=
  match d with
  | [] => 0
  | (j', k) :: d' => if Nat.eqb j' j then k else lengths_get d' j
  end.

(** [j2len.get(j - 1, 0)]: the key [-1] of [j = 0] is never in the
    dictionary. *)
Definition lengths_before (d : lengths) (j : nat) : nat :=
  match j with
  | O => 0
  | S j' => lengths_get d j'
  end.

(** [SequenceMatcher(None, a, b)] with the default [autojunk=True].  With
    no junk function the set [bjunk] is empty: [isbjunk] is always false,
    and the two loops of [find_longest_match] that extend a match over
    junk never run. *)
Section SequenceMatcher.
Variables a b : list str.

(** The indices of [elt] in [b], ascending, from index [j]. *)
Fixpoint indices_from (elt : str) (l : list str) (j : nat) : list nat :=
  match l with
  | [] => []
  | x :: l' =>
      if str_eqb x elt
      then j :: indices_from elt l' (S j)
      else indices_from elt l' (S j)
  end.

(** [elt in bpopular]: in a sequence of 200 elements or more, an element
    with more than [n // 100 + 1] occurrences. *)
Definition popular (elt : str) : bool :=
  (200 <=? length b) &&
  (length b / 100 + 1 <? length (indices_from elt b 0)).

(** [b2j.get(elt, [])] after [__chain_b]: popular elements have been
    deleted from the dictionary. *)
Definition b2j (elt : str) : list nat :=
  if popular elt then [] else indices_from elt b 0.

(** The inner loop of [find_longest_match] over the indices [j] of
    [a[i]] in [b]. *)
Fixpoint row_loop (js : list nat) (i blo bhi : nat)
         (j2len newj2len : lengths) (best : block) : lengths * block :=
  match js with
  | [] => (newj2len, best)
  | j :: js' =>
      if j <? blo then row_loop js' i blo bhi j2len newj2len best
      else if bhi <=? j then (newj2len, best)
      else
        let k := lengths_before j2len j + 1 in
        let '(_, _, bestsize) := best in
        row_loop js' i blo bhi j2len ((j, k) :: newj2len)
          (if bestsize <? k then (i + 1 - k, j + 1 - k, k) else best)
  end.

(** The outer loop over [i in range(alo, ahi)]. *)
Fixpoint rows_loop (rows : list nat) (blo bhi : nat)
         (j2len : lengths) (best : block) : block :=
  match rows with
  | [] => best
  | i :: rows' =>
      let '(newj2len, best') :=
        row_loop (b2j (nth i a [])) i blo bhi j2len [] best in
      rows_loop rows' blo bhi newj2len best'
  end.

(** The first [while]: extend the match to the left. *)
Fixpoint extend_left (alo blo besti bestj bestsize : nat) : block :=
  match besti, bestj with
  | S i', S j' =>
      if (alo <? besti) && (blo <? bestj)
         && str_eqb (nth i' a []) (nth j' b [])
      then extend_left alo blo i' j' (S bestsize)
      else (besti, bestj, bestsize)
  | _, _ => (besti, bestj, bestsize)
  end.

(** The second [while]: extend the match to the right.  Each turn
    increases [besti + bestsize], which stays below [ahi]: [fuel = ahi]
    turns are enough. *)
Fixpoint extend_right (fuel ahi bhi besti bestj bestsize : nat) : nat :=
  match fuel with
  | O => bestsize
  | S fuel' =>
      if (besti + bestsize <? ahi) && (bestj + bestsize <? bhi)
         && str_eqb (nth (besti + bestsize) a [])
                    (nth (bestj + bestsize) b [])
      then extend_right fuel' ahi bhi besti bestj (S bestsize)
      else bestsize
  end.

Definition find_longest_match (alo ahi blo bhi : nat) : block :=
  let '(besti, bestj, bestsize) :=
    rows_loop (seq alo (ahi - alo)) blo bhi [] (alo, blo, 0) in
  let '(besti, bestj, bestsize) :=
    extend_left alo blo besti bestj bestsize in
  (besti, bestj, extend_right ahi ahi bhi besti bestj bestsize).

(** The [while queue] loop of [get_matching_blocks]; the head of the
    list is the end of the Python list, where [pop] and [append] work.
    [None] when the loop has not ended after [fuel] turns. *)
Fixpoint blocks_loop (fuel : nat) (queue : list (nat * nat * nat * nat))
         (matching_blocks : list block) : option (list block) :=
  match queue with
  | [] => Some matching_blocks
  | (alo, ahi, blo, bhi) :: queue' =>
      match fuel with
      | O => None
      | S fuel' =>
          let '(i, j, k) := find_longest_match alo ahi blo bhi in
          if Nat.eqb k 0
          then blocks_loop fuel' queue' matching_blocks
          else
            let queue1 :=
              if (alo <? i) && (blo <? j)
              then (alo, i, blo, j) :: queue' else queue' in
            let queue2 :=
              if (i + k <? ahi) && (j + k <? bhi)
              then (i + k, ahi, j + k, bhi) :: queue1 else queue1 in
            blocks_loop fuel' queue2 (matching_blocks ++ [(i, j, k)])
      end
  end.

(** [x < y] on triples. *)
Definition block_ltb (x y : block) : bool :=
  let '(i1, j1, k1) := x in
  let '(i2, j2, k2) := y in
  (i1 <? i2) || (Nat.eqb i1 i2
                 && ((j1 <? j2) || (Nat.eqb j1 j2 && (k1 <? k2)))).

Fixpoint insert_block (x : block) (l : list block) : list block :=
  match l with
  | [] => [x]
  | y :: l' => if block_ltb y x then y :: insert_block x l' else x :: l
  end.

(** [matching_blocks.sort()]. *)
Fixpoint sort_blocks (l : list block) : list block :=
  match l with
  | [] => []
  | x :: l' => insert_block x (sort_blocks l')
  end.

(** The loop that merges adjacent blocks, with the final append of the
    pending block and of the sentinel [(la, lb, 0)]. *)
Fixpoint merge_adjacent (blocks : list block) (i1 j1 k1 : nat)
  : list block :=
  match blocks with
  | [] =>
      (if Nat.eqb k1 0 then [] else [(i1, j1, k1)])
      ++ [(length a, length b, 0)]
  | (i2, j2, k2) :: blocks' =>
      if Nat.eqb (i1 + k1) i2 && Nat.eqb (j1 + k1) j2
      then merge_adjacent blocks' i1 j1 (k1 + k2)
      else (if Nat.eqb k1 0 then [] else [(i1, j1, k1)])
           ++ merge_adjacent blocks' i2 j2 k2
  end.

(** Every turn of the queue loop that finds a block removes at least
    one element of [a] from the regions left to search, so the loop
    ends within [2 * len(a) + 1] turns. *)
Definition get_matching_blocks : option (list block) :=
  match blocks_loop (2 * length a + 1)
                    [(0, length a, 0, length b)] [] with
  | Some matching_blocks =>
      Some (merge_adjacent (sort_blocks matching_blocks) 0 0 0)
  | None => None
  end.

(** The loop of [get_opcodes] from the position [(i, j)]. *)
Fixpoint opcodes_loop (blocks : list block) (i j : nat) : list opcode :=
  match blocks with
  | [] => []
  | (ai, bj, size) :: blocks' =>
      (if (i <? ai) && (j <? bj) then [Op Replace i ai j bj]
       else if i <? ai then [Op Delete i ai j bj]
       else if j <? bj then [Op Insert i ai j bj]
       else [])
      ++ (if Nat.eqb size 0 then []
          else [Op Equal ai (ai + size) bj (bj + size)])
      ++ opcodes_loop blocks' (ai + size) (bj + size)
  end.

Definition get_opcodes : option (list opcode) :=
  match get_matching_blocks with
  | Some blocks => Some (opcodes_loop blocks 0 0)
  | None => None
  end.

(** The fix-up of a leading and of a trailing [equal] opcode. *)
Definition trim_first (n : nat) (codes : list opcode) : list opcode :=
  match codes with
  | Op Equal i1 i2 j1 j2 :: codes' =>
      Op Equal (Nat.max i1 (i2 - n)) i2 (Nat.max j1 (j2 - n)) j2 :: codes'
  | _ => codes
  end.

Fixpoint trim_last (n : nat) (codes : list opcode) : list opcode :=
  match codes with
  | [] => []
  | [Op Equal i1 i2 j1 j2] =>
      [Op Equal i1 (Nat.min i2 (i1 + n)) j1 (Nat.min j2 (j1 + n))]
  | c :: codes' => c :: trim_last n codes'
  end.

(** The loop of [get_grouped_opcodes] that cuts the opcodes into
    groups, and the test on the last group. *)
Fixpoint groups_loop (n : nat) (codes : list opcode) (group : list opcode)
  : list (list opcode) :=
  match codes with
  | [] =>
      match group with
      | [] => []
      | [Op Equal _ _ _ _] => []
      | _ => [group]
      end
  | Op t i1 i2 j1 j2 :: codes' =>
      if is_equal t && (n + n <? i2 - i1)
      then (group ++ [Op t i1 (Nat.min i2 (i1 + n)) j1 (Nat.min j2 (j1 + n))])
           :: groups_loop n codes'
                [Op t (Nat.max i1 (i2 - n)) i2 (Nat.max j1 (j2 - n)) j2]
      else groups_loop n codes' (group ++ [Op t i1 i2 j1 j2])
  end.

Definition get_grouped_opcodes (n : nat) : option (list (list opcode)) :=
  match get_opcodes with
  | Some codes =>
      let codes := match codes with [] => [Op Equal 0 1 0 1] | _ => codes end in
      Some (groups_loop n (trim_last n (trim_first n codes)) [])
  | None => None
  end.

(** [l[i1:i2]]. *)
Definition slice (l : list str) (i1 i2 : nat) : list str :=
  firstn (i2 - i1) (skipn i1 l).

Definition format_range_unified (start stop : nat) : str :=
  let beginning := start + 1 in
  let length := stop - start in
  if Nat.eqb length 1 then str_of_int (Z.of_nat beginning)
  else
    let beginning := if Nat.eqb length 0 then beginning - 1 else beginning in
    str_of_int (Z.of_nat beginning) ++ lit ","
    ++ str_of_int (Z.of_nat length).

(** The lines of one opcode. *)
Definition opcode_lines (c : opcode) : list str :=
  match op_tag c with
  | Equal => List.map (app (lit " ")) (slice a (op_i1 c) (op_i2 c))
  | Replace =>
      List.map (app (lit "-")) (slice a (op_i1 c) (op_i2 c))
      ++ List.map (app (lit "+")) (slice b (op_j1 c) (op_j2 c))
  | Delete => List.map (app (lit "-")) (slice a (op_i1 c) (op_i2 c))
  | Insert => List.map (app (lit "+")) (slice b (op_j1 c) (op_j2 c))
  end.

(** The hunk of one group: its header and the lines of its opcodes. *)
Definition hunk (group : list opcode) : list str :=
  match group, rev group with
  | first :: _, last :: _ =>
      (lit "@@ -" ++ format_range_unified (op_i1 first) (op_i2 last)
       ++ lit " +" ++ format_range_unified (op_j1 first) (op_j2 last)
       ++ lit " @@")
      :: flat_map opcode_lines group
  | _, _ => []
  end.

(** [list(unified_diff(a, b, lineterm=''))]: the two file headers are
    produced before the first hunk, if there is one. *)
Definition unified_diff : option (list str) :=
  match get_grouped_opcodes 3 with
  | Some [] => Some []
  | Some groups =>
      Some ([lit "--- "; lit "+++ "] ++ flat_map hunk groups)
  | None => None
  end.

End SequenceMatcher.

End Difflib.

(* ================================================================== *)
(** * The differ *)
(* ================================================================== *)

Definition is_file_header (line : str) : bool :=
  startswith (lit "---") line || startswith (lit "+++") line.

(** [compare_configs]; [None] only if the model of the sequence matcher
    should run out of fuel. *)
Definition compare_configs (before after : list str) : option (list str) :=
  match Difflib.unified_diff before after with
  | Some diff => Some (filter (fun line => negb (is_file_header line)) diff)
  | None => None
  end.

(* ================================================================== *)
(** * The risk classifier *)
(* ================================================================== *)

Definition critical_ports : list (Z * str) :=
  [ (22, lit "SSH - Used for remote access, often targeted by attackers.");
    (80, lit "HTTP - Often unencrypted, vulnerable to various attacks.");
    (443, lit "HTTPS - Critical for secure web traffic, targeted for MiTM attacks.");
    (8080, lit "HTTP Proxy - Can bypass normal firewall rules, potentially dangerous.");
    (53, lit "DNS - Can be used for DNS amplification attacks.");
    (3306, lit "MySQL - Often targeted in brute force attacks.");
    (21, lit "FTP - Unencrypted file transfers, vulnerable to interception.");
    (23, lit "Telnet - Unencrypted communication, easily intercepted.");
    (1433, lit "MS SQL Server - Database often targeted.");
    (3389, lit "RDP - Remote desktop access, vulnerable to brute force attacks.");
    (5432, lit "PostgreSQL - Target database for attacks.");
    (27017, lit "MongoDB - NoSQL database, often misconfigured.") ]%Z.

(** [d[key]] when [key in d], for a dictionary given by its items. *)
Fixpoint dict_get (d : list (Z * str)) (key : Z) : option str :=
  match d with
  | [] => None
  | (k, v) :: d' => if (k =? key)%Z then Some v else dict_get d' key
  end.

(** Pieces that the patterns share: [.*], [\s+], [[0-9]+], [-j\s+ACCEPT]
    and [-j\s+ACCEPT\s*$]. *)
Definition dots : Re.regex := Re.Star Re.any.
Definition sp : Re.regex := Re.Plus Re.space.
Definition num : Re.regex := Re.Plus Re.ascii_digit.
Definition accept : list Re.regex := [Re.text "-j"; sp; Re.text "ACCEPT"].
Definition accept_end : list Re.regex :=
  accept ++ [Re.Star Re.space; Re.Eol].

Definition risky_patterns : list (Re.regex * str) :=
  [ (Re.cat ([Re.text "iptables"; dots] ++ accept_end),
     lit "High risk: Unconditional acceptance rule without restrictions");
    (Re.cat ([Re.text "iptables"; dots; Re.text "-A"; sp; Re.text "INPUT";
              dots] ++ accept_end),
     lit "Medium risk: Input acceptance rule without specific filters");
    (Re.cat ([Re.text "iptables"; dots; Re.text "-A"; sp; Re.text "FORWARD";
              dots] ++ accept_end),
     lit "High risk: Forwarding rule without restrictions, potential pivot point");

    (Re.cat [Re.text "iptables"; dots; Re.text "--dport"; sp;
             Re.text "0:65535"],
     lit "Critical risk: Complete port range open");
    (Re.cat [Re.text "iptables"; dots; Re.text "--dport"; sp;
             Re.text "1:1024"],
     lit "High risk: All privileged ports open");
    (Re.cat [Re.text "iptables"; dots; Re.text "--dport"; sp;
             num; Re.text ":"; num],
     lit "Medium risk: Port range detected, verify if necessary");

    (Re.cat ([Re.text "iptables"; dots; Re.text "-s"; sp;
              Re.text "0.0.0.0/0"; dots] ++ accept),
     lit "High risk: Accepting traffic from any source IP");
    (Re.cat ([Re.text "iptables"; dots; Re.text "-A"; sp; Re.text "INPUT"; sp;
              Re.text "-s"; sp; Re.text "192.168."; num; Re.text "."; num;
              Re.text "/"; num; dots] ++ accept),
     lit "Low risk: Private network access rule, verify scope");

    (Re.cat [Re.text "iptables"; dots; Re.text "-j"; sp; Re.text "DROP"; dots;
             Re.text "--state"; sp; Re.text "INVALID"],
     lit "Medium risk: Security rule for invalid packets modified/removed");
    (Re.cat [Re.text "iptables"; dots; Re.text "-j"; sp; Re.text "DROP"; dots;
             Re.text "--state"; sp; Re.text "NEW"; dots; Re.text "-m"; sp;
             Re.text "state"; sp; Re.text "--state"; sp;
             Re.text "ESTABLISHED"],
     lit "High risk: State tracking rule modified/removed");

    (Re.cat [Re.text "iptables"; dots; Re.text ":INPUT"; sp;
             Re.text "ACCEPT"],
     lit "High risk: Default INPUT policy set to ACCEPT");
    (Re.cat [Re.text "iptables"; dots; Re.text ":FORWARD"; sp;
             Re.text "ACCEPT"],
     lit "High risk: Default FORWARD policy set to ACCEPT");

    (Re.cat ([Re.text "iptables"; dots; Re.text "-A"; sp; Re.text "INPUT";
              dots; Re.text "--dport"; sp; Re.text "3389"; dots] ++ accept),
     lit "Medium risk: RDP port opened, vulnerable to brute force");
    (Re.cat ([Re.text "iptables"; dots; Re.text "-A"; sp; Re.text "INPUT";
              dots; Re.text "--dport"; sp; Re.text "22"; dots] ++ accept_end),
     lit "Medium risk: SSH port opened without IP restriction");
    (Re.cat ([Re.text "iptables"; dots; Re.text "-A"; sp; Re.text "INPUT";
              dots; Re.text "--dport"; sp;
              Re.Group 1
                (Re.Alt (Re.text "1433")
                   (Re.Alt (Re.text "3306")
                      (Re.Alt (Re.text "5432") (Re.text "27017"))));
              dots] ++ accept_end),
     lit "High risk: Database port exposed without restrictions") ].

(** [r'--dport\s+(\d+)(?:-(\d+))?'] *)
Definition dport_pattern : Re.regex :=
  Re.cat [ Re.text "--dport"; Re.Plus Re.space;
           Re.Group 1 (Re.Plus Re.digit);
           Re.Opt (Re.Seq (Re.text "-") (Re.Group 2 (Re.Plus Re.digit))) ].

(** [range(a, b + 1)]. *)
Definition range_incl (a b : Z) : list Z :=
  List.map (fun i => (a + Z.of_nat i)%Z) (seq 0 (Z.to_nat (b + 1 - a))).

(** The two messages of the port check. *)
Definition range_port_message (line : str) (port : Z) (description : str) : str :=
  lit "[bold red]Security Risk Detected![/bold red] - " ++ strip line
  ++ lit " (Port " ++ str_of_int port ++ lit ": " ++ description ++ lit ")".

Definition single_port_message (line : str) (description : str) : str :=
  lit "[bold red]Security Risk Detected![/bold red] - " ++ strip line
  ++ lit " (" ++ description ++ lit ")".

Definition pattern_message (line : str) (description : str) : str :=
  lit "[bold yellow]Potential Risk![/bold yellow] - " ++ strip line
  ++ lit " (" ++ description ++ lit ")".

(** The findings of a range: one for each port of the range in the table. *)
Fixpoint range_findings (line : str) (ports : list Z) : list str :=
  match ports with
  | [] => []
  | port :: ports' =>
      match dict_get critical_ports port with
      | Some description =>
          range_port_message line port description :: range_findings line ports'
      | None => range_findings line ports'
      end
  end.

(** The port check on one [+] line: the findings it appends, or [None]
    when an [int] of the line raises [ValueError] (a number of more than
    4300 digits). *)
Definition port_findings (line : str) : option (list str) :=
  match Re.search dport_pattern line with
  | None => Some []
  | Some port_match =>
      match Re.group port_match 2 with
      | Some (c :: g2) =>
          match Re.group port_match 1 with
          | Some g1 =>
              match int_of_str g1 with
              | Some start_port =>
                  match int_of_str (c :: g2) with
                  | Some end_port =>
                      Some (range_findings line
                              (range_incl start_port end_port))
                  | None => None
                  end
              | None => None
              end
          | None => None
          end
      | _ =>
          match Re.group port_match 1 with
          | Some g1 =>
              match int_of_str g1 with
              | Some port =>
                  match dict_get critical_ports port with
                  | Some description =>
                      Some [single_port_message line description]
                  | None => Some []
                  end
              | None => None
              end
          | None => None
          end
      end
  end.

(** The pattern check on one [+] line: one finding for each pattern of the
    list that matches, in the order of the list. *)
Fixpoint pattern_findings_in (patterns : list (Re.regex * str)) (line : str)
  : list str :=
  match patterns with
  | [] => []
  | (pattern, description) :: patterns' =>
      if Re.found pattern line
      then pattern_message line description :: pattern_findings_in patterns' line
      else pattern_findings_in patterns' line
  end.

Definition pattern_findings (line : str) : list str :=
  pattern_findings_in risky_patterns line.

(** [risky_changes] after the loop over the diff lines; [None] when the
    loop is left by a [ValueError] of the port check, which the function
    does not catch. *)
Fixpoint detect_security_risks (diff_lines : list str)
  : option (list str) :=
  match diff_lines with
  | [] => Some []
  | line :: rest =>
      if startswith (lit "+") line
      then match port_findings line with
           | Some findings =>
               match detect_security_risks rest with
               | Some risky_changes =>
                   Some (findings ++ pattern_findings line ++ risky_changes)
               | None => None
               end
           | None => None
           end
      else detect_security_risks rest
  end.

(* ================================================================== *)
(** * Python floats *)
(* ================================================================== *)

Module Float.

Definition prec : Z := 53.
Definition emax : Z := 1024.

(** A [float]: an IEEE 754 binary64 value. *)
Definition float := spec_float.

Definition add : float -> float -> float := SFadd prec emax.
Definition mul : float -> float -> float := SFmul prec emax.
Definition div : float -> float -> float := SFdiv prec emax.
Definition ltb : float -> float -> bool := SFltb.
Definition leb : float -> float -> bool := SFleb.

(** The conversion of an [int] operand: the nearest float, ties to even.
    (On an [int] beyond the range of floats Python raises
    [OverflowError]; the counts converted here are lengths of lists, far
    below that.) *)
Definition of_int (n : Z) : float := binary_normalize prec emax n 0 false.

(** The float nearest to the fraction [n / d], with sign [s]. *)
Definition of_fraction (s : bool) (n d : positive) : float :=
  let '(mz, ez, lz) := SFdiv_core_binary prec emax (Zpos n) 0 (Zpos d) 0 in
  binary_round_aux prec emax s mz ez lz.

(** [n / d] on two [int]s, [d > 0]: the correctly rounded quotient. *)
Definition int_truediv (n : Z) (d : positive) : float :=
  match n with
  | Z0 => S754_zero false
  | Zpos p => of_fraction false p d
  | Zneg p => of_fraction true p d
  end.

(** [min(x, y)] and [max(x, y)] of two arguments: the first one, unless
    the second is smaller (larger). *)
Definition min (x y : float) : float := if ltb y x then y else x.
Definition max (x y : float) : float := if ltb x y then y else x.

(** The integer nearest to [n / d], [d > 0], ties to even. *)
Definition round_half_even (n d : Z) : Z :=
  let q := (n / d)%Z in
  match (2 * (n mod d) ?= d)%Z with
  | Lt => q
  | Gt => (q + 1)%Z
  | Eq => if Z.even q then q else (q + 1)%Z
  end.

(** [round(x, 2)]: the decimal with two places nearest to the exact value
    of [x] (ties to even), converted back to the nearest float; zeros,
    infinities and NaN round to themselves. *)
Definition round2 (x : float) : float :=
  match x with
  | S754_finite s m e =>
      let hundredths :=
        match e with
        | Zneg p => round_half_even (100 * Zpos m) (2 ^ Zpos p)
        | _ => (100 * Zpos m * 2 ^ e)%Z
        end in
      match hundredths with
      | Zpos n => of_fraction s n 100
      | _ => S754_zero s
      end
  | _ => x
  end.

End Float.

(* ================================================================== *)
(** * The impact scorer *)
(* ================================================================== *)

(** [sum(1 for line in lines if test(line))]. *)
Fixpoint sum_ones (test : str -> bool) (lines : list str) : Z :=
  match lines with
  | [] => 0
  | line :: rest =>
      if test line then (1 + sum_ones test rest)%Z else sum_ones test rest
  end.

Record metrics : Type := Metrics
  { chaos_score : Float.float;
    additions : Z;
    removals : Z;
    input_changes : Z;
    output_changes : Z;
    forward_changes : Z }.

Definition is_addition (line : str) : bool := startswith (lit "+") line.
Definition is_removal (line : str) : bool := startswith (lit "-") line.
Definition is_context (line : str) : bool := startswith (lit " ") line.

Definition weight_add : Float.float := Float.int_truediv 3 2.    (* 1.5 *)
Definition weight_remove : Float.float := Float.of_int 1.        (* 1.0 *)

(** [max_expected_score] from [total_lines]. *)
Definition max_expected_score (total_lines : Z) : Float.float :=
  match total_lines with
  | Zpos _ =>
      Float.max (Float.of_int 50)
        (Float.min (Float.of_int 200) (Float.int_truediv total_lines 2))
  | _ => Float.of_int 50
  end.

Definition calculate_impact_metrics (diff_lines : list str) : metrics :=
  let add_count := sum_ones is_addition diff_lines in
  let remove_count := sum_ones is_removal diff_lines in
  let chaos :=
    Float.add (Float.mul (Float.of_int add_count) weight_add)
              (Float.mul (Float.of_int remove_count) weight_remove) in
  let total_lines :=
    Z.of_nat (length (filter (fun line => is_addition line || is_removal line
                                          || is_context line) diff_lines)) in
  let scaled_chaos :=
    Float.min (Float.of_int 100)
      (Float.mul (Float.div chaos (max_expected_score total_lines))
                 (Float.of_int 100)) in
  let changed line := is_addition line || is_removal line in
  {| chaos_score := Float.round2 scaled_chaos;
     additions := add_count;
     removals := remove_count;
     input_changes :=
       sum_ones (fun line => changed line && contains (lit "INPUT") line)
                diff_lines;
     output_changes :=
       sum_ones (fun line => changed line && contains (lit "OUTPUT") line)
                diff_lines;
     forward_changes :=
       sum_ones (fun line => changed line && contains (lit "FORWARD") line)
                diff_lines |}.

(* ================================================================== *)
(** * The rule grouper *)
(* ================================================================== *)

(** A dictionary from strings to lists of strings, by its items in
    insertion order (the order in which [items()] yields them). *)
Definition groups := list (str * list str).

(** [if key not in d: d[key] = []] and then [d[key].append(value)]. *)
Fixpoint dict_append (d : groups) (key value : str) : groups :=
  match d with
  | [] => [(key, [value])]
  | (k, values) :: d' =>
      if str_eqb k key
      then (k, values ++ [value]) :: d'
      else (k, values) :: dict_append d' key value
  end.

(** The two grouping loops of [group_rules] have one shape: on a [+] line
    in which the key is found, the stripped line is appended to the group
    of the key. *)
Fixpoint group_loop (key_of : str -> option str) (diff_lines : list str)
         (grouped : groups) : groups :=
  match diff_lines with
  | [] => grouped
  | line :: rest =>
      if startswith (lit "+") line
      then match key_of line with
           | Some key =>
               group_loop key_of rest (dict_append grouped key (strip line))
           | None => group_loop key_of rest grouped
           end
      else group_loop key_of rest grouped
  end.

(** The lines of the groups: a heading for each key, then its rules. *)
Definition group_lines (heading : str -> str) (d : groups) : list str :=
  flat_map (fun '(key, rules) =>
              heading key :: List.map (app (lit "    ")) rules) d.

Section RuleGrouper.

(** [str.isalnum] from code point 128 on, as in the format detector. *)
Variable uni_alnum : char -> bool.

(** [r'-A\s+(\w+)'] *)
Definition chain_pattern : Re.regex :=
  Re.cat [Re.text "-A"; Re.Plus Re.space;
          Re.Group 1 (Re.Plus (isword uni_alnum))].

(** [port_match.group(0)] when the port pattern is found. *)
Definition port_key (line : str) : option str :=
  match Re.search dport_pattern line with
  | Some port_match => Some (Re.m_text port_match)
  | None => None
  end.

(** [chain_match.group(1)] when the chain pattern is found. *)
Definition chain_key (line : str) : option str :=
  match Re.search chain_pattern line with
  | Some chain_match => Re.group chain_match 1
  | None => None
  end.

Definition group_rules (diff_lines : list str) : list str :=
  let grouped := group_loop port_key diff_lines [] in
  let chain_grouped := group_loop chain_key diff_lines [] in
  (match grouped with
   | [] => []
   | _ =>
       lit "[bold blue]--- Rules Grouped by Port ---[/bold blue]"
       :: group_lines
            (fun port_key =>
               lit "[bold green]" ++ port_key ++ lit " Rules[/bold green]:")
            grouped
   end)
  ++ (match chain_grouped with
      | [] => []
      | _ =>
          (10%N :: lit "[bold blue]--- Rules Grouped by Chain ---[/bold blue]")
          :: group_lines
               (fun chain =>
                  lit "[bold green]Chain " ++ chain
                  ++ lit " Rules[/bold green]:")
               chain_grouped
      end).

End RuleGrouper.

(* ================================================================== *)
(** * The report: the bands of the chaos score *)
(* ================================================================== *)

(** The colour of the gauge in [visualize_changes]. *)
Definition get_color_for_chaos (chaos_score : Float.float) : str :=
  if Float.ltb chaos_score (Float.of_int 25) then lit "#4CAF50"
  else if Float.ltb chaos_score (Float.of_int 50) then lit "#FFC107"
  else if Float.ltb chaos_score (Float.of_int 75) then lit "#FF9800"
  else lit "#F44336".

(** The assessment line of [generate_report]. *)
Definition chaos_description (chaos_score : Float.float) : str :=
  if Float.ltb chaos_score (Float.of_int 25)
  then lit "Low impact, minimal changes"
  else if Float.ltb chaos_score (Float.of_int 50)
  then lit "Moderate impact, significant changes"
  else if Float.ltb chaos_score (Float.of_int 75)
  then lit "High impact, major reconfiguration"
  else lit "Extreme impact, complete overhaul".

(* ================================================================== *)
(** * Notions used to state the properties *)
(* ================================================================== *)

(** The number of elements of a list that pass a test. *)
Definition count (test : str -> bool) (lines : list str) : Z :=
  Z.of_nat (length (filter test lines)).

(** [a <= b] on strings, as [not (b < a)]. *)
Definition str_le (a b : str) : Prop := str_ltb b a = false.

(** A line matches at least one signature of the format detector. *)
Definition matches_signature (uni_alnum : char -> bool) (line : str) : bool :=
  existsb (fun pattern => Re.found pattern line) (iptables_patterns uni_alnum).

(** The rewriting of [--X] into [-X] as a function on strings: at a [--]
    followed by an upper-case letter one dash is dropped and the scan goes
    on after the letter. *)
Fixpoint fix_dashes (s : str) : str :=
  match s with
  | [] => []
  | c :: t =>
      match t with
      | d :: u :: rest =>
          if (c =? 45)%N && (d =? 45)%N && Re.upper u
          then c :: u :: fix_dashes rest
          else c :: fix_dashes t
      | _ => c :: fix_dashes t
      end
  end.

(** The collapsing of whitespace runs as a function on strings; [in_run]
    says that the character before was whitespace. *)
Fixpoint squeeze (in_run : bool) (s : str) : str :=
  match s with
  | [] => []
  | c :: t =>
      if isspace c
      then if in_run then squeeze true t else 32%N :: squeeze true t
      else c :: squeeze false t
  end.

(** A string starts with characters of the given classes, in order; such
    a run of characters occurs somewhere in it. *)
Fixpoint starts_with_classes (classes : list (char -> bool)) (s : str) : bool :=
  match classes, s with
  | [], _ => true
  | _ :: _, [] => false
  | p :: classes', c :: s' => p c && starts_with_classes classes' s'
  end.

Fixpoint occurs (classes : list (char -> bool)) (s : str) : bool :=
  starts_with_classes classes s
  || match s with
     | [] => false
     | _ :: s' => occurs classes s'
     end.

Definition is_dash (c : char) : bool := (c =? 45)%N.

(** A string has no whitespace at either end. *)
Definition trimmed (s : str) : Prop :=
  match s with
  | [] => True
  | c :: _ => isspace c = false /\ isspace (last s c) = false
  end.

(** [--X] and [---X] with an upper-case letter [X] occur in a string. *)
Definition has_double_dash_upper : str -> bool :=
  occurs [is_dash; is_dash; Re.upper].

Definition has_triple_dash_upper : str -> bool :=
  occurs [is_dash; is_dash; is_dash; Re.upper].

(** The scenario of the specification: one rule before, the same rule and
    an RDP rule after, each line with its newline; normalised, then
    compared. *)
Definition scenario_before : list str :=
  [lit "-A INPUT -p tcp --dport 80 -j ACCEPT" ++ [10%N]].

Definition scenario_after : list str :=
  scenario_before ++ [lit "-A INPUT -p tcp --dport 3389 -j ACCEPT" ++ [10%N]].

Definition scenario_diff : option (list str) :=
  compare_configs (normalize_iptables_config scenario_before)
                  (normalize_iptables_config scenario_after).

(** A float is not negative: its sign bit is not set (NaN has none). *)
Definition nonneg (x : spec_float) : bool :=
  match x with
  | S754_zero s | S754_infinity s | S754_finite s _ _ => negb s
  | S754_nan => true
  end.

(** The chaos score as the specification writes it, in terms of its own:
    [clamp(x, lo, hi)]; the baseline [clamp(total / 2, 50, 200)]; the
    weights as the decimals 1.5 (15 tenths) and 1.0 (10 tenths); the score
    before it is rounded, [clamp(raw / baseline * 100, 0, 100)] with
    [raw = additions * 1.5 + removals * 1.0]. *)
Definition clamp (x lo hi : Float.float) : Float.float :=
  Float.max lo (Float.min hi x).

Definition spec_baseline (total : Z) : Float.float :=
  clamp (Float.int_truediv total 2) (Float.of_int 50) (Float.of_int 200).

Definition spec_weight_add : Float.float := Float.of_fraction false 15 10.

Definition spec_weight_remove : Float.float := Float.of_fraction false 10 10.

Definition spec_unrounded_score (adds rems total : Z) : Float.float :=
  let raw := Float.add (Float.mul (Float.of_int adds) spec_weight_add)
                       (Float.mul (Float.of_int rems) spec_weight_remove) in
  clamp (Float.mul (Float.div raw (spec_baseline total)) (Float.of_int 100))
        (Float.of_int 0) (Float.of_int 100).

(** Rounding to two decimal places, stated on exact values.  [two_places n]
    is the float of the decimal with two places [n / 100].
    [nearest_hundredths x n]: [n / 100] is a decimal with two places nearest
    to the exact value of [x], the one with the even last digit when two are
    equally near.  The exact value of a finite float is [v * 2 ^ e], so
    [100 * x = num / den] below, and the distance from [n] to [100 * x] is
    [|num - n * den| / den]. *)
Definition two_places (n : Z) : Float.float :=
  Float.div (Float.of_int n) (Float.of_int 100).

Definition nearest_hundredths (x : Float.float) (n : Z) : Prop :=
  match x with
  | S754_zero _ => n = 0%Z
  | S754_finite s m e =>
      let v := (if s then - Zpos m else Zpos m)%Z in
      let num := (100 * v * 2 ^ Z.max e 0)%Z in
      let den := (2 ^ Z.max (- e) 0)%Z in
      (2 * Z.abs (num - n * den) <= den)%Z
      /\ ((2 * Z.abs (num - n * den) = den)%Z -> Z.even n = true)
  | _ => False
  end.

(** Two floats are the same value. *)
Definition float_eqb (x y : Float.float) : bool :=
  match x, y with
  | S754_zero s, S754_zero s' => Bool.eqb s s'
  | S754_infinity s, S754_infinity s' => Bool.eqb s s'
  | S754_nan, S754_nan => true
  | S754_finite s m e, S754_finite s' m' e' =>
      Bool.eqb s s' && (m =? m')%positive && (e =? e')%Z
  | _, _ => false
  end.

(** The float nearest to [n / 100] lies between 0 and 100 and is
    [two_places n]; so for the [fuel] fractions from [n / 100] on. *)
Definition hundredths_in_range (n : positive) : bool :=
  let f := Float.of_fraction false n 100 in
  Float.leb (Float.of_int 0) f && Float.leb f (Float.of_int 100)
  && float_eqb f (two_places (Zpos n)).

Fixpoint all_in_range (fuel : nat) (n : positive) : bool :=
  match fuel with
  | O => true
  | S fuel' => hundredths_in_range n && all_in_range fuel' (Pos.succ n)
  end.

(** A sequence [x] compared with itself.  [linked x i j]: the index [j] is
    in [b2j[a[i]]], that is, [b[j] == a[i]] and the element is not popular.
    [chain x i j]: the length of the longest run of linked pairs that ends
    at [(i, j)], the value that [find_longest_match] stores in
    [newj2len[j]] in row [i]. *)
Definition linked (x : list str) (i j : nat) : bool :=
  (j <? length x) && str_eqb (nth j x []) (nth i x [])
  && negb (Difflib.popular x (nth i x [])).

Fixpoint chain (x : list str) (i j : nat) {struct i} : nat :=
  if linked x i j
  then match i, j with
       | S i', S j' => S (chain x i' j')
       | _, _ => 1
       end
  else 0.

(** The dictionary [j2len] left by the row before row [i] gives the right
    lengths in row [i]. *)
Definition row_ready (x : list str) (i : nat) (prev : Difflib.lengths) : Prop :=
  forall j, linked x i j = true ->
            Difflib.lengths_before prev j + 1 = chain x i j.

(** A finding contains a word. *)
Definition mentions (word : string) (finding : str) : bool :=
  contains (lit word) finding.

(** Every whitespace character of a string is a space that is followed by
    a character that is not whitespace, if by any. *)
Fixpoint single_spaced (s : str) : bool :=
  match s with
  | [] => true
  | c :: t =>
      (if isspace c
       then (c =? 32)%N
            && match t with d :: _ => negb (isspace d) | [] => true end
       else true)
      && single_spaced t
  end.

(** A line contains one of the words that the signatures of the format
    detector look for as plain text. *)
Definition has_keyword (line : str) : bool :=
  contains (lit "iptables") line || contains (lit "--dport") line
  || contains (lit "--sport") line || contains (lit "ACCEPT") line
  || contains (lit "DROP") line || contains (lit "REJECT") line.

Definition is_some {A : Type} (o : option A) : bool :=
  match o with Some _ => true | None => false end.

(** A line of a diff of [before] and [after]: a hunk header, a line of
    [after] behind [+], or a line of [before] behind [-] or a space. *)
Definition is_hunk_header (line : str) : bool := startswith (lit "@@ -") line.

Definition diff_line_of (before after : list str) (line : str) : Prop :=
  is_hunk_header line = true
  \/ (exists l, In l after /\ line = lit "+" ++ l)
  \/ (exists l, In l before /\ line = lit "-" ++ l)
  \/ (exists l, In l before /\ line = lit " " ++ l).

(** A block lies in the region [a[alo:top]], [b[blo:bhi]]. *)
Definition block_within (alo top blo bhi : nat) (best : Difflib.block) : Prop :=
  let '(i, j, k) := best in
  alo <= i /\ i + k <= top /\ blo <= j /\ j + k <= bhi.

(** An item of [j2len] after [rows] rows of the region have been read. *)
Definition length_within (rows blo bhi : nat) (item : nat * nat) : Prop :=
  let '(j, k) := item in k <= rows /\ blo <= j /\ k <= j + 1 - blo /\ j < bhi.

(** The work left in the queue of [get_matching_blocks]: each region counts
    for twice its number of rows of [a], plus one. *)
Definition queue_weight (queue : list (nat * nat * nat * nat)) : nat :=
  fold_right (fun '(alo, ahi, _, _) w => 2 * (ahi - alo) + 1 + w) 0 queue.

Definition region_ok (region : nat * nat * nat * nat) : Prop :=
  let '(alo, ahi, blo, bhi) := region in alo <= ahi /\ blo <= bhi.

(** A finding quotes a diff line: after one of the two tags comes the
    stripped line. *)
Definition quotes (finding line : str) : Prop :=
  startswith (lit "[bold red]Security Risk Detected![/bold red] - "
              ++ strip line) finding = true
  \/ startswith (lit "[bold yellow]Potential Risk![/bold yellow] - "
                 ++ strip line) finding = true.

(** The chaos score as a function of the three counts. *)
Definition score_of_counts (adds rems total : Z) : Float.float :=
  Float.round2
    (Float.min (Float.of_int 100)
       (Float.mul
          (Float.div
             (Float.add (Float.mul (Float.of_int adds) weight_add)
                        (Float.mul (Float.of_int rems) weight_remove))
             (max_expected_score total))
          (Float.of_int 100))).

(** A test holds for every number below [n]. *)
Fixpoint all_below (n : nat) (test : nat -> bool) : bool :=
  match n with
  | O => true
  | S n' => test n' && all_below n' test
  end.

(** With the baseline of 50, [adds] additions and [rems] removals score
    [min(100, 3 * adds + 2 * rems)]; up to 100 counted lines the baseline
    is 50. *)
Definition small_score_ok (adds rems : nat) : bool :=
  float_eqb (score_of_counts (Z.of_nat adds) (Z.of_nat rems) 0)
            (Float.of_int (Z.min 100 (3 * Z.of_nat adds + 2 * Z.of_nat rems))).

Definition small_baseline_ok (total : nat) : bool :=
  float_eqb (max_expected_score (Z.of_nat total)) (Float.of_int 50).

(** The band of an integer score, from 0 (low) to 3 (extreme), and what
    the report shows for each band. *)
Definition band (n : Z) : nat :=
  if (n <? 25)%Z then 0 else if (n <? 50)%Z then 1
  else if (n <? 75)%Z then 2 else 3.

Definition band_colors : list str :=
  [lit "#4CAF50"; lit "#FFC107"; lit "#FF9800"; lit "#F44336"].

Definition band_descriptions : list str :=
  [ lit "Low impact, minimal changes";
    lit "Moderate impact, significant changes";
    lit "High impact, major reconfiguration";
    lit "Extreme impact, complete overhaul" ].

Definition band_ok (n : nat) : bool :=
  let x := Float.of_int (Z.of_nat n) in
  str_eqb (get_color_for_chaos x) (nth (band (Z.of_nat n)) band_colors [])
  && str_eqb (chaos_description x)
             (nth (band (Z.of_nat n)) band_descriptions []).

(** The rules of all groups, and the test for a rule line of the output
    of [group_rules]. *)
Definition rules_of (d : groups) : list str := flat_map snd d.

Definition is_indented (line : str) : bool := startswith (lit "    ") line.

(** A line has a key; an added line belongs to the group of a key. *)
Definition has_key (key_of : str -> option str) (line : str) : bool :=
  match key_of line with Some _ => true | None => false end.

Definition in_group (key_of : str -> option str) (key line : str) : bool :=
  is_addition line
  && match key_of line with Some k => str_eqb k key | None => false end.

(** What a grouping loop keeps true of its dictionary, [seen] being the
    lines read so far. *)
Definition grouped_by (key_of : str -> option str) (seen : list str)
           (d : groups) : Prop :=
  NoDup (List.map fst d)
  /\ (forall key rules,
        In (key, rules) d ->
        rules <> []
        /\ rules = List.map strip (filter (in_group key_of key) seen))
  /\ (forall key,
        ~ In key (List.map fst d) -> filter (in_group key_of key) seen = []).

(** The first character of a string, if there is one, passes none of
    the tests of a list. *)
Definition head_fails (tests : list (char -> bool)) (s : str) : Prop :=
  match s with
  | [] => True
  | c :: _ => Forall (fun test => test c = false) tests
  end.

(** The decimal notation of a number has more digits than [int] reads. *)
Definition over_limit (n : Z) : bool :=
  (int_max_str_digits <? Z.of_nat (length (str_of_int n)))%Z.

(* ================================================================== *)
(** * Properties *)
(* ================================================================== *)

Unset Implicit Arguments.

Example normalize_example :
  normalize_iptables_config
    [lit "  --A INPUT   -p tcp --dport 80 -j ACCEPT"; lit "# note"; lit "";
     lit "-A FORWARD -j DROP"]
  = [lit "-A FORWARD -j DROP"; lit "-A INPUT -p tcp --dport 80 -j ACCEPT"].
Proof. vm_compute. reflexivity. Qed.

(* ------------------------------------------------------------------ *)
(** ** Text *)

Lemma startswith_one : forall c s,
  startswith [c] s = match s with x :: _ => (c =? x)%N | [] => false end.
Proof.
  intros c [|x s]; simpl; [reflexivity|].
  now rewrite andb_true_r.
Qed.

(* ------------------------------------------------------------------ *)
(** ** The impact scorer: the counts *)

Lemma sum_ones_count : forall test lines,
  sum_ones test lines = count test lines.
Proof.
  unfold count. intros test lines.
  induction lines as [|line rest IH]; cbn [sum_ones filter]; [reflexivity|].
  destruct (test line); cbn [length]; rewrite IH, ?Nat2Z.inj_succ; lia.
Qed.

Lemma addition_not_removal : forall line,
  is_addition line = true -> is_removal line = false.
Proof.
  unfold is_addition, is_removal. intros line.
  change (lit "+") with [43%N]. change (lit "-") with [45%N].
  rewrite !startswith_one. destruct line as [|c s]; [discriminate|].
  intros H. apply N.eqb_eq in H. subst c. reflexivity.
Qed.

Lemma count_either : forall lines,
  (count is_addition lines + count is_removal lines)%Z
  = count (fun line => is_addition line || is_removal line) lines.
Proof.
  unfold count. intros lines.
  induction lines as [|line rest IH]; cbn [filter]; [reflexivity|].
  destruct (is_addition line) eqn:Ha.
  - rewrite (addition_not_removal _ Ha). cbn [orb length].
    rewrite !Nat2Z.inj_succ. lia.
  - destruct (is_removal line); cbn [orb length];
      rewrite ?Nat2Z.inj_succ; lia.
Qed.

(** C8. For every diff sequence, [additions] is the number of lines that
    start with [+], [removals] the number of lines that start with [-], and
    their sum is the number of lines that start with [+] or [-]. *)
Theorem additions_removals_count : forall diff_lines,
  let m := calculate_impact_metrics diff_lines in
  additions m = count (startswith (lit "+")) diff_lines
  /\ removals m = count (startswith (lit "-")) diff_lines
  /\ (additions m + removals m)%Z
     = count (fun line => startswith (lit "+") line
                          || startswith (lit "-") line) diff_lines.
Proof.
  intros diff_lines m. subst m. cbn [additions removals calculate_impact_metrics].
  rewrite !sum_ones_count. repeat split.
  apply count_either.
Qed.

(* ------------------------------------------------------------------ *)
(** ** Regular expressions *)

Section ReFacts.
Variable R : Type.

Lemma rmatch_word : forall w s caps (k : str -> Re.captures -> option R),
  Re.rmatch (Re.word w) s caps k
  = if startswith w s then k (skipn (length w) s) caps else None.
Proof.
  induction w as [|c w IH]; intros s caps k; simpl; [reflexivity|].
  destruct s as [|x s]; [reflexivity|].
  rewrite N.eqb_sym.
  destruct (c =? x)%N; simpl; [apply IH | reflexivity].
Qed.

Lemma rmatch_word_seq : forall w r s caps (k : str -> Re.captures -> option R),
  startswith w s = false ->
  Re.rmatch (Re.Seq (Re.word w) r) s caps k = None.
Proof.
  intros w r s caps k H. simpl. rewrite rmatch_word, H. reflexivity.
Qed.
End ReFacts.

Lemma search_word_seq : forall w r s pos,
  contains w s = false -> Re.search_from (Re.Seq (Re.word w) r) pos s = None.
Proof.
  intros w r s. induction s as [|c s IH]; intros pos H; simpl in H;
    apply orb_false_iff in H; destruct H as [H1 H2].
  - simpl. unfold Re.match_at. rewrite rmatch_word_seq by assumption.
    reflexivity.
  - cbn [Re.search_from]. unfold Re.match_at.
    rewrite rmatch_word_seq by assumption. apply IH. assumption.
Qed.

Lemma found_word_seq : forall w r s,
  contains w s = false -> Re.found (Re.Seq (Re.word w) r) s = false.
Proof.
  intros w r s H. unfold Re.found, Re.search.
  rewrite search_word_seq by assumption. reflexivity.
Qed.

(* ------------------------------------------------------------------ *)
(** ** The risk classifier *)

Lemma risky_patterns_start : forall pattern description,
  In (pattern, description) risky_patterns ->
  exists r, pattern = Re.Seq (Re.word (lit "iptables")) r.
Proof.
  intros pattern description H. unfold risky_patterns in H. simpl in H.
  repeat (destruct H as [H|H];
          [injection H as <- _; eexists; reflexivity|]).
  contradiction.
Qed.

Lemma pattern_findings_in_none : forall patterns line,
  (forall pattern description, In (pattern, description) patterns ->
     Re.found pattern line = false) ->
  pattern_findings_in patterns line = [].
Proof.
  induction patterns as [|[pattern description] patterns IH]; intros line H;
    simpl; [reflexivity|].
  rewrite (H pattern description) by (left; reflexivity).
  apply IH. intros p d Hin. apply (H p d). right. assumption.
Qed.

(** C3. A line in which the text [iptables] does not occur gets no finding
    from the pattern check: every pattern of the list starts with the
    literal [iptables].  So such a [+] line has only the findings of the
    port check. *)
Theorem no_iptables_no_pattern_findings : forall line,
  contains (lit "iptables") line = false ->
  pattern_findings line = []
  /\ detect_security_risks [line]
     = if startswith (lit "+") line then port_findings line else Some [].
Proof.
  intros line H.
  assert (Hp : pattern_findings line = []).
  { apply pattern_findings_in_none. intros pattern description Hin.
    destruct (risky_patterns_start _ _ Hin) as [r ->].
    apply found_word_seq. assumption. }
  split; [assumption|].
  cbn [detect_security_risks]. rewrite Hp.
  destruct (startswith (lit "+") line); [|reflexivity].
  destruct (port_findings line) as [findings|]; [|reflexivity].
  cbn [app]. now rewrite !app_nil_r.
Qed.

Lemma no_iptables_no_pattern_findings_witness :
  contains (lit "iptables") (lit "+-A INPUT -p tcp --dport 22 -j ACCEPT") = false
  /\ pattern_findings (lit "+-A INPUT -p tcp --dport 22 -j ACCEPT") = []
  /\ detect_security_risks [lit "+-A INPUT -p tcp --dport 22 -j ACCEPT"]
     = port_findings (lit "+-A INPUT -p tcp --dport 22 -j ACCEPT").
Proof.
  split; [vm_compute; reflexivity|].
  apply (no_iptables_no_pattern_findings
           (lit "+-A INPUT -p tcp --dport 22 -j ACCEPT")).
  vm_compute. reflexivity.
Defined.

(** C1 (the code at the failing input).  On a [+] line with the range
    [--dport 20:25] the classifier returns no finding at all: the port
    pattern only knows [-] as the separator of a range, reads the single
    port 20, and the line does not contain [iptables]. *)
Theorem colon_range_no_findings :
  detect_security_risks [lit "+-A INPUT -p tcp --dport 20:25 -j ACCEPT"]
  = Some []
  /\ option_map (fun m => (Re.group m 1, Re.group m 2))
       (Re.search dport_pattern (lit "+-A INPUT -p tcp --dport 20:25 -j ACCEPT"))
     = Some (Some (lit "20"), None).
Proof. split; vm_compute; reflexivity. Qed.

(** With [-] as the separator the same range is expanded: ports 21, 22 and
    23 of the table lie in it, port 80 does not. *)
Example hyphen_range_findings :
  let line := lit "+-A INPUT -p tcp --dport 20-25 -j ACCEPT" in
  detect_security_risks [line]
  = Some
      [ range_port_message line 21
          (lit "FTP - Unencrypted file transfers, vulnerable to interception.");
        range_port_message line 22
          (lit "SSH - Used for remote access, often targeted by attackers.");
        range_port_message line 23
          (lit "Telnet - Unencrypted communication, easily intercepted.") ].
Proof. vm_compute. reflexivity. Qed.

(* ------------------------------------------------------------------ *)
(** ** The format detector *)

Section FormatDetectorFacts.
Variable uni_alnum : char -> bool.

Let matching := matches_signature uni_alnum.

(** A line adds one to the counter if a signature matches it, whatever
    the number of signatures that do. *)
Lemma count_line_once : forall patterns line matches,
  count_line patterns line matches
  = if existsb (fun pattern => Re.found pattern line) patterns
    then S matches else matches.
Proof.
  induction patterns as [|pattern patterns IH]; intros line matches;
    simpl; [reflexivity|].
  destruct (Re.found pattern line); simpl; [reflexivity | apply IH].
Qed.

Lemma scan_lines_result : forall content matches,
  matches < threshold ->
  fst (scan_lines uni_alnum content matches) = true
  <-> threshold <= matches + length (filter matching content).
Proof.
  unfold threshold.
  induction content as [|line rest IH]; intros matches Hm.
  - simpl. split; [discriminate | lia].
  - cbn [scan_lines filter]. unfold threshold. rewrite count_line_once.
    fold (matches_signature uni_alnum line). fold matching.
    destruct (matching line) eqn:Hl.
    + destruct (3 <=? S matches) eqn:Hs.
      * apply Nat.leb_le in Hs. cbn [fst length]. split; [lia | reflexivity].
      * apply Nat.leb_gt in Hs.
        destruct (scan_lines uni_alnum rest (S matches)) as [result read] eqn:Hr.
        cbn [fst length]. specialize (IH (S matches) Hs).
        unfold threshold in IH. rewrite Hr in IH. cbn [fst] in IH.
        rewrite IH. lia.
    + destruct (3 <=? matches) eqn:Hs.
      * apply Nat.leb_le in Hs. lia.
      * destruct (scan_lines uni_alnum rest matches) as [result read] eqn:Hr.
        cbn [fst]. specialize (IH matches Hm).
        unfold threshold in IH. rewrite Hr in IH. cbn [fst] in IH.
        exact IH.
Qed.

(** The loop returns on the line that brings the counter to the
    threshold, whatever follows that line. *)
Lemma scan_lines_stops : forall pre line rest matches,
  matches + length (filter matching pre) = 2 ->
  matching line = true ->
  scan_lines uni_alnum (pre ++ line :: rest) matches = (true, length pre + 1).
Proof.
  induction pre as [|x pre IH]; intros line rest matches Hc Hl.
  - simpl in Hc. cbn [app scan_lines]. rewrite count_line_once.
    fold (matches_signature uni_alnum line). fold matching. rewrite Hl.
    replace matches with 2 by lia. reflexivity.
  - cbn [app scan_lines filter] in *. rewrite count_line_once.
    fold (matches_signature uni_alnum x). fold matching.
    destruct (matching x) eqn:Hx; cbn [length] in Hc.
    + destruct (threshold <=? S matches) eqn:Hs;
        [apply Nat.leb_le in Hs; unfold threshold in Hs; lia|].
      rewrite (IH line rest (S matches)) by (assumption || lia).
      reflexivity.
    + destruct (threshold <=? matches) eqn:Hs;
        [apply Nat.leb_le in Hs; unfold threshold in Hs; lia|].
      rewrite (IH line rest matches) by (assumption || lia).
      reflexivity.
Qed.

(** C6. The format detector answers true exactly when at least three
    lines match a signature, each line counted once; it answers false on
    the empty input; and it returns on the third matching line: it has
    then read that line and the lines before it, and nothing of what
    follows. *)
Theorem is_iptables_file_spec : forall content,
  (is_iptables_file uni_alnum content = true
   <-> 3 <= length (filter (matches_signature uni_alnum) content))
  /\ is_iptables_file uni_alnum [] = false
  /\ (forall pre line rest,
        content = pre ++ line :: rest ->
        length (filter (matches_signature uni_alnum) pre) = 2 ->
        matches_signature uni_alnum line = true ->
        is_iptables_file uni_alnum content = true
        /\ lines_read uni_alnum content = length pre + 1
        /\ forall rest',
             is_iptables_file uni_alnum (pre ++ line :: rest') = true
             /\ lines_read uni_alnum (pre ++ line :: rest') = length pre + 1).
Proof.
  intros content. split; [|split].
  - destruct content as [|line rest].
    + simpl. split; [discriminate | lia].
    + unfold is_iptables_file.
      rewrite scan_lines_result by (unfold threshold; lia).
      unfold threshold, matching. simpl. reflexivity.
  - reflexivity.
  - intros pre line rest -> Hc Hl.
    assert (H : forall rest',
               is_iptables_file uni_alnum (pre ++ line :: rest') = true
               /\ lines_read uni_alnum (pre ++ line :: rest') = length pre + 1).
    { intros rest'. unfold is_iptables_file, lines_read.
      rewrite scan_lines_stops by assumption.
      destruct (pre ++ line :: rest') eqn:E;
        [destruct pre; discriminate | split; reflexivity]. }
    destruct (H rest) as [H1 H2]. auto.
Qed.

End FormatDetectorFacts.

Lemma is_iptables_file_spec_witness :
  let uni := fun _ : char => false in
  let pre := [lit "-A INPUT -j DROP"; lit "notes"; lit "--sport 53"] in
  let line := lit "-p tcp" in
  let rest := [lit "-j ACCEPT"; lit ""] in
  length (filter (matches_signature uni) pre) = 2
  /\ matches_signature uni line = true
  /\ is_iptables_file uni (pre ++ line :: rest) = true
  /\ lines_read uni (pre ++ line :: rest) = 4.
Proof.
  intros uni pre line rest.
  assert (Hc : length (filter (matches_signature uni) pre) = 2)
    by (vm_compute; reflexivity).
  assert (Hl : matches_signature uni line = true) by (vm_compute; reflexivity).
  destruct (is_iptables_file_spec uni (pre ++ line :: rest)) as [_ [_ H]].
  destruct (H pre line rest eq_refl Hc Hl) as [H1 [H2 _]].
  repeat split; assumption.
Defined.

(* ------------------------------------------------------------------ *)
(** ** The order on strings and [sorted] *)

Lemma str_ltb_irrefl : forall a, str_ltb a a = false.
Proof.
  induction a as [|x a IH]; simpl; [reflexivity|].
  rewrite N.ltb_irrefl. assumption.
Qed.

Lemma str_le_antisym : forall a b, str_le a b -> str_le b a -> a = b.
Proof.
  unfold str_le.
  induction a as [|x a IH]; intros [|y b]; simpl; try discriminate;
    [reflexivity|].
  destruct (y <? x)%N eqn:Hyx; [discriminate|].
  destruct (x <? y)%N eqn:Hxy; [discriminate|].
  apply N.ltb_ge in Hyx, Hxy. intros H1 H2.
  f_equal; [lia | apply IH; assumption].
Qed.

Lemma str_ltb_le : forall a b, str_ltb a b = true -> str_le a b.
Proof.
  unfold str_le.
  induction a as [|x a IH]; intros [|y b]; simpl; try discriminate;
    try reflexivity.
  destruct (x <? y)%N eqn:Hxy.
  - intros _. apply N.ltb_lt in Hxy.
    assert (H : (y <? x)%N = false) by (apply N.ltb_ge; lia).
    rewrite H. reflexivity.
  - destruct (y <? x)%N eqn:Hyx; [discriminate|]. apply IH.
Qed.

Lemma str_le_trans : forall a b c, str_le a b -> str_le b c -> str_le a c.
Proof.
  unfold str_le.
  induction a as [|x a IH]; intros [|y b] [|z c]; simpl;
    try discriminate; try reflexivity.
  destruct (y <? x)%N eqn:Hyx; [discriminate|].
  destruct (z <? y)%N eqn:Hzy; [discriminate|].
  apply N.ltb_ge in Hyx, Hzy.
  destruct (x <? y)%N eqn:Hxy.
  - intros _ _. apply N.ltb_lt in Hxy.
    assert (H : (z <? x)%N = false) by (apply N.ltb_ge; lia).
    assert (H' : (x <? z)%N = true) by (apply N.ltb_lt; lia).
    rewrite H, H'. reflexivity.
  - apply N.ltb_ge in Hxy. assert (x = y) by lia. subst y.
    destruct (x <? z)%N eqn:Hxz.
    + intros _ _. apply N.ltb_lt in Hxz.
      assert (H : (z <? x)%N = false) by (apply N.ltb_ge; lia).
      rewrite H. reflexivity.
    + apply N.ltb_ge in Hxz.
      assert (H : (z <? x)%N = false) by (apply N.ltb_ge; lia).
      rewrite H. apply IH.
Qed.

Lemma insert_sorted_perm : forall x l, Permutation (insert_sorted x l) (x :: l).
Proof.
  intros x l. induction l as [|y l IH]; simpl; [reflexivity|].
  destruct (str_ltb y x); [|reflexivity].
  rewrite IH. apply perm_swap.
Qed.

Lemma sorted_perm : forall l, Permutation (sorted l) l.
Proof.
  induction l as [|x l IH]; simpl; [reflexivity|].
  rewrite insert_sorted_perm. apply perm_skip. assumption.
Qed.

Lemma insert_sorted_strongly : forall x l,
  StronglySorted str_le l -> StronglySorted str_le (insert_sorted x l).
Proof.
  intros x l H. induction H as [|y l Hs IH Hy]; simpl.
  - constructor; constructor.
  - destruct (str_ltb y x) eqn:Hyx.
    + constructor; [assumption|].
      eapply Permutation_Forall.
      * symmetry. apply insert_sorted_perm.
      * constructor; [apply str_ltb_le; assumption | assumption].
    + constructor; [constructor; assumption|].
      constructor; [exact Hyx|].
      eapply Forall_impl; [|exact Hy].
      intros z Hz. apply (str_le_trans _ y _); [exact Hyx | exact Hz].
Qed.

Lemma sorted_strongly : forall l, StronglySorted str_le (sorted l).
Proof.
  induction l as [|x l IH]; simpl; [constructor|].
  apply insert_sorted_strongly. assumption.
Qed.

(** Two sorted lists with the same elements are the same list. *)
Lemma strongly_sorted_unique : forall l1 l2,
  StronglySorted str_le l1 -> StronglySorted str_le l2 ->
  Permutation l1 l2 -> l1 = l2.
Proof.
  induction l1 as [|x l1 IH]; intros l2 H1 H2 Hp.
  - apply Permutation_nil in Hp. subst. reflexivity.
  - destruct l2 as [|y l2];
      [symmetry in Hp; apply Permutation_nil in Hp; discriminate|].
    apply StronglySorted_inv in H1, H2.
    destruct H1 as [H1 Hx], H2 as [H2 Hy].
    assert (Hxy : x = y).
    { assert (Hin1 : In x (y :: l2))
        by (apply (Permutation_in _ Hp); left; reflexivity).
      assert (Hin2 : In y (x :: l1))
        by (apply (Permutation_in _ (Permutation_sym Hp)); left; reflexivity).
      destruct Hin1 as [->|Hin1]; [reflexivity|].
      destruct Hin2 as [->|Hin2]; [reflexivity|].
      rewrite Forall_forall in Hx, Hy.
      apply str_le_antisym; auto. }
    subst y. f_equal. apply IH; try assumption.
    apply (Permutation_cons_inv Hp).
Qed.

Lemma sorted_of_permutation : forall l l',
  Permutation l l' -> sorted l = sorted l'.
Proof.
  intros l l' Hp. apply strongly_sorted_unique; try apply sorted_strongly.
  rewrite !sorted_perm. assumption.
Qed.

Lemma sorted_of_sorted : forall l, sorted (sorted l) = sorted l.
Proof.
  intros l. apply sorted_of_permutation. apply sorted_perm.
Qed.

(* ------------------------------------------------------------------ *)
(** ** The normalizer *)

Lemma normalize_loop_filter_map : forall lines,
  normalize_loop lines = List.map normalize_line (filter is_rule_line lines).
Proof.
  induction lines as [|line rest IH]; simpl; [reflexivity|].
  destruct (is_rule_line line); simpl; rewrite IH; reflexivity.
Qed.

Lemma filter_permutation : forall (f : str -> bool) l l',
  Permutation l l' -> Permutation (filter f l) (filter f l').
Proof.
  intros f l l' Hp. induction Hp as [|x l l' Hp IH|x y l|l l' l'' H1 IH1 H2 IH2];
    simpl.
  - constructor.
  - destruct (f x); [apply perm_skip|]; assumption.
  - destruct (f x), (f y); try reflexivity. apply perm_swap.
  - etransitivity; eassumption.
Qed.

(** C9. Normalization does not depend on the order of the input lines: on
    a permutation of the input it returns the same list. *)
Theorem normalize_order_insensitive : forall lines lines',
  Permutation lines lines' ->
  normalize_iptables_config lines = normalize_iptables_config lines'.
Proof.
  intros lines lines' Hp. unfold normalize_iptables_config.
  apply sorted_of_permutation. rewrite !normalize_loop_filter_map.
  apply Permutation_map. apply filter_permutation. assumption.
Qed.

Lemma normalize_order_insensitive_witness :
  let x := [lit "-A INPUT -j DROP"; lit "# c"; lit "-A FORWARD  -j DROP"] in
  let y := [lit "-A FORWARD  -j DROP"; lit "-A INPUT -j DROP"; lit "# c"] in
  Permutation x y
  /\ normalize_iptables_config x = normalize_iptables_config y.
Proof.
  intros x y.
  assert (Hp : Permutation x y).
  { unfold x, y. apply (perm_trans (l' := [lit "-A INPUT -j DROP"; lit "-A FORWARD  -j DROP"; lit "# c"])).
    - apply perm_skip. apply perm_swap.
    - apply perm_swap. }
  split; [exact Hp | exact (normalize_order_insensitive _ _ Hp)].
Defined.

(* ------------------------------------------------------------------ *)
(** ** The scenario: one rule added *)

(** C2 (as stated, refuted).  In the scenario no finding is an RDP message
    of medium risk: the only message of the list that is one comes from a
    pattern, and the added line does not contain [iptables]. *)
Lemma scenario_no_medium_risk_finding :
  exists diff findings,
    scenario_diff = Some diff
    /\ detect_security_risks diff = Some findings
    /\ existsb (fun finding => mentions "RDP" finding
                               && mentions "Medium risk" finding)
               findings = false.
Proof.
  do 2 eexists. split; [vm_compute; reflexivity|].
  split; [vm_compute; reflexivity|].
  vm_compute. reflexivity.
Qed.

(** C2 (amended).  In the scenario the diff is a hunk header, one [+] line
    and one context line; the findings are the one message of the port
    check on port 3389, which cites RDP and no severity; there is one
    addition and no removal, and the chaos score is 3.0, above 0. *)
Theorem scenario_one_rule_added :
  let added := lit "+-A INPUT -p tcp --dport 3389 -j ACCEPT" in
  exists diff,
    scenario_diff = Some diff
    /\ diff = [lit "@@ -1 +1,2 @@"; added;
               lit " -A INPUT -p tcp --dport 80 -j ACCEPT"]
    /\ count (startswith (lit "+")) diff = 1%Z
    /\ detect_security_risks diff
       = Some [single_port_message added
                 (lit "RDP - Remote desktop access, vulnerable to brute force attacks.")]
    /\ additions (calculate_impact_metrics diff) = 1%Z
    /\ removals (calculate_impact_metrics diff) = 0%Z
    /\ chaos_score (calculate_impact_metrics diff) = Float.of_int 3
    /\ Float.ltb (Float.of_int 0) (chaos_score (calculate_impact_metrics diff))
       = true.
Proof.
  intros added. eexists.
  split; [vm_compute; reflexivity|].
  split; [reflexivity|].
  repeat (split; [vm_compute; reflexivity|]).
  vm_compute. reflexivity.
Qed.

(* ------------------------------------------------------------------ *)
(** ** The normalizer: the shape of a normalised line *)

Lemma lstrip_length : forall s, length (lstrip s) <= length s.
Proof.
  induction s as [|c s IH]; simpl; [lia|].
  destruct (isspace c); simpl; lia.
Qed.

(** A greedy [\s*] whose continuation never fails takes the whole run of
    whitespace. *)
Lemma greedy_space_total : forall R (k : str -> option R) s,
  (forall s', k s' <> None) -> Re.greedy isspace s k = k (lstrip s).
Proof.
  intros R k s Hk. induction s as [|c s IH]; simpl; [reflexivity|].
  destruct (isspace c); [|reflexivity].
  rewrite IH. destruct (k (lstrip s)) eqn:E; [reflexivity|].
  exfalso. exact (Hk _ E).
Qed.

Lemma squeeze_true_lstrip : forall s, squeeze true s = squeeze false (lstrip s).
Proof.
  induction s as [|c s IH]; simpl; [reflexivity|].
  destruct (isspace c) eqn:E; [exact IH|].
  simpl. rewrite E. reflexivity.
Qed.

(** [re.sub(r'\s+', ' ', s)] is [squeeze false s]. *)
Lemma sub_spaces_loop : forall fuel s,
  length s <= fuel ->
  Re.sub_loop fuel spaces_pattern one_space_repl s = squeeze false s.
Proof.
  induction fuel as [|fuel IH]; intros s Hs.
  - destruct s; [reflexivity | simpl in Hs; lia].
  - destruct s as [|c t]; [reflexivity|].
    cbn [Re.sub_loop squeeze]. unfold Re.match_at, spaces_pattern, Re.space.
    cbn [Re.rmatch].
    destruct (isspace c) eqn:Hc.
    + rewrite greedy_space_total by discriminate.
      cbn [Re.m_rest].
      assert (Hl := lstrip_length t). simpl in Hs.
      replace (length (lstrip t) <? length (c :: t)) with true
        by (symmetry; apply Nat.ltb_lt; simpl; lia).
      rewrite IH by lia. rewrite squeeze_true_lstrip. reflexivity.
    + rewrite IH by (simpl in Hs; lia). reflexivity.
Qed.

Lemma sub_spaces : forall s,
  Re.sub spaces_pattern one_space_repl s = squeeze false s.
Proof. intros s. apply sub_spaces_loop. lia. Qed.

(** [re.sub(r'--([A-Z])', r'-\1', s)] is [fix_dashes s]. *)
Lemma sub_dashes_loop : forall fuel s,
  length s <= fuel ->
  Re.sub_loop fuel double_dash_pattern single_dash_repl s = fix_dashes s.
Proof.
  induction fuel as [|fuel IH]; intros s Hs.
  - destruct s; [reflexivity | simpl in Hs; lia].
  - destruct s as [|c t]; [reflexivity|].
    cbn [Re.sub_loop fix_dashes]. unfold Re.match_at.
    change double_dash_pattern
      with (Re.Seq (Re.word [45%N; 45%N])
                   (Re.Seq (Re.Group 1 (Re.Cls Re.upper)) Re.Eps)).
    cbn [Re.rmatch]. rewrite rmatch_word.
    fold double_dash_pattern.
    destruct t as [|d [|u rest]].
    + cbn [startswith]. rewrite andb_false_r.
      rewrite IH by (simpl in *; lia). reflexivity.
    + cbn [startswith skipn length]. rewrite (N.eqb_sym 45 c), (N.eqb_sym 45 d).
      destruct ((c =? 45)%N && ((d =? 45)%N && true));
        rewrite IH by (simpl in *; lia); reflexivity.
    + cbn [startswith skipn length].
      rewrite (N.eqb_sym 45 c), (N.eqb_sym 45 d), andb_true_r.
      destruct (c =? 45)%N eqn:Hc; cbn [andb];
        [|rewrite IH by (simpl in *; lia); reflexivity].
      destruct (d =? 45)%N eqn:Hd; cbn [andb];
        [|rewrite IH by (simpl in *; lia); reflexivity].
      destruct (Re.upper u) eqn:Hu;
        [|rewrite IH by (simpl in *; lia); reflexivity].
      cbn [Re.m_rest length].
      replace (length rest <? S (S (S (length rest)))) with true
        by (symmetry; apply Nat.ltb_lt; lia).
      rewrite IH by (simpl in *; lia).
      unfold single_dash_repl, Re.group. cbn [Re.m_groups Re.group_of Nat.eqb].
      replace (S (length rest) - length rest) with 1 by lia.
      apply N.eqb_eq in Hc. subst c. reflexivity.
Qed.

Lemma sub_dashes : forall s,
  Re.sub double_dash_pattern single_dash_repl s = fix_dashes s.
Proof. intros s. apply sub_dashes_loop. lia. Qed.

Lemma normalize_line_eq : forall line,
  normalize_line line = squeeze false (fix_dashes (strip line)).
Proof.
  intros line. unfold normalize_line. rewrite sub_dashes, sub_spaces.
  reflexivity.
Qed.

(** Both rewritings keep the first character of a line that does not
    start with whitespace, and the last one. *)
Lemma fix_dashes_head : forall c t, exists r, fix_dashes (c :: t) = c :: r.
Proof.
  intros c t. cbn [fix_dashes]. destruct t as [|d [|u rest]];
    try (eexists; reflexivity).
  destruct ((c =? 45)%N && (d =? 45)%N && Re.upper u); eexists; reflexivity.
Qed.

Lemma squeeze_head : forall c t,
  exists x r, squeeze false (c :: t) = x :: r
              /\ (x = c \/ (isspace c = true /\ x = 32%N)).
Proof.
  intros c t. cbn [squeeze]. destruct (isspace c) eqn:E.
  - exists 32%N, (squeeze true t). auto.
  - exists c, (squeeze false t). auto.
Qed.

Lemma is_rule_line_inv : forall line,
  is_rule_line line = true ->
  exists c t, strip line = c :: t /\ (c =? 35)%N = false.
Proof.
  unfold is_rule_line. intros line H.
  destruct (strip line) as [|c t] eqn:E; [discriminate|].
  exists c, t. split; [reflexivity|].
  change (lit "#") with [35%N] in H. rewrite startswith_one in H.
  rewrite N.eqb_sym. now apply negb_true_iff in H.
Qed.

Lemma normalize_line_head : forall line,
  is_rule_line line = true ->
  exists x r, normalize_line line = x :: r /\ (x =? 35)%N = false.
Proof.
  intros line H. destruct (is_rule_line_inv _ H) as (c & t & E & Hc).
  rewrite normalize_line_eq, E.
  destruct (fix_dashes_head c t) as [r ->].
  destruct (squeeze_head c r) as (x & r' & -> & [->|[_ ->]]).
  - exists c, r'. split; [reflexivity | assumption].
  - exists 32%N, r'. split; reflexivity.
Qed.

Lemma in_normalize : forall lines line,
  In line (normalize_iptables_config lines) ->
  exists l, In l lines /\ is_rule_line l = true /\ line = normalize_line l.
Proof.
  intros lines line H. unfold normalize_iptables_config in H.
  apply (Permutation.Permutation_in _ (sorted_perm _)) in H.
  rewrite normalize_loop_filter_map in H. apply in_map_iff in H.
  destruct H as (l & <- & Hl). apply filter_In in Hl. destruct Hl.
  exists l. auto.
Qed.

(** C5 (amended).  Every line of a normalised rule set is non-empty and
    does not start with the comment marker [#]. *)
Theorem normalized_lines_invariant : forall lines line,
  In line (normalize_iptables_config lines) ->
  line <> [] /\ startswith (lit "#") line = false.
Proof.
  intros lines line H. destruct (in_normalize _ _ H) as (l & _ & Hl & ->).
  destruct (normalize_line_head _ Hl) as (x & r & -> & Hx).
  split; [discriminate|].
  change (lit "#") with [35%N]. rewrite startswith_one, N.eqb_sym. exact Hx.
Qed.

Lemma lstrip_head : forall s c t, lstrip s = c :: t -> isspace c = false.
Proof.
  induction s as [|x s IH]; intros c t H; simpl in H; [discriminate|].
  destruct (isspace x) eqn:E; [eauto|]. injection H as <- _. exact E.
Qed.

Lemma lstrip_suffix : forall s, exists w, s = w ++ lstrip s.
Proof.
  induction s as [|x s [w IH]]; simpl.
  - exists []. reflexivity.
  - destruct (isspace x).
    + exists (x :: w). simpl. f_equal. exact IH.
    + exists []. reflexivity.
Qed.

Lemma lstrip_fixed : forall c t, isspace c = false -> lstrip (c :: t) = c :: t.
Proof. intros c t H. simpl. rewrite H. reflexivity. Qed.

Lemma rev_last : forall (s : str) d, s <> [] -> exists r, rev s = last s d :: r.
Proof.
  intros s d H. destruct (exists_last H) as (s' & z & ->).
  rewrite rev_app_distr, last_last. simpl. eexists. reflexivity.
Qed.

(** [strip] returns a trimmed string and leaves a trimmed string alone. *)
Lemma strip_trimmed_id : forall s, trimmed s -> strip s = s.
Proof.
  intros [|c t]; [reflexivity|]. intros [Hh Hl].
  unfold strip, rstrip. rewrite lstrip_fixed by assumption.
  destruct (rev_last (c :: t) c) as [r Hr]; [discriminate|].
  rewrite Hr, lstrip_fixed by assumption. rewrite <- Hr. apply rev_involutive.
Qed.

Lemma strip_is_trimmed : forall l, trimmed (strip l).
Proof.
  intros l. unfold strip, rstrip.
  destruct (lstrip (rev (lstrip l))) as [|z Y] eqn:EY; [exact I|].
  assert (Hz := lstrip_head _ _ _ EY).
  destruct (lstrip_suffix (rev (lstrip l))) as [w Hw]. rewrite EY in Hw.
  apply (f_equal (@rev char)) in Hw. rewrite rev_involutive, rev_app_distr in Hw.
  destruct (rev (z :: Y)) as [|c r] eqn:Er.
  - apply (f_equal (@length char)) in Er. rewrite length_rev in Er. discriminate.
  - unfold trimmed. split.
    + simpl in Hw. exact (lstrip_head _ _ _ Hw).
    + rewrite <- Er. simpl. rewrite last_last. exact Hz.
Qed.

Lemma last_cons_cons : forall (a b : char) l d, last (a :: b :: l) d = last (b :: l) d.
Proof. reflexivity. Qed.

Lemma fix_dashes_cons3 : forall c d u rest,
  fix_dashes (c :: d :: u :: rest)
  = if (c =? 45)%N && (d =? 45)%N && Re.upper u
    then c :: u :: fix_dashes rest
    else c :: fix_dashes (d :: u :: rest).
Proof. reflexivity. Qed.

Lemma fix_dashes_last : forall n s d,
  length s <= n -> last (fix_dashes s) d = last s d.
Proof.
  induction n as [|n IH]; intros s d Hn.
  - destruct s; [reflexivity | simpl in Hn; lia].
  - destruct s as [|c [|x [|u rest]]]; try reflexivity.
    rewrite fix_dashes_cons3.
    destruct ((c =? 45)%N && (x =? 45)%N && Re.upper u).
    + destruct rest as [|r rest']; [reflexivity|].
      destruct (fix_dashes_head r rest') as [q Hq].
      rewrite last_cons_cons. rewrite Hq, last_cons_cons, <- Hq.
      rewrite IH by (simpl in *; lia). reflexivity.
    + destruct (fix_dashes_head x (u :: rest)) as [q Hq].
      rewrite Hq, last_cons_cons, <- Hq.
      rewrite IH by (simpl in *; lia). reflexivity.
Qed.

Lemma squeeze_cons : forall b c t,
  squeeze b (c :: t)
  = if isspace c
    then if b then squeeze true t else 32%N :: squeeze true t
    else c :: squeeze false t.
Proof. reflexivity. Qed.

Lemma squeeze_last : forall s b d,
  s <> [] -> isspace (last s d) = false ->
  squeeze b s <> [] /\ last (squeeze b s) d = last s d.
Proof.
  induction s as [|c t IH]; intros b d Hne Hl; [contradiction|].
  destruct t as [|c' t'].
  - simpl in Hl. simpl. rewrite Hl. split; [discriminate | reflexivity].
  - rewrite last_cons_cons in Hl |- *.
    assert (Hne' : c' :: t' <> []) by discriminate.
    rewrite squeeze_cons.
    destruct (isspace c); [destruct b|].
    + apply IH; assumption.
    + destruct (IH true d Hne' Hl) as [H1 H2].
      destruct (squeeze true (c' :: t')) eqn:E; [contradiction|].
      split; [discriminate|]. rewrite last_cons_cons. exact H2.
    + destruct (IH false d Hne' Hl) as [H1 H2].
      destruct (squeeze false (c' :: t')) eqn:E; [contradiction|].
      split; [discriminate|]. rewrite last_cons_cons. exact H2.
Qed.

Lemma fix_dashes_trimmed : forall s, trimmed s -> trimmed (fix_dashes s).
Proof.
  intros [|c t]; [intros; exact I|]. intros [Hh Hl].
  destruct (fix_dashes_head c t) as [r Hr]. rewrite Hr. unfold trimmed.
  split; [assumption|]. rewrite <- Hr.
  rewrite (fix_dashes_last (length (c :: t))) by lia. assumption.
Qed.

Lemma squeeze_trimmed : forall s, trimmed s -> trimmed (squeeze false s).
Proof.
  intros [|c t]; [intros; exact I|]. intros [Hh Hl].
  destruct (squeeze_last (c :: t) false c) as [H1 H2];
    [discriminate | assumption |].
  rewrite squeeze_cons in *. rewrite Hh in *. unfold trimmed.
  split; [assumption|]. rewrite H2. assumption.
Qed.

(** Occurrences of a run of classes: in a longer string, and through the
    two rewritings. *)
Lemma occurs_cons : forall ps c s, occurs ps s = true -> occurs ps (c :: s) = true.
Proof. intros ps c s H. cbn [occurs]. rewrite H. apply orb_true_r. Qed.

Lemma occurs_unfold : forall ps c s,
  occurs ps (c :: s) = starts_with_classes ps (c :: s) || occurs ps s.
Proof. reflexivity. Qed.

Lemma occurs_app_left : forall ps w s,
  occurs ps s = true -> occurs ps (w ++ s) = true.
Proof.
  intros ps w s H. induction w as [|c w IH]; [exact H|].
  simpl app. apply occurs_cons. exact IH.
Qed.

Lemma starts_app_right : forall ps s w,
  starts_with_classes ps s = true -> starts_with_classes ps (s ++ w) = true.
Proof.
  induction ps as [|p ps IH]; intros s w H; [reflexivity|].
  destruct s as [|c s]; [discriminate|]. simpl in *.
  apply andb_true_iff in H. destruct H as [H1 H2].
  rewrite H1. simpl. apply IH. exact H2.
Qed.

Lemma occurs_app_right : forall ps s w,
  occurs ps s = true -> occurs ps (s ++ w) = true.
Proof.
  intros ps s w. induction s as [|c s IH]; intros H.
  - simpl in H. rewrite orb_false_r in H.
    destruct ps; [|discriminate]. destruct w; reflexivity.
  - rewrite occurs_unfold in H. simpl app. rewrite occurs_unfold.
    apply orb_true_iff in H. destruct H as [H|H].
    + apply (starts_app_right _ (c :: s) w) in H. simpl app in H.
      rewrite H. reflexivity.
    + rewrite (IH H). apply orb_true_r.
Qed.

Lemma strip_substring : forall l, exists w w', l = w ++ strip l ++ w'.
Proof.
  intros l. destruct (lstrip_suffix l) as [w Hw].
  destruct (lstrip_suffix (rev (lstrip l))) as [v Hv].
  exists w, (rev v). unfold strip, rstrip.
  rewrite <- rev_app_distr, <- Hv, rev_involutive. exact Hw.
Qed.

Lemma occurs_strip : forall ps l,
  occurs ps (strip l) = true -> occurs ps l = true.
Proof.
  intros ps l H. destruct (strip_substring l) as (w & w' & E).
  rewrite E. apply occurs_app_left, occurs_app_right. exact H.
Qed.

Lemma fix_dashes_id : forall s,
  has_double_dash_upper s = false -> fix_dashes s = s.
Proof.
  unfold has_double_dash_upper.
  induction s as [|c t IH]; intros H; [reflexivity|].
  rewrite occurs_unfold in H. apply orb_false_iff in H. destruct H as [H1 H2].
  destruct t as [|d [|u rest]].
  - reflexivity.
  - reflexivity.
  - rewrite fix_dashes_cons3.
    cbn [starts_with_classes] in H1. unfold is_dash in H1.
    rewrite andb_true_r in H1. rewrite <- andb_assoc, H1.
    f_equal. apply IH. exact H2.
Qed.

Lemma starts_squeeze : forall ps t,
  Forall (fun p : char -> bool => p 32%N = false) ps ->
  starts_with_classes ps (squeeze false t) = true ->
  starts_with_classes ps t = true.
Proof.
  induction ps as [|p ps IH]; intros t Hps H; [reflexivity|].
  inversion Hps as [|? ? Hp Hps']; subst.
  destruct t as [|x t]; [discriminate|].
  rewrite squeeze_cons in H. cbn [starts_with_classes] in *.
  destruct (isspace x).
  - rewrite Hp in H. discriminate.
  - apply andb_true_iff in H. destruct H as [H1 H2].
    rewrite H1. simpl. apply IH; assumption.
Qed.

Lemma occurs_squeeze : forall ps,
  Forall (fun p : char -> bool => p 32%N = false) ps ->
  forall u b, occurs ps (squeeze b u) = true -> occurs ps u = true.
Proof.
  intros ps Hps. induction u as [|c t IH]; intros b H; [exact H|].
  rewrite squeeze_cons in H.
  destruct (isspace c) eqn:Ec; [destruct b|].
  - apply occurs_cons. exact (IH _ H).
  - rewrite occurs_unfold in H. apply orb_true_iff in H. destruct H as [H|H].
    + destruct ps as [|p ps]; [destruct t; reflexivity|].
      inversion Hps as [|? ? Hp _]; subst.
      cbn [starts_with_classes] in H. rewrite Hp in H. discriminate.
    + apply occurs_cons. exact (IH _ H).
  - rewrite occurs_unfold in H. rewrite occurs_unfold.
    apply orb_true_iff in H. destruct H as [H|H].
    + destruct ps as [|p ps]; [reflexivity|].
      inversion Hps as [|? ? Hp Hps']; subst.
      cbn [starts_with_classes] in *.
      apply andb_true_iff in H. destruct H as [H1 H2].
      rewrite H1, (starts_squeeze ps t Hps' H2). reflexivity.
    + rewrite (IH _ H). apply orb_true_r.
Qed.

Lemma squeeze_keeps_no_double_dash : forall u,
  has_double_dash_upper u = false ->
  has_double_dash_upper (squeeze false u) = false.
Proof.
  intros u H. destruct (has_double_dash_upper (squeeze false u)) eqn:E;
    [|reflexivity].
  unfold has_double_dash_upper in *.
  apply occurs_squeeze in E; [congruence|].
  repeat constructor.
Qed.

Lemma upper_not_dash : forall u, Re.upper u = true -> is_dash u = false.
Proof.
  unfold Re.upper, in_range, is_dash. intros u H.
  apply andb_true_iff in H. destruct H as [H _].
  apply N.leb_le in H. apply N.eqb_neq. lia.
Qed.

(** After the rewriting a [--X] is left only where the input had [---X]. *)
Lemma fix_dashes_double_dash : forall n s,
  length s <= n ->
  has_double_dash_upper (fix_dashes s) = true ->
  has_triple_dash_upper s = true.
Proof.
  unfold has_double_dash_upper, has_triple_dash_upper.
  induction n as [|n IH]; intros s Hn H.
  - destruct s; [discriminate | simpl in Hn; lia].
  - destruct s as [|c [|d [|u rest]]].
    + discriminate.
    + simpl in H. rewrite !andb_false_r in H. discriminate.
    + simpl in H. rewrite !andb_false_r in H. discriminate.
    + rewrite fix_dashes_cons3 in H.
      destruct ((c =? 45)%N && (d =? 45)%N && Re.upper u) eqn:Hcond.
      * apply andb_true_iff in Hcond. destruct Hcond as [_ Hu].
        apply upper_not_dash in Hu.
        rewrite !occurs_unfold in H. cbn [starts_with_classes] in H.
        rewrite Hu, andb_false_r in H. cbn [andb orb] in H.
        do 3 apply occurs_cons. apply IH; [simpl in *; lia | exact H].
      * rewrite occurs_unfold in H. apply orb_true_iff in H.
        destruct H as [H|H];
          [|apply occurs_cons; apply IH; [simpl in *; lia | exact H]].
        cbn [starts_with_classes] in H.
        apply andb_true_iff in H. destruct H as [Hc H].
        destruct rest as [|r0 rest0].
        -- exfalso. cbn [fix_dashes starts_with_classes] in H.
           rewrite andb_true_r in H.
           apply andb_true_iff in H. destruct H as [Hd Hu].
           unfold is_dash in *. rewrite Hc, Hd, Hu in Hcond. discriminate.
        -- rewrite fix_dashes_cons3 in H.
           destruct ((d =? 45)%N && (u =? 45)%N && Re.upper r0) eqn:Hc2.
           ++ apply andb_true_iff in Hc2. destruct Hc2 as [Hc2 Hr].
              apply andb_true_iff in Hc2. destruct Hc2 as [Hd Hu].
              rewrite occurs_unfold. cbn [starts_with_classes].
              unfold is_dash in *. rewrite Hc, Hd, Hu, Hr. reflexivity.
           ++ exfalso. destruct (fix_dashes_head u (r0 :: rest0)) as [q Hq].
              rewrite Hq in H. cbn [starts_with_classes] in H.
              rewrite andb_true_r in H.
              apply andb_true_iff in H. destruct H as [Hd Hu].
              unfold is_dash in *. rewrite Hc, Hd, Hu in Hcond. discriminate.
Qed.

Lemma squeeze_idem : forall u b, squeeze b (squeeze b u) = squeeze b u.
Proof.
  induction u as [|c t IH]; intros b; [reflexivity|].
  rewrite squeeze_cons. destruct (isspace c) eqn:Ec; [destruct b|].
  - apply IH.
  - rewrite squeeze_cons. change (isspace 32%N) with true. cbn iota.
    rewrite IH. reflexivity.
  - rewrite squeeze_cons, Ec, IH. reflexivity.
Qed.

(** A normalised line is kept by a second pass and is its own normal form,
    as long as the first pass left no [--X] in it. *)
Lemma normalize_line_fixed : forall line,
  is_rule_line line = true ->
  has_triple_dash_upper line = false ->
  is_rule_line (normalize_line line) = true
  /\ normalize_line (normalize_line line) = normalize_line line.
Proof.
  intros line Hr Ht.
  assert (Hs : strip (normalize_line line) = normalize_line line).
  { apply strip_trimmed_id. rewrite normalize_line_eq.
    apply squeeze_trimmed, fix_dashes_trimmed, strip_is_trimmed. }
  split.
  - unfold is_rule_line. rewrite Hs.
    destruct (normalize_line_head _ Hr) as (x & r & -> & Hx).
    change (lit "#") with [35%N]. rewrite startswith_one, N.eqb_sym, Hx.
    reflexivity.
  - rewrite (normalize_line_eq (normalize_line line)), Hs.
    rewrite fix_dashes_id.
    + rewrite normalize_line_eq. apply squeeze_idem.
    + rewrite normalize_line_eq. apply squeeze_keeps_no_double_dash.
      destruct (has_double_dash_upper (fix_dashes (strip line))) eqn:E;
        [|reflexivity].
      apply (fix_dashes_double_dash (length (strip line))) in E; [|lia].
      apply occurs_strip in E. unfold has_triple_dash_upper in Ht. congruence.
Qed.

Lemma map_filter_fixed : forall l,
  Forall (fun v => is_rule_line v = true /\ normalize_line v = v) l ->
  List.map normalize_line (filter is_rule_line l) = l.
Proof.
  intros l H. induction H as [|v l [H1 H2] _ IH]; [reflexivity|].
  simpl. rewrite H1. simpl. rewrite H2, IH. reflexivity.
Qed.

(** C4 (amended).  Normalising twice is the same as normalising once for
    every input in which no line contains three dashes in a row followed by
    an upper-case letter. *)
Theorem normalize_idempotent_without_dash_runs : forall lines,
  (forall line, In line lines -> has_triple_dash_upper line = false) ->
  normalize_iptables_config (normalize_iptables_config lines)
  = normalize_iptables_config lines.
Proof.
  intros lines H. unfold normalize_iptables_config at 1.
  rewrite normalize_loop_filter_map, map_filter_fixed.
  - apply sorted_of_sorted.
  - apply Forall_forall. intros v Hv.
    destruct (in_normalize _ _ Hv) as (l & Hl & Hr & ->).
    apply normalize_line_fixed; auto.
Qed.

Lemma normalize_idempotent_without_dash_runs_witness :
  let lines := [lit "  --A INPUT   -j DROP"; lit "# c"; lit "-A FORWARD -j DROP"] in
  normalize_iptables_config (normalize_iptables_config lines)
  = normalize_iptables_config lines.
Proof.
  intros lines. apply (normalize_idempotent_without_dash_runs lines).
  intros line [<-|[<-|[<-|[]]]]; vm_compute; reflexivity.
Defined.

(** C4 (as stated, refuted).  A line that has three dashes before an
    upper-case letter loses one dash in each pass: the second pass changes
    the result of the first. *)
Lemma normalize_not_idempotent :
  let x := [lit "---A INPUT -j DROP"] in
  normalize_iptables_config x = [lit "--A INPUT -j DROP"]
  /\ normalize_iptables_config (normalize_iptables_config x)
     = [lit "-A INPUT -j DROP"]
  /\ normalize_iptables_config (normalize_iptables_config x)
     <> normalize_iptables_config x.
Proof.
  intros x. split; [vm_compute; reflexivity|].
  split; [vm_compute; reflexivity|].
  vm_compute. discriminate.
Qed.

Lemma normalized_lines_invariant_witness :
  let lines := [lit "# header"; lit "  -A INPUT -j DROP  "] in
  In (lit "-A INPUT -j DROP") (normalize_iptables_config lines)
  /\ lit "-A INPUT -j DROP" <> []
  /\ startswith (lit "#") (lit "-A INPUT -j DROP") = false.
Proof.
  intros lines.
  assert (H : In (lit "-A INPUT -j DROP") (normalize_iptables_config lines))
    by (vm_compute; left; reflexivity).
  split; [exact H|].
  exact (normalized_lines_invariant lines (lit "-A INPUT -j DROP") H).
Defined.

(** C5 (as stated, refuted).  A comment marker inside a rule line stays:
    only lines that start with [#] are dropped. *)
Lemma normalize_keeps_inline_marker :
  normalize_iptables_config [lit "-A INPUT  -j DROP # temporary"]
  = [lit "-A INPUT -j DROP # temporary"]
  /\ contains (lit "#") (lit "-A INPUT -j DROP # temporary") = true.
Proof. split; vm_compute; reflexivity. Qed.

(* ------------------------------------------------------------------ *)
(** ** The impact scorer: the chaos score *)

Section FloatFacts.
Local Open Scope Z_scope.

(** Rounding, and the operations of the chaos score, give no negative
    result from operands that are not negative. *)
Lemma round_aux_nonneg : forall prec emax mx ex lx,
  nonneg (binary_round_aux prec emax false mx ex lx) = true.
Proof.
  intros. unfold binary_round_aux.
  destruct (shr_fexp prec emax mx ex lx) as [mrs e'].
  destruct (shr_fexp prec emax _ e' loc_Exact) as [mrs' e''].
  destruct (shr_m mrs'); try reflexivity.
  destruct (e'' <=? emax - prec); reflexivity.
Qed.

Lemma of_int_nonneg : forall n, 0 <= n -> nonneg (Float.of_int n) = true.
Proof.
  intros [|p|p] H; [reflexivity | | lia].
  unfold Float.of_int, binary_normalize, binary_round.
  destruct (shl_align _ _ _). apply round_aux_nonneg.
Qed.

Lemma of_fraction_nonneg : forall n d, nonneg (Float.of_fraction false n d) = true.
Proof.
  intros. unfold Float.of_fraction.
  destruct (SFdiv_core_binary _ _ _ _ _ _) as [[mz ez] lz].
  apply round_aux_nonneg.
Qed.

Lemma mul_nonneg : forall x y,
  nonneg x = true -> nonneg y = true -> nonneg (Float.mul x y) = true.
Proof.
  intros [[]| []| |[] mx ex] [[]| []| |[] my ey] Hx Hy;
    try discriminate; try reflexivity.
  apply round_aux_nonneg.
Qed.

Lemma div_nonneg : forall x y,
  nonneg x = true -> nonneg y = true -> nonneg (Float.div x y) = true.
Proof.
  intros [[]| []| |[] mx ex] [[]| []| |[] my ey] Hx Hy;
    try discriminate; try reflexivity.
  unfold Float.div, SFdiv.
  destruct (SFdiv_core_binary _ _ _ _ _ _) as [[mz ez] lz].
  apply round_aux_nonneg.
Qed.

Lemma add_nonneg : forall x y,
  nonneg x = true -> nonneg y = true -> nonneg (Float.add x y) = true.
Proof.
  intros [[]| []| |[] mx ex] [[]| []| |[] my ey] Hx Hy;
    try discriminate; try reflexivity.
  unfold Float.add, SFadd, cond_Zopp. cbn [Z.add].
  unfold binary_normalize, binary_round.
  destruct (shl_align _ _ _). apply round_aux_nonneg.
Qed.

(** The mantissa of a finite result has at most [prec] bits: the second
    shift of [binary_round_aux] leaves [Zdigits2 m] or fewer, as [fexp]
    asks. *)
Lemma digits2_pos_bound : forall m, Zpos m < 2 ^ Zpos (digits2_pos m).
Proof.
  induction m as [m IH|m IH|]; cbn [digits2_pos].
  - rewrite Pos2Z.inj_succ, Z.pow_succ_r by lia. rewrite Pos2Z.inj_xI. lia.
  - rewrite Pos2Z.inj_succ, Z.pow_succ_r by lia. rewrite Pos2Z.inj_xO. lia.
  - reflexivity.
Qed.

Lemma Zdigits2_bound : forall m, 0 <= m -> m < 2 ^ Zdigits2 m.
Proof.
  intros [|p|p] H; [reflexivity | apply digits2_pos_bound | lia].
Qed.

Lemma Zdigits2_nonneg : forall m, 0 <= Zdigits2 m.
Proof. intros [|p|p]; simpl; lia. Qed.

Lemma shr_1_half : forall r, 0 <= shr_m r -> shr_m (shr_1 r) = shr_m r / 2.
Proof.
  intros [m r s] H. cbn [shr_m] in H. unfold shr_1.
  destruct m as [|[p|p|]|p]; cbn [shr_m]; try reflexivity; try lia.
  - rewrite Pos2Z.inj_xI. apply (Z.div_unique _ _ _ 1); lia.
  - rewrite Pos2Z.inj_xO. apply (Z.div_unique _ _ _ 0); lia.
Qed.

Lemma pow2_xO : forall p, 2 ^ Z.pos p~0 = 2 ^ Z.pos p * 2 ^ Z.pos p.
Proof.
  intros p. replace (Z.pos p~0) with (Z.pos p + Z.pos p) by lia.
  apply Z.pow_add_r; lia.
Qed.

Lemma pow2_xI : forall p, 2 ^ Z.pos p~1 = 2 * (2 ^ Z.pos p * 2 ^ Z.pos p).
Proof.
  intros p. replace (Z.pos p~1) with (1 + (Z.pos p + Z.pos p)) by lia.
  rewrite Z.pow_add_r, Z.pow_add_r, Z.pow_1_r by lia. reflexivity.
Qed.

Lemma shr_iter : forall p r,
  0 <= shr_m r -> shr_m (iter_pos shr_1 p r) = shr_m r / 2 ^ Zpos p.
Proof.
  induction p as [p IH|p IH|]; intros r H; cbn [iter_pos];
    try assert (Hpow : 0 < 2 ^ Z.pos p) by (apply Z.pow_pos_nonneg; lia).
  - assert (H1 : 0 <= shr_m (shr_1 r))
      by (rewrite shr_1_half by assumption; apply Z.div_pos; lia).
    assert (H2 : 0 <= shr_m (iter_pos shr_1 p (shr_1 r)))
      by (rewrite IH by assumption; apply Z.div_pos; lia).
    rewrite IH, IH, shr_1_half by assumption.
    rewrite pow2_xI, !Z.div_div by lia. reflexivity.
  - assert (H2 : 0 <= shr_m (iter_pos shr_1 p r))
      by (rewrite IH by assumption; apply Z.div_pos; lia).
    rewrite IH, IH by assumption.
    rewrite pow2_xO, Z.div_div by lia. reflexivity.
  - rewrite shr_1_half by assumption. reflexivity.
Qed.

Lemma shr_record_of_loc_m : forall m l, shr_m (shr_record_of_loc m l) = m.
Proof. intros m [|[]]; reflexivity. Qed.

Lemma shr_nonneg : forall r e n, 0 <= shr_m r -> 0 <= shr_m (fst (shr r e n)).
Proof.
  intros r e [|p|p] H; cbn [shr fst]; try assumption.
  rewrite shr_iter by assumption. apply Z.div_pos; lia.
Qed.

Lemma shr_fexp_exact_bound : forall prec emax m e,
  0 < prec -> 0 <= m ->
  0 <= shr_m (fst (shr_fexp prec emax m e loc_Exact)) < 2 ^ prec.
Proof.
  intros prec emax m e Hp Hm. unfold shr_fexp.
  assert (Hd := Zdigits2_bound m Hm). assert (Hd0 := Zdigits2_nonneg m).
  set (d := Zdigits2 m) in *.
  assert (Hn : d - prec <= fexp prec emax (d + e) - e)
    by (unfold fexp; lia).
  destruct (fexp prec emax (d + e) - e) as [|p|p] eqn:En; cbn [shr fst shr_record_of_loc shr_m].
  - split; [assumption|]. eapply Z.lt_le_trans; [exact Hd|].
    apply Z.pow_le_mono_r; lia.
  - rewrite shr_iter by assumption. cbn [shr_m].
    split; [apply Z.div_pos; lia|].
    apply Z.div_lt_upper_bound; [lia|].
    rewrite <- Z.pow_add_r by lia.
    eapply Z.lt_le_trans; [exact Hd|]. apply Z.pow_le_mono_r; lia.
  - split; [assumption|]. eapply Z.lt_le_trans; [exact Hd|].
    apply Z.pow_le_mono_r; lia.
Qed.

Lemma round_nearest_even_nonneg : forall m l,
  0 <= m -> 0 <= round_nearest_even m l.
Proof.
  intros m [|[]] H; cbn [round_nearest_even]; try lia.
  destruct (Z.even m); lia.
Qed.

(** The mantissa of a finite result of rounding has at most 53 bits. *)
Lemma round_aux_mantissa : forall prec emax s mx ex lx s' m e,
  0 < prec -> 0 <= mx ->
  binary_round_aux prec emax s mx ex lx = S754_finite s' m e ->
  Zpos m < 2 ^ prec.
Proof.
  intros prec emax s mx ex lx s' m e Hp Hm H. unfold binary_round_aux in H.
  destruct (shr_fexp prec emax mx ex lx) as [mrs e'] eqn:E1.
  assert (H1 : 0 <= shr_m mrs).
  { replace mrs with (fst (shr_fexp prec emax mx ex lx)) by (rewrite E1; reflexivity).
    unfold shr_fexp. apply shr_nonneg. rewrite shr_record_of_loc_m. assumption. }
  assert (H2 := shr_fexp_exact_bound prec emax
                  (round_nearest_even (shr_m mrs) (loc_of_shr_record mrs)) e'
                  Hp (round_nearest_even_nonneg _ _ H1)).
  destruct (shr_fexp prec emax _ e' loc_Exact) as [mrs' e''].
  cbn [fst] in H2. destruct (shr_m mrs') as [|q|q]; try discriminate.
  destruct (e'' <=? emax - prec); [|discriminate].
  injection H as _ <- _. lia.
Qed.

Lemma mul_mantissa : forall x y s m e,
  Float.mul x y = S754_finite s m e -> Zpos m < 2 ^ 53.
Proof.
  intros [sx|sx| |sx mx ex] [sy|sy| |sy my ey] s m e H; try discriminate.
  unfold Float.mul, SFmul in H.
  apply (round_aux_mantissa Float.prec Float.emax) in H;
    [exact H | reflexivity | lia].
Qed.

(** Every two-place decimal from 0.01 to 100.00, converted to a float, lies
    between 0 and 100 (checked on the 10000 values). *)
Lemma float_eqb_eq : forall x y, float_eqb x y = true -> x = y.
Proof.
  intros [s| s| |s m e] [s'|s'| |s' m' e']; simpl; try discriminate;
    try reflexivity.
  - intros H. apply Bool.eqb_prop in H. congruence.
  - intros H. apply Bool.eqb_prop in H. congruence.
  - intros H. apply andb_prop in H. destruct H as [H H3].
    apply andb_prop in H. destruct H as [H1 H2].
    apply Bool.eqb_prop in H1. apply Pos.eqb_eq in H2. apply Z.eqb_eq in H3.
    congruence.
Qed.

Lemma hundredths_table : all_in_range (Z.to_nat 10000) 1 = true.
Proof. vm_compute. reflexivity. Qed.

Lemma all_in_range_spec : forall fuel n q,
  all_in_range fuel n = true ->
  Zpos n <= Zpos q < Zpos n + Z.of_nat fuel ->
  hundredths_in_range q = true.
Proof.
  induction fuel as [|fuel IH]; intros n q H Hq; [lia|].
  cbn [all_in_range] in H. apply andb_true_iff in H. destruct H as [H1 H2].
  destruct (Pos.eq_dec n q) as [->|Hne]; [exact H1|].
  apply (IH (Pos.succ n) q H2). lia.
Qed.

Lemma of_fraction_range : forall n,
  Zpos n <= 10000 -> hundredths_in_range n = true.
Proof.
  intros n H. apply (all_in_range_spec _ 1 n hundredths_table). lia.
Qed.

Lemma round_half_even_bounds : forall n d,
  0 <= n -> 0 < d -> n < 10000 * d ->
  0 <= Float.round_half_even n d <= 10000.
Proof.
  intros n d Hn Hd H. unfold Float.round_half_even.
  assert (H1 : 0 <= n / d) by (apply Z.div_pos; lia).
  assert (H2 : n / d < 10000) by (apply Z.div_lt_upper_bound; lia).
  destruct (2 * (n mod d) ?= d); [destruct (Z.even (n / d))| |]; lia.
Qed.

(** [round_half_even n d] is an integer nearest to [n / d], the even one
    of two that are equally near. *)
Lemma round_half_even_nearest : forall n d,
  0 <= n -> 0 < d ->
  let k := Float.round_half_even n d in
  2 * Z.abs (n - k * d) <= d
  /\ (2 * Z.abs (n - k * d) = d -> Z.even k = true).
Proof.
  intros n d Hn Hd k. subst k. unfold Float.round_half_even.
  pose proof (Z.div_mod n d ltac:(lia)) as E.
  pose proof (Z.mod_pos_bound n d Hd) as Hr.
  set (q := n / d) in *. set (r := n mod d) in *. clearbody q r.
  destruct (Z.compare_spec (2 * r) d) as [C | C | C].
  - destruct (Z.even q) eqn:Ev.
    + replace (n - q * d) with r by lia. split; [lia | intros _; exact Ev].
    + replace (n - (q + 1) * d) with (r - d) by lia. split; [lia|].
      intros _. rewrite Z.add_1_r, Z.even_succ, <- Z.negb_even, Ev.
      reflexivity.
  - replace (n - q * d) with r by lia.
    split; [lia | intros; exfalso; lia].
  - replace (n - (q + 1) * d) with (r - d) by lia.
    split; [lia | intros; exfalso; lia].
Qed.

(** Only one integer is nearest in that sense. *)
Lemma nearest_unique : forall num den n n',
  0 < den ->
  2 * Z.abs (num - n * den) <= den ->
  (2 * Z.abs (num - n * den) = den -> Z.even n = true) ->
  2 * Z.abs (num - n' * den) <= den ->
  (2 * Z.abs (num - n' * den) = den -> Z.even n' = true) ->
  n = n'.
Proof.
  intros num den n n' Hd H1 E1 H2 E2.
  assert (Hc : n' = n \/ n' = n + 1 \/ n' = n - 1) by nia.
  destruct Hc as [-> | [-> | ->]]; [reflexivity | |].
  - assert (A : 2 * Z.abs (num - n * den) = den) by lia.
    assert (B : 2 * Z.abs (num - (n + 1) * den) = den) by lia.
    specialize (E1 A). specialize (E2 B).
    rewrite Z.add_1_r, Z.even_succ, <- Z.negb_even, E1 in E2. discriminate.
  - assert (A : 2 * Z.abs (num - n * den) = den) by lia.
    assert (B : 2 * Z.abs (num - (n - 1) * den) = den) by lia.
    specialize (E1 A). specialize (E2 B).
    rewrite Z.sub_1_r, Z.even_pred, <- Z.negb_even, E1 in E2. discriminate.
Qed.

Lemma nearest_hundredths_unique : forall x n n',
  nearest_hundredths x n -> nearest_hundredths x n' -> n = n'.
Proof.
  intros [s|s| |s m e] n n'; cbn [nearest_hundredths]; try contradiction.
  - intros -> ->. reflexivity.
  - cbv zeta. intros [H1 E1] [H2 E2].
    eapply nearest_unique; [|exact H1 | exact E1 | exact H2 | exact E2].
    apply Z.pow_pos_nonneg; lia.
Qed.

(** A finite float below 100.0 has a negative exponent, and its exact
    value times 100 is below 10000. *)
Lemma ltb_hundred_inv : forall m e,
  Float.ltb (S754_finite false m e) (Float.of_int 100) = true ->
  Zpos m < 2 ^ 53 ->
  exists p, e = Zneg p /\ 100 * Zpos m < 10000 * 2 ^ Zpos p.
Proof.
  intros m e H Hm.
  change (Float.of_int 100) with (S754_finite false 7036874417766400 (-46)) in H.
  unfold Float.ltb, SFltb, SFcompare in H.
  destruct (e ?= -46) eqn:Ec.
  - apply Z.compare_eq in Ec. subst e. exists 46%positive. split; [reflexivity|].
    destruct (Pos.compare_cont Eq m 7036874417766400) eqn:Em; try discriminate.
    pose proof (proj1 (Pos.compare_lt_iff m 7036874417766400) Em) as Hlt.
    apply Pos2Z.pos_lt_pos in Hlt.
    change (2 ^ 46) with 70368744177664. lia.
  - destruct e as [|p|p]; [discriminate Ec | discriminate Ec |].
    change (Z.neg p < -46) in Ec.
    exists p. split; [reflexivity|]. clear H.
    assert (Hp : 2 ^ 47 <= 2 ^ Z.pos p) by (apply Z.pow_le_mono_r; lia).
    change (2 ^ 53) with 9007199254740992 in Hm.
    change (2 ^ 47) with 140737488355328 in Hp. lia.
  - discriminate.
Qed.

Lemma round2_range : forall m e,
  Zpos m < 2 ^ 53 ->
  Float.ltb (S754_finite false m e) (Float.of_int 100) = true ->
  Float.leb (Float.of_int 0) (Float.round2 (S754_finite false m e)) = true
  /\ Float.leb (Float.round2 (S754_finite false m e)) (Float.of_int 100) = true.
Proof.
  intros m e Hm H. destruct (ltb_hundred_inv m e H Hm) as (p & -> & Hb).
  cbn [Float.round2].
  assert (Hpow : 0 < 2 ^ Z.pos p) by (apply Z.pow_pos_nonneg; lia).
  assert (Hr := round_half_even_bounds (100 * Z.pos m) (2 ^ Z.pos p)
                  ltac:(lia) Hpow Hb).
  destruct (Float.round_half_even (100 * Z.pos m) (2 ^ Z.pos p)) as [|n|n].
  - split; reflexivity.
  - assert (Hn := of_fraction_range n ltac:(lia)).
    unfold hundredths_in_range in Hn. cbv zeta in Hn.
    apply andb_true_iff in Hn. destruct Hn as [Hn _].
    apply andb_true_iff in Hn. exact Hn.
  - lia.
Qed.

(** Below 100.0, [round2] gives the decimal with two places nearest to the
    exact value of its argument. *)
Lemma round2_nearest : forall m e,
  Zpos m < 2 ^ 53 ->
  Float.ltb (S754_finite false m e) (Float.of_int 100) = true ->
  exists n,
    nearest_hundredths (S754_finite false m e) n
    /\ Float.round2 (S754_finite false m e) = two_places n.
Proof.
  intros m e Hm H. destruct (ltb_hundred_inv m e H Hm) as (p & -> & Hb).
  assert (Hpow : 0 < 2 ^ Z.pos p) by (apply Z.pow_pos_nonneg; lia).
  assert (Hr := round_half_even_bounds (100 * Z.pos m) (2 ^ Z.pos p)
                  ltac:(lia) Hpow Hb).
  assert (Hk := round_half_even_nearest (100 * Z.pos m) (2 ^ Z.pos p)
                  ltac:(lia) Hpow).
  cbv zeta in Hk.
  exists (Float.round_half_even (100 * Z.pos m) (2 ^ Z.pos p)). split.
  - unfold nearest_hundredths. cbv zeta.
    change (Z.max (Z.neg p) 0) with 0.
    change (Z.max (- Z.neg p) 0) with (Z.pos p).
    rewrite Z.pow_0_r, Z.mul_1_r. exact Hk.
  - cbn [Float.round2].
    destruct (Float.round_half_even (100 * Z.pos m) (2 ^ Z.pos p)) as [|n|n].
    + reflexivity.
    + assert (Hn := of_fraction_range n ltac:(lia)).
      unfold hundredths_in_range in Hn. cbv zeta in Hn.
      apply andb_true_iff in Hn. destruct Hn as [_ Hn].
      exact (float_eqb_eq _ _ Hn).
    + lia.
Qed.

(** The weights of the code are the decimals 1.5 and 1.0. *)
Lemma weights_spec :
  weight_add = spec_weight_add /\ weight_remove = spec_weight_remove.
Proof. split; vm_compute; reflexivity. Qed.

(** The code's baseline is the clamp of the specification, also when no
    line counts. *)
Lemma max_expected_score_spec : forall total,
  0 <= total -> max_expected_score total = spec_baseline total.
Proof.
  intros [|p|p] H; [vm_compute; reflexivity | reflexivity | lia].
Qed.

Lemma min_max_nonneg : forall x y,
  nonneg x = true -> nonneg y = true ->
  nonneg (Float.min x y) = true /\ nonneg (Float.max x y) = true.
Proof.
  intros x y Hx Hy. unfold Float.min, Float.max.
  destruct (Float.ltb y x), (Float.ltb x y); auto.
Qed.

Lemma max_expected_score_nonneg : forall total,
  nonneg (max_expected_score total) = true.
Proof.
  intros [|p|p]; try reflexivity. unfold max_expected_score.
  apply min_max_nonneg; [reflexivity|].
  apply min_max_nonneg; [reflexivity|].
  apply of_fraction_nonneg.
Qed.

(** The lower bound of the clamp never acts on a value that is not
    negative. *)
Lemma clamp_nonneg : forall y,
  nonneg y = true ->
  clamp y (Float.of_int 0) (Float.of_int 100) = Float.min (Float.of_int 100) y.
Proof.
  intros y Hy. unfold clamp, Float.min, Float.max.
  destruct (Float.ltb y (Float.of_int 100)) eqn:E; [|reflexivity].
  destruct y as [[]|[]| |[] m e]; try discriminate; reflexivity.
Qed.

Lemma sum_ones_nonneg : forall test lines, 0 <= sum_ones test lines.
Proof. intros. rewrite sum_ones_count. unfold count. lia. Qed.

Lemma scaled_range : forall y,
  nonneg y = true ->
  (forall s m e, y = S754_finite s m e -> Zpos m < 2 ^ 53) ->
  let score := Float.round2 (Float.min (Float.of_int 100) y) in
  Float.leb (Float.of_int 0) score = true
  /\ Float.leb score (Float.of_int 100) = true.
Proof.
  intros y Hy Hm score. subst score. unfold Float.min.
  destruct (Float.ltb y (Float.of_int 100)) eqn:E.
  - destruct y as [[]|[]| |[] m e]; try discriminate.
    + split; reflexivity.
    + apply round2_range; [exact (Hm false m e eq_refl) | exact E].
  - split; vm_compute; reflexivity.
Qed.

Lemma scaled_nearest : forall y,
  nonneg y = true ->
  (forall s m e, y = S754_finite s m e -> Zpos m < 2 ^ 53) ->
  let x := Float.min (Float.of_int 100) y in
  exists n, nearest_hundredths x n /\ Float.round2 x = two_places n.
Proof.
  intros y Hy Hm x. subst x. unfold Float.min.
  destruct (Float.ltb y (Float.of_int 100)) eqn:E.
  - destruct y as [[]|[]| |[] m e]; try discriminate.
    + exists 0. split; reflexivity.
    + apply round2_nearest; [exact (Hm false m e eq_refl) | exact E].
  - exists 10000. split; [|vm_compute; reflexivity].
    change (Float.of_int 100) with (S754_finite false 7036874417766400 (-46)).
    unfold nearest_hundredths. cbv zeta.
    split; [vm_compute; discriminate | intros _; reflexivity].
Qed.

(** C7. For every diff sequence the chaos score is the formula of the
    specification.  With [total] the number of lines that start with [+],
    [-] or a space, the baseline [clamp(total / 2, 50, 200)] and the raw
    score [additions * 1.5 + removals * 1.0], the score is
    [clamp(raw / baseline * 100, 0, 100)] rounded to two decimal places: it
    is the float of the one decimal [n / 100] that is nearest to the exact
    value of the clamped quotient.  The score lies between 0 and 100. *)
Theorem chaos_score_spec : forall diff_lines,
  let m := calculate_impact_metrics diff_lines in
  let total :=
    count (fun line => startswith (lit "+") line || startswith (lit "-") line
                       || startswith (lit " ") line) diff_lines in
  let unrounded :=
    spec_unrounded_score (count (startswith (lit "+")) diff_lines)
                         (count (startswith (lit "-")) diff_lines) total in
  (exists n,
     nearest_hundredths unrounded n
     /\ (forall n', nearest_hundredths unrounded n' -> n' = n)
     /\ chaos_score m = two_places n)
  /\ Float.leb (Float.of_int 0) (chaos_score m) = true
  /\ Float.leb (chaos_score m) (Float.of_int 100) = true.
Proof.
  intros diff_lines m total unrounded. subst m unrounded.
  unfold calculate_impact_metrics. cbn [chaos_score].
  set (raw := Float.add _ _).
  set (base := max_expected_score _).
  set (y := Float.mul (Float.div raw base) (Float.of_int 100)).
  assert (Hraw : nonneg raw = true).
  { subst raw.
    apply add_nonneg;
      (apply mul_nonneg;
       [apply of_int_nonneg, sum_ones_nonneg | vm_compute; reflexivity]). }
  assert (Hy : nonneg y = true).
  { subst y. apply mul_nonneg; [|reflexivity].
    apply div_nonneg; [exact Hraw | apply max_expected_score_nonneg]. }
  assert (Hm : forall s mm e, y = S754_finite s mm e -> Zpos mm < 2 ^ 53).
  { intros s mm e E. exact (mul_mantissa _ _ _ _ _ E). }
  split.
  - unfold spec_unrounded_score. fold total.
    destruct weights_spec as [<- <-].
    rewrite <- !sum_ones_count. fold is_addition is_removal. fold raw.
    rewrite <- max_expected_score_spec by (unfold total, count; lia).
    fold base. fold y. rewrite clamp_nonneg by exact Hy.
    destruct (scaled_nearest y Hy Hm) as (n & Hn & E).
    exists n. split; [exact Hn|]. split; [|exact E].
    intros n' Hn'. exact (nearest_hundredths_unique _ n' n Hn' Hn).
  - exact (scaled_range y Hy Hm).
Qed.

End FloatFacts.

(* ------------------------------------------------------------------ *)
(** ** The differ on two identical inputs *)

Lemma str_eqb_refl : forall a, str_eqb a a = true.
Proof.
  induction a as [|c a IH]; [reflexivity|].
  simpl. rewrite N.eqb_refl. exact IH.
Qed.

Lemma str_eqb_eq : forall a b, str_eqb a b = true -> a = b.
Proof.
  induction a as [|c a IH]; intros [|d b] H; try discriminate; [reflexivity|].
  simpl in H. apply andb_true_iff in H. destruct H as [H1 H2].
  apply N.eqb_eq in H1. subst d. f_equal. apply IH. exact H2.
Qed.

Section SelfDiff.
Variable x : list str.

Lemma chain_eq : forall i j,
  chain x i j
  = if linked x i j
    then match i, j with
         | S i', S j' => S (chain x i' j')
         | _, _ => 1
         end
    else 0.
Proof. intros [|i] j; reflexivity. Qed.

Lemma linked_inv : forall i j,
  linked x i j = true ->
  j < length x /\ nth j x [] = nth i x []
  /\ Difflib.popular x (nth i x []) = false.
Proof.
  unfold linked. intros i j H.
  apply andb_true_iff in H. destruct H as [H H3].
  apply andb_true_iff in H. destruct H as [H1 H2].
  apply Nat.ltb_lt in H1. apply str_eqb_eq in H2.
  apply negb_true_iff in H3. auto.
Qed.

Lemma linked_intro : forall i j,
  j < length x -> nth j x [] = nth i x [] ->
  Difflib.popular x (nth i x []) = false -> linked x i j = true.
Proof.
  unfold linked. intros i j H1 H2 H3.
  rewrite (proj2 (Nat.ltb_lt _ _) H1), H2, str_eqb_refl, H3. reflexivity.
Qed.

Lemma linked_col : forall i j, linked x i j = true -> linked x j j = true.
Proof.
  intros i j H. destruct (linked_inv _ _ H) as (H1 & H2 & H3).
  apply linked_intro; [assumption | reflexivity | rewrite H2; assumption].
Qed.

Lemma linked_row : forall i j,
  i < length x -> linked x i j = true -> linked x i i = true.
Proof.
  intros i j Hi H. destruct (linked_inv _ _ H) as (H1 & H2 & H3).
  apply linked_intro; [assumption | reflexivity | assumption].
Qed.

(** A run that ends at [(i, j)] is no longer than the runs that end on the
    diagonal at [(j, j)] and at [(i, i)]. *)
Lemma chain_le_col : forall i j, chain x i j <= chain x j j.
Proof.
  induction i as [|i IH]; intros j; rewrite (chain_eq _ j), (chain_eq j j).
  - destruct (linked x 0 j) eqn:E; [|lia].
    rewrite (linked_col _ _ E). destruct j; lia.
  - destruct (linked x (S i) j) eqn:E; [|lia].
    rewrite (linked_col _ _ E). destruct j as [|j]; [lia|].
    specialize (IH j). lia.
Qed.

Lemma chain_le_row : forall i j, i < length x -> chain x i j <= chain x i i.
Proof.
  induction i as [|i IH]; intros j Hi; rewrite (chain_eq _ j), (chain_eq _ _).
  - destruct (linked x 0 j) eqn:E; [|lia].
    rewrite (linked_row _ _ Hi E). destruct j; lia.
  - destruct (linked x (S i) j) eqn:E; [|lia].
    rewrite (linked_row _ _ Hi E). destruct j as [|j]; [lia|].
    specialize (IH j ltac:(lia)). lia.
Qed.

Lemma chain_diag_bound : forall i, chain x i i <= S i.
Proof.
  induction i as [|i IH]; rewrite chain_eq; destruct (linked x _ _); lia.
Qed.

End SelfDiff.

Section Rows.
Variable x : list str.

Lemma chain_unlinked : forall i j, linked x i j = false -> chain x i j = 0.
Proof. intros i j H. rewrite chain_eq, H. reflexivity. Qed.

Lemma chain_outside : forall i j, length x <= j -> chain x i j = 0.
Proof.
  intros i j H. apply chain_unlinked. unfold linked.
  rewrite (proj2 (Nat.ltb_ge _ _) H). reflexivity.
Qed.

Lemma lengths_get_cons : forall k v new j,
  Difflib.lengths_get ((k, v) :: new) j
  = if Nat.eqb k j then v else Difflib.lengths_get new j.
Proof. reflexivity. Qed.

Lemma row_loop_cons : forall j js i blo bhi j2len newj2len best,
  Difflib.row_loop (j :: js) i blo bhi j2len newj2len best
  = if j <? blo then Difflib.row_loop js i blo bhi j2len newj2len best
    else if bhi <=? j then (newj2len, best)
    else
      let k := Difflib.lengths_before j2len j + 1 in
      let '(_, _, bestsize) := best in
      Difflib.row_loop js i blo bhi j2len ((j, k) :: newj2len)
        (if bestsize <? k then (i + 1 - k, j + 1 - k, k) else best).
Proof. reflexivity. Qed.

(** One row of [find_longest_match] on [(x, x)], from the index [k] of [b]
    on: the dictionary of the row gets the lengths [chain x i j], and the
    best match stays on the diagonal, at least as long as every diagonal
    run seen so far. *)
Ltac lookup_step Hlow Hhigh :=
  let j := fresh "j" in
  let Hj := fresh "Hj" in
  let E := fresh "E" in
  intros j Hj; rewrite lengths_get_cons;
  match goal with
  | |- (if Nat.eqb ?k j then _ else _) = _ =>
      destruct (Nat.eqb k j) eqn:E;
      [ apply Nat.eqb_eq in E; subst; try reflexivity; lia
      | apply Nat.eqb_neq in E; first [apply Hlow; lia | apply Hhigh; lia] ]
  end.

Lemma row_inv : forall i prev,
  i < length x -> Difflib.popular x (nth i x []) = false -> row_ready x i prev ->
  forall l k new d s,
    k + length l = length x ->
    (forall m, nth m l [] = nth (k + m) x []) ->
    (forall j, j < k -> Difflib.lengths_get new j = chain x i j) ->
    (forall j, k <= j -> Difflib.lengths_get new j = 0) ->
    d + s <= length x ->
    (forall i', i' < i -> chain x i' i' <= s) ->
    (i < k -> chain x i i <= s) ->
    exists new' d' s',
      Difflib.row_loop (Difflib.indices_from (nth i x []) l k) i 0 (length x)
                       prev new (d, d, s)
      = (new', (d', d', s'))
      /\ (forall j, Difflib.lengths_get new' j = chain x i j)
      /\ d' + s' <= length x
      /\ (forall i', i' <= i -> chain x i' i' <= s').
Proof.
  intros i prev Hi Hpop Hprev.
  induction l as [|y l IH]; intros k new d s Hk Hl Hlow Hhigh Hds Hrows Hrow.
  - simpl in Hk. rewrite Nat.add_0_r in Hk. subst k.
    exists new, d, s. split; [reflexivity|]. split; [|split; [assumption|]].
    + intros j. destruct (Nat.lt_ge_cases j (length x)) as [Hj|Hj].
      * apply Hlow. exact Hj.
      * rewrite chain_outside by exact Hj. apply Hhigh. exact Hj.
    + intros i' Hi'. destruct (Nat.eq_dec i' i) as [->|Hne];
        [apply Hrow; exact Hi | apply Hrows; lia].
  - assert (Hy : y = nth k x []).
    { specialize (Hl 0). rewrite Nat.add_0_r in Hl. exact Hl. }
    assert (Hkn : k < length x) by (simpl in Hk; lia).
    assert (Hl' : forall m, nth m l [] = nth (S k + m) x []).
    { intros m. specialize (Hl (S m)). simpl in Hl.
      rewrite Nat.add_succ_r in Hl. exact Hl. }
    assert (Hk' : S k + length l = length x) by (simpl in Hk; lia).
    cbn [Difflib.indices_from].
    destruct (str_eqb y (nth i x [])) eqn:Ey.
    + (* [k] is an index of [a[i]] in [b] *)
      assert (Hlink : linked x i k = true).
      { apply linked_intro; [exact Hkn | | exact Hpop].
        rewrite <- Hy. apply str_eqb_eq. exact Ey. }
      rewrite row_loop_cons. change (k <? 0) with false. cbv iota.
      rewrite (proj2 (Nat.leb_gt _ _) Hkn). cbv zeta.
      rewrite (Hprev k Hlink).
      destruct (Nat.eq_dec k i) as [->|Hne].
      * (* on the diagonal *)
        assert (Hb := chain_diag_bound x i).
        destruct (s <? chain x i i) eqn:Es.
        -- apply Nat.ltb_lt in Es.
           replace (i + 1 - chain x i i) with (S i - chain x i i) by lia.
           apply (IH (S i) _ (S i - chain x i i) (chain x i i));
             try assumption; try lia; try lookup_step Hlow Hhigh.
           intros i' Hi'. specialize (Hrows i' Hi'). lia.
        -- apply Nat.ltb_ge in Es.
           apply (IH (S i) _ d s); try assumption; try lia;
             lookup_step Hlow Hhigh.
      * (* off the diagonal: the best match does not change *)
        assert (Hle : chain x i k <= s).
        { destruct (Nat.lt_ge_cases k i) as [Hlt|Hge].
          - eapply Nat.le_trans; [apply chain_le_col | apply Hrows; exact Hlt].
          - eapply Nat.le_trans; [apply chain_le_row; exact Hi | apply Hrow; lia]. }
        rewrite (proj2 (Nat.ltb_ge _ _) Hle).
        apply (IH (S k) _ d s); try assumption; try lia;
          lookup_step Hlow Hhigh.
    + (* [k] is not an index of [a[i]] *)
      assert (Hne : k <> i).
      { intros ->. rewrite Hy, str_eqb_refl in Ey. discriminate. }
      assert (Hun : linked x i k = false).
      { unfold linked. rewrite <- Hy, Ey, andb_false_r. reflexivity. }
      apply (IH (S k) new d s); try assumption; try lia.
      * intros j Hj. destruct (Nat.eq_dec j k) as [->|Hjk].
        -- rewrite chain_unlinked by exact Hun. apply Hhigh. lia.
        -- apply Hlow. lia.
      * intros j Hj. apply Hhigh. lia.
Qed.

End Rows.

Section Self.
Variable x : list str.

Lemma lengths_before_nil : forall j, Difflib.lengths_before [] j = 0.
Proof. intros [|j]; reflexivity. Qed.

Lemma row_ready_first : row_ready x 0 [].
Proof.
  intros j H. rewrite lengths_before_nil, chain_eq, H. reflexivity.
Qed.

Lemma row_ready_next : forall i new,
  (forall j, Difflib.lengths_get new j = chain x i j) ->
  row_ready x (S i) new.
Proof.
  intros i new H j Hj. rewrite chain_eq, Hj.
  destruct j as [|j]; [reflexivity|].
  cbn [Difflib.lengths_before]. rewrite H. lia.
Qed.

Lemma chain_popular : forall i j,
  Difflib.popular x (nth i x []) = true -> chain x i j = 0.
Proof.
  intros i j H. apply chain_unlinked. unfold linked.
  rewrite H. apply andb_false_r.
Qed.

(** All the rows: the best match is on the diagonal and inside the
    sequence. *)
Lemma rows_inv : forall cnt i0 prev d s,
  i0 + cnt = length x -> row_ready x i0 prev -> d + s <= length x ->
  (forall i', i' < i0 -> chain x i' i' <= s) ->
  exists d' s',
    Difflib.rows_loop x x (seq i0 cnt) 0 (length x) prev (d, d, s)
    = (d', d', s')
    /\ d' + s' <= length x.
Proof.
  induction cnt as [|cnt IH]; intros i0 prev d s Hn Hprev Hds Hrows.
  - exists d, s. split; [reflexivity | assumption].
  - cbn [seq Difflib.rows_loop]. unfold Difflib.b2j.
    destruct (Difflib.popular x (nth i0 x [])) eqn:Hpop.
    + cbn [Difflib.row_loop].
      apply IH; [lia | | assumption |].
      * apply row_ready_next. intros j.
        rewrite chain_popular by exact Hpop. reflexivity.
      * intros i' Hi'. destruct (Nat.eq_dec i' i0) as [->|Hne].
        -- rewrite chain_popular by exact Hpop. lia.
        -- apply Hrows. lia.
    + destruct (row_inv x i0 prev ltac:(lia) Hpop Hprev x 0 [] d s)
        as (new' & d' & s' & Hrow & Hget & Hds' & Hrows');
        try (intros; reflexivity); try assumption; try (intros; lia).
      rewrite Hrow. apply IH; [lia | | assumption |].
      * apply row_ready_next. exact Hget.
      * intros i' Hi'. apply Hrows'. lia.
Qed.

Lemma extend_left_self : forall d s,
  Difflib.extend_left x x 0 0 d d s = (0, 0, d + s).
Proof.
  induction d as [|d IH]; intros s; [reflexivity|].
  cbn [Difflib.extend_left]. rewrite str_eqb_refl. cbn [Nat.ltb Nat.leb andb].
  rewrite IH. f_equal. lia.
Qed.

Lemma extend_right_self : forall fuel s,
  s <= length x -> length x - s <= fuel ->
  Difflib.extend_right x x fuel (length x) (length x) 0 0 s = length x.
Proof.
  induction fuel as [|fuel IH]; intros s Hs Hf.
  - simpl. lia.
  - cbn [Difflib.extend_right]. cbn [Nat.add]. rewrite str_eqb_refl.
    destruct (s <? length x) eqn:E; cbn [andb].
    + apply Nat.ltb_lt in E. apply IH; lia.
    + apply Nat.ltb_ge in E. lia.
Qed.

(** The two extension loops then stretch it over the whole sequence. *)
Lemma find_longest_match_self :
  Difflib.find_longest_match x x 0 (length x) 0 (length x) = (0, 0, length x).
Proof.
  unfold Difflib.find_longest_match. rewrite Nat.sub_0_r.
  destruct (rows_inv (length x) 0 [] 0 0) as (d & s & -> & Hds);
    [reflexivity | apply row_ready_first | lia | intros; lia |].
  rewrite extend_left_self, extend_right_self by lia. reflexivity.
Qed.

End Self.

Section SelfPipeline.
Variable x : list str.
Hypothesis Hx : length x <> 0.

Lemma get_matching_blocks_self :
  Difflib.get_matching_blocks x x
  = Some [(0, 0, length x); (length x, length x, 0)].
Proof.
  unfold Difflib.get_matching_blocks. rewrite Nat.add_1_r.
  cbn [Difflib.blocks_loop]. rewrite find_longest_match_self.
  rewrite (proj2 (Nat.eqb_neq _ _) Hx).
  change (0 + length x) with (length x). rewrite !Nat.ltb_irrefl.
  cbn [andb app].
  destruct (2 * length x); cbn [Difflib.blocks_loop];
    cbn [Difflib.sort_blocks Difflib.insert_block Difflib.merge_adjacent
         Nat.add Nat.eqb andb];
    rewrite (proj2 (Nat.eqb_neq _ _) Hx); reflexivity.
Qed.

Lemma get_opcodes_self :
  Difflib.get_opcodes x x
  = Some [Difflib.Op Difflib.Equal 0 (length x) 0 (length x)].
Proof.
  unfold Difflib.get_opcodes. rewrite get_matching_blocks_self.
  cbn [Difflib.opcodes_loop Nat.add].
  rewrite (proj2 (Nat.eqb_neq _ _) Hx), !Nat.ltb_irrefl.
  reflexivity.
Qed.

Lemma get_grouped_opcodes_self : Difflib.get_grouped_opcodes x x 3 = Some [].
Proof.
  unfold Difflib.get_grouped_opcodes. rewrite get_opcodes_self.
  cbn [Difflib.trim_first Difflib.trim_last Difflib.groups_loop
       Difflib.is_equal andb].
  replace (3 + 3 <? _) with false; [reflexivity|].
  symmetry. apply Nat.ltb_ge. lia.
Qed.

End SelfPipeline.

(** C10. Comparing a sequence of lines with itself gives the empty diff:
    the matcher finds the whole sequence as one matching block, so there is
    no group of opcodes, no hunk and no header. *)
Theorem compare_configs_self : forall x, compare_configs x x = Some [].
Proof.
  intros x. unfold compare_configs, Difflib.unified_diff.
  destruct x as [|y x]; [reflexivity|].
  rewrite get_grouped_opcodes_self by discriminate. reflexivity.
Qed.

(* ------------------------------------------------------------------ *)
(** ** More on the normalizer *)

Lemma squeeze_single_spaced : forall s,
  single_spaced (squeeze false s) = true
  /\ single_spaced (squeeze true s) = true
  /\ match squeeze true s with d :: _ => isspace d = false | [] => True end.
Proof.
  induction s as [|c t (IH1 & IH2 & IH3)]; [simpl; auto|].
  cbn [squeeze]. destruct (isspace c) eqn:Hc.
  - repeat split; try assumption.
    cbn [single_spaced]. change (isspace 32%N) with true.
    rewrite IH2. destruct (squeeze true t) as [|d u]; [reflexivity|].
    rewrite IH3. reflexivity.
  - cbn [single_spaced]. rewrite Hc, IH1. auto.
Qed.

(** X1. The result of the normalizer is in ascending order, and it is a
    rearrangement of the normal forms of the lines that are kept: no line
    is merged with an equal one, none is added. *)
Theorem normalize_sorted_permutation : forall lines,
  StronglySorted str_le (normalize_iptables_config lines)
  /\ Permutation (normalize_iptables_config lines)
       (List.map normalize_line (filter is_rule_line lines)).
Proof.
  intros lines. unfold normalize_iptables_config. split.
  - apply sorted_strongly.
  - rewrite <- normalize_loop_filter_map. apply sorted_perm.
Qed.

(** X2. A normalised line has no whitespace at its ends, and inside it
    every whitespace character is a single space between two characters
    that are not whitespace. *)
Theorem normalized_whitespace : forall lines line,
  In line (normalize_iptables_config lines) ->
  trimmed line /\ single_spaced line = true.
Proof.
  intros lines line H. apply in_normalize in H.
  destruct H as (l & _ & _ & ->). rewrite normalize_line_eq. split.
  - apply squeeze_trimmed, fix_dashes_trimmed, strip_is_trimmed.
  - apply squeeze_single_spaced.
Qed.

Lemma normalized_whitespace_witness :
  let lines := [lit "  -A INPUT" ++ [9%N; 9%N] ++ lit "-j  DROP " ++ [10%N]] in
  In (lit "-A INPUT -j DROP") (normalize_iptables_config lines)
  /\ trimmed (lit "-A INPUT -j DROP")
  /\ single_spaced (lit "-A INPUT -j DROP") = true.
Proof.
  intros lines.
  assert (H : In (lit "-A INPUT -j DROP") (normalize_iptables_config lines))
    by (vm_compute; left; reflexivity).
  split; [exact H|].
  exact (normalized_whitespace lines (lit "-A INPUT -j DROP") H).
Defined.

Lemma fix_dashes_no_match : forall c t,
  starts_with_classes [is_dash; is_dash; Re.upper] (c :: t) = false ->
  fix_dashes (c :: t) = c :: fix_dashes t.
Proof.
  intros c [|d [|u rest]] H; try reflexivity.
  rewrite fix_dashes_cons3. cbn [starts_with_classes] in H.
  unfold is_dash in H. rewrite andb_true_r, andb_assoc in H. rewrite H.
  reflexivity.
Qed.

Lemma space_not_dash : forall c, isspace c = true -> is_dash c = false.
Proof.
  intros c H. unfold is_dash. destruct (N.eqb_spec c 45) as [->|_];
    [discriminate H | reflexivity].
Qed.

Lemma upper_not_space : forall c, Re.upper c = true -> isspace c = false.
Proof.
  intros c H. unfold Re.upper, in_range in H.
  apply andb_true_iff in H. destruct H as [H1 H2].
  apply N.leb_le in H1, H2. unfold isspace, in_range.
  repeat match goal with
         | |- context [(?x <=? ?y)%N] => destruct (N.leb_spec x y); try lia
         | |- context [(?x =? ?y)%N] => destruct (N.eqb_spec x y); try lia
         end; reflexivity.
Qed.

(** The two rewritings of a line do not disturb each other: a [--X] has
    no whitespace in it, and a run of whitespace has no dash. *)
Lemma fix_dashes_squeeze : forall n s b,
  length s <= n ->
  squeeze b (fix_dashes s) = fix_dashes (squeeze b s).
Proof.
  induction n as [|n IH]; intros s b Hn.
  - destruct s; [reflexivity | simpl in Hn; lia].
  - destruct s as [|c t]; [reflexivity|]. cbn [length] in Hn.
    destruct (isspace c) eqn:Ec.
    + rewrite fix_dashes_no_match
        by (cbn [starts_with_classes]; rewrite (space_not_dash c Ec);
            reflexivity).
      rewrite !squeeze_cons, Ec. destruct b.
      * apply IH. lia.
      * rewrite fix_dashes_no_match by reflexivity.
        f_equal. apply IH. lia.
    + destruct (starts_with_classes [is_dash; is_dash; Re.upper] (c :: t)) eqn:Em.
      * destruct t as [|d [|u rest]]; cbn [starts_with_classes] in Em;
          rewrite ?andb_false_r in Em; try discriminate Em.
        rewrite andb_true_r in Em.
        apply andb_true_iff in Em. destruct Em as [Hc Em].
        apply andb_true_iff in Em. destruct Em as [Hd Hu].
        assert (Ed : isspace d = false).
        { unfold is_dash in Hd. apply N.eqb_eq in Hd. subst d. reflexivity. }
        assert (Eu : isspace u = false) by (apply upper_not_space; exact Hu).
        unfold is_dash in Hc, Hd.
        rewrite fix_dashes_cons3, Hc, Hd, Hu. cbn [andb].
        rewrite !squeeze_cons, Ec, Ed, Eu.
        rewrite fix_dashes_cons3, Hc, Hd, Hu. cbn [andb].
        do 2 f_equal. apply IH. cbn [length] in Hn. lia.
      * rewrite fix_dashes_no_match by exact Em.
        rewrite !squeeze_cons, Ec.
        rewrite fix_dashes_no_match.
        -- f_equal. apply IH. lia.
        -- destruct (starts_with_classes [is_dash; is_dash; Re.upper]
                       (c :: squeeze false t)) eqn:E; [|reflexivity].
           assert (E' : starts_with_classes [is_dash; is_dash; Re.upper]
                          (squeeze false (c :: t)) = true)
             by (rewrite squeeze_cons, Ec; exact E).
           apply starts_squeeze in E'; [congruence|].
           repeat constructor.
Qed.

(** X3. The two substitutions of the normalizer can be made in either
    order: replacing [--X] by [-X] and then every run of whitespace by one
    space gives the same string as collapsing the whitespace first. *)
Theorem normalize_rewrites_commute : forall s,
  Re.sub spaces_pattern one_space_repl
    (Re.sub double_dash_pattern single_dash_repl s)
  = Re.sub double_dash_pattern single_dash_repl
      (Re.sub spaces_pattern one_space_repl s).
Proof.
  intros s. rewrite !sub_spaces, !sub_dashes.
  apply (fix_dashes_squeeze (length s)). lia.
Qed.

(* ------------------------------------------------------------------ *)
(** ** More on the format detector *)

Lemma search_word : forall w s pos,
  is_some (Re.search_from (Re.word w) pos s) = contains w s.
Proof.
  intros w s. induction s as [|c s IH]; intros pos.
  - cbn [Re.search_from contains]. unfold Re.match_at. rewrite rmatch_word.
    destruct (startswith w []); reflexivity.
  - cbn [Re.search_from contains]. unfold Re.match_at. rewrite rmatch_word.
    destruct (startswith w (c :: s)); [reflexivity|]. apply IH.
Qed.

Lemma search_alt : forall r1 r2 s pos,
  is_some (Re.search_from (Re.Alt r1 r2) pos s)
  = is_some (Re.search_from r1 pos s) || is_some (Re.search_from r2 pos s).
Proof.
  intros r1 r2 s. induction s as [|c s IH]; intros pos;
    cbn [Re.search_from]; unfold Re.match_at; cbn [Re.rmatch];
    fold (Re.match_at r1 pos) (Re.match_at r2 pos).
  - destruct (Re.rmatch r1 _ _ _), (Re.rmatch r2 _ _ _); reflexivity.
  - destruct (Re.rmatch r1 _ _ _), (Re.rmatch r2 _ _ _); cbn [is_some orb];
      rewrite ?orb_true_r; try reflexivity; apply IH.
Qed.

Lemma found_is_some : forall r s, Re.found r s = is_some (Re.search r s).
Proof. reflexivity. Qed.

Lemma bool_iff_eq : forall a b : bool, (a = true <-> b = true) -> a = b.
Proof. intros [] [] H; intuition congruence. Qed.

Section FormatDetectorMore.
Variable uni_alnum : char -> bool.

Lemma is_iptables_file_count : forall content,
  is_iptables_file uni_alnum content = true
  <-> 3 <= length (filter (matches_signature uni_alnum) content).
Proof.
  intros [|line rest].
  - simpl. split; [discriminate | lia].
  - unfold is_iptables_file.
    rewrite scan_lines_result by (unfold threshold; lia).
    unfold threshold. simpl. reflexivity.
Qed.

(** X4. The answer of the format detector does not depend on the order
    of the lines, and lines put before or after an accepted content never
    make it rejected. *)
Theorem is_iptables_file_order_and_growth : forall content,
  (forall content', Permutation content content' ->
     is_iptables_file uni_alnum content' = is_iptables_file uni_alnum content)
  /\ (forall pre post,
        is_iptables_file uni_alnum content = true ->
        is_iptables_file uni_alnum (pre ++ content ++ post) = true).
Proof.
  intros content. split.
  - intros content' H. apply bool_iff_eq. rewrite !is_iptables_file_count.
    rewrite (Permutation_length (filter_permutation _ _ _ H)). reflexivity.
  - intros pre post H. apply is_iptables_file_count.
    apply is_iptables_file_count in H.
    rewrite !filter_app, !length_app. lia.
Qed.

(** X5. A content of fewer than three lines is rejected, whatever the
    lines are. *)
Theorem is_iptables_file_short : forall content,
  length content < 3 -> is_iptables_file uni_alnum content = false.
Proof.
  intros content H.
  destruct (is_iptables_file uni_alnum content) eqn:E; [|reflexivity].
  apply is_iptables_file_count in E.
  pose proof (filter_length_le (matches_signature uni_alnum) content). lia.
Qed.

Lemma keyword_matches_signature : forall line,
  has_keyword line = true -> matches_signature uni_alnum line = true.
Proof.
  intros line H. unfold matches_signature, iptables_patterns.
  cbn [existsb]. rewrite !found_is_some. unfold Re.search, Re.text.
  rewrite !search_alt, !search_word.
  unfold has_keyword in H.
  repeat (apply orb_true_iff in H; destruct H as [H|H]);
    rewrite H, ?orb_true_r; reflexivity.
Qed.

(** X6. A content is accepted as soon as three of its lines contain one
    of the words [iptables], [--dport], [--sport], [ACCEPT], [DROP] or
    [REJECT], whatever else the lines are. *)
Theorem is_iptables_file_keywords : forall content,
  3 <= length (filter has_keyword content) ->
  is_iptables_file uni_alnum content = true.
Proof.
  intros content H. apply is_iptables_file_count.
  apply (Nat.le_trans _ _ _ H). clear H.
  induction content as [|line rest IH]; [reflexivity|].
  cbn [filter]. destruct (has_keyword line) eqn:E.
  - rewrite (keyword_matches_signature line E). cbn [length]. lia.
  - destruct (matches_signature uni_alnum line); cbn [length]; lia.
Qed.

End FormatDetectorMore.

Lemma is_iptables_file_short_witness :
  let content := [lit "-A INPUT -p tcp --dport 22 -j ACCEPT";
                  lit "-A INPUT -j DROP"] in
  length content < 3 /\ is_iptables_file (fun _ => false) content = false.
Proof.
  intros content.
  assert (H : length content < 3) by (cbn; lia).
  split; [exact H|].
  exact (is_iptables_file_short (fun _ => false) content H).
Defined.

Lemma is_iptables_file_keywords_witness :
  let content := [lit "please ACCEPT this"; lit "DROP me a line";
                  lit "I REJECT that"] in
  3 <= length (filter has_keyword content)
  /\ is_iptables_file (fun _ => false) content = true.
Proof.
  intros content.
  assert (H : 3 <= length (filter has_keyword content))
    by (vm_compute; lia).
  split; [exact H|].
  exact (is_iptables_file_keywords (fun _ => false) content H).
Defined.

(* ------------------------------------------------------------------ *)
(** ** The differ: the queue of the matcher always empties *)

Section Termination.
Variables a b : list str.

Lemma lengths_get_within : forall rows blo bhi d j,
  Forall (length_within rows blo bhi) d ->
  Difflib.lengths_get d j <= rows /\ Difflib.lengths_get d j <= j + 1 - blo.
Proof.
  intros rows blo bhi d j H.
  induction H as [|[j' k] d Hx _ IH]; cbn [Difflib.lengths_get].
  - lia.
  - destruct (Nat.eqb_spec j' j) as [->|_]; [|exact IH].
    unfold length_within in Hx. lia.
Qed.

Lemma lengths_before_within : forall rows blo bhi d j,
  Forall (length_within rows blo bhi) d -> blo <= j ->
  Difflib.lengths_before d j + 1 <= S rows
  /\ Difflib.lengths_before d j + 1 <= j + 1 - blo.
Proof.
  intros rows blo bhi d [|j] H Hj; cbn [Difflib.lengths_before].
  - lia.
  - destruct (lengths_get_within rows blo bhi d j H). lia.
Qed.

(** One row keeps the lengths and the best block inside the region. *)
Lemma row_loop_within : forall alo blo bhi i j2len js new best,
  alo <= i ->
  Forall (length_within (i - alo) blo bhi) j2len ->
  Forall (length_within (S i - alo) blo bhi) new ->
  block_within alo (S i) blo bhi best ->
  let '(new', best') := Difflib.row_loop js i blo bhi j2len new best in
  Forall (length_within (S i - alo) blo bhi) new'
  /\ block_within alo (S i) blo bhi best'.
Proof.
  intros alo blo bhi i j2len js. induction js as [|j js IH];
    intros new best Hi Hd Hn Hb; cbn [Difflib.row_loop].
  - auto.
  - destruct (j <? blo) eqn:E1; [apply IH; assumption|].
    destruct (bhi <=? j) eqn:E2; [auto|].
    apply Nat.ltb_ge in E1. apply Nat.leb_gt in E2.
    destruct best as [[bi bj] bk].
    destruct (lengths_before_within (i - alo) blo bhi j2len j Hd E1) as [H1 H2].
    apply IH; try assumption.
    + constructor; [|assumption]. unfold length_within. lia.
    + destruct (bk <? Difflib.lengths_before j2len j + 1); [|assumption].
      unfold block_within. lia.
Qed.

Lemma block_within_top : forall alo top top' blo bhi best,
  top <= top' -> block_within alo top blo bhi best ->
  block_within alo top' blo bhi best.
Proof.
  intros alo top top' blo bhi [[i j] k] H. unfold block_within. lia.
Qed.

Lemma rows_loop_within : forall alo blo bhi n i j2len best,
  alo <= i ->
  Forall (length_within (i - alo) blo bhi) j2len ->
  block_within alo i blo bhi best ->
  block_within alo (i + n) blo bhi
    (Difflib.rows_loop a b (seq i n) blo bhi j2len best).
Proof.
  intros alo blo bhi n. induction n as [|n IH]; intros i j2len best Hi Hd Hb.
  - rewrite Nat.add_0_r. exact Hb.
  - cbn [seq Difflib.rows_loop].
    pose proof (row_loop_within alo blo bhi i j2len
                  (Difflib.b2j b (nth i a [])) [] best Hi Hd
                  (Forall_nil _)
                  (block_within_top alo i (S i) blo bhi best
                     (Nat.le_succ_diag_r i) Hb)) as H.
    destruct (Difflib.row_loop (Difflib.b2j b (nth i a [])) i blo bhi j2len []
                best) as [new best'].
    destruct H as [H1 H2].
    replace (i + S n) with (S i + n) by lia.
    apply IH; [lia | exact H1 | exact H2].
Qed.

Lemma extend_left_within : forall alo blo besti bestj bestsize,
  alo <= besti -> blo <= bestj ->
  let '(i, j, k) := Difflib.extend_left a b alo blo besti bestj bestsize in
  alo <= i /\ blo <= j /\ i + k = besti + bestsize
  /\ j + k = bestj + bestsize.
Proof.
  intros alo blo besti. induction besti as [|i' IH];
    intros bestj bestsize Hi Hj; cbn [Difflib.extend_left].
  - lia.
  - destruct bestj as [|j']; [lia|].
    destruct ((alo <? S i') && (blo <? S j')
              && str_eqb (nth i' a []) (nth j' b [])) eqn:E; [|lia].
    apply andb_prop in E. destruct E as [E _].
    apply andb_prop in E. destruct E as [E1 E2].
    apply Nat.ltb_lt in E1, E2.
    specialize (IH j' (S bestsize)).
    destruct (Difflib.extend_left a b alo blo i' j' (S bestsize))
      as [[i j] k].
    lia.
Qed.

Lemma extend_right_within : forall fuel ahi bhi besti bestj bestsize,
  besti + bestsize <= ahi -> bestj + bestsize <= bhi ->
  let k := Difflib.extend_right a b fuel ahi bhi besti bestj bestsize in
  besti + k <= ahi /\ bestj + k <= bhi.
Proof.
  induction fuel as [|fuel IH]; intros ahi bhi besti bestj bestsize Hi Hj;
    cbn [Difflib.extend_right].
  - lia.
  - destruct ((besti + bestsize <? ahi) && (bestj + bestsize <? bhi)
              && str_eqb (nth (besti + bestsize) a [])
                         (nth (bestj + bestsize) b [])) eqn:E; [|lia].
    apply andb_prop in E. destruct E as [E _].
    apply andb_prop in E. destruct E as [E1 E2].
    apply Nat.ltb_lt in E1, E2. apply IH; lia.
Qed.

(** The block that [find_longest_match] returns lies in the region it
    was asked to search. *)
Lemma find_longest_match_within : forall alo ahi blo bhi,
  alo <= ahi -> blo <= bhi ->
  block_within alo ahi blo bhi (Difflib.find_longest_match a b alo ahi blo bhi).
Proof.
  intros alo ahi blo bhi Ha Hb. unfold Difflib.find_longest_match.
  pose proof (rows_loop_within alo blo bhi (ahi - alo) alo [] (alo, blo, 0)
                (Nat.le_refl alo) (Forall_nil _)) as H.
  replace (alo + (ahi - alo)) with ahi in H by lia.
  specialize (H ltac:(unfold block_within; lia)).
  destruct (Difflib.rows_loop a b (seq alo (ahi - alo)) blo bhi [] (alo, blo, 0))
    as [[i j] k].
  unfold block_within in H.
  pose proof (extend_left_within alo blo i j k ltac:(lia) ltac:(lia)) as H1.
  destruct (Difflib.extend_left a b alo blo i j k) as [[i' j'] k'].
  pose proof (extend_right_within ahi ahi bhi i' j' k' ltac:(lia) ltac:(lia))
    as H2.
  unfold block_within. cbv zeta in H2. lia.
Qed.

(** Each turn of the queue loop lowers the weight of the queue. *)
Lemma blocks_loop_ends : forall fuel queue matching_blocks,
  Forall region_ok queue -> queue_weight queue <= fuel ->
  exists blocks, Difflib.blocks_loop a b fuel queue matching_blocks = Some blocks.
Proof.
  induction fuel as [|fuel IH]; intros queue matching_blocks Hq Hw.
  - destruct queue as [|[[[alo ahi] blo] bhi] queue].
    + eexists. reflexivity.
    + simpl in Hw. lia.
  - destruct queue as [|[[[alo ahi] blo] bhi] queue].
    + eexists. reflexivity.
    + cbn [Difflib.blocks_loop]. inversion Hq as [|x l Hr Hq']. subst.
      unfold region_ok in Hr. destruct Hr as [Ha Hb].
      pose proof (find_longest_match_within alo ahi blo bhi Ha Hb) as H.
      destruct (Difflib.find_longest_match a b alo ahi blo bhi) as [[i j] k].
      unfold block_within in H. cbn [queue_weight fold_right] in Hw.
      fold (queue_weight queue) in Hw.
      destruct (Nat.eqb_spec k 0) as [->|Hk].
      * apply IH; [assumption | lia].
      * apply IH.
        -- destruct ((i + k <? ahi) && (j + k <? bhi));
             destruct ((alo <? i) && (blo <? j));
             repeat (constructor; [unfold region_ok; lia|]); assumption.
        -- destruct ((i + k <? ahi) && (j + k <? bhi));
             destruct ((alo <? i) && (blo <? j));
             cbn [queue_weight fold_right]; fold (queue_weight queue); lia.
Qed.

Lemma get_matching_blocks_ends :
  exists blocks, Difflib.get_matching_blocks a b = Some blocks.
Proof.
  unfold Difflib.get_matching_blocks.
  destruct (blocks_loop_ends (2 * length a + 1) [(0, length a, 0, length b)] [])
    as [blocks ->].
  - constructor; [unfold region_ok; lia | constructor].
  - cbn [queue_weight fold_right]. lia.
  - eexists. reflexivity.
Qed.

Lemma unified_diff_ends : exists diff, Difflib.unified_diff a b = Some diff.
Proof.
  unfold Difflib.unified_diff, Difflib.get_grouped_opcodes, Difflib.get_opcodes.
  destruct get_matching_blocks_ends as [blocks ->]. cbv beta iota.
  destruct (Difflib.groups_loop _ _ _); eexists; reflexivity.
Qed.

End Termination.

(** X7. [compare_configs] returns a list for every two inputs: the queue
    of regions that the sequence matcher works through is empty after at
    most [2 * len(before) + 1] turns. *)
Theorem compare_configs_returns : forall before after,
  exists diff, compare_configs before after = Some diff.
Proof.
  intros before after. unfold compare_configs.
  destruct (unified_diff_ends before after) as [diff ->].
  eexists. reflexivity.
Qed.

(* ------------------------------------------------------------------ *)
(** ** The differ: where the lines of a diff come from *)

Lemma in_slice : forall (l : list str) i1 i2 x,
  In x (Difflib.slice l i1 i2) -> In x l.
Proof.
  intros l i1 i2 x H. unfold Difflib.slice in H.
  rewrite <- (firstn_skipn i1 l). apply in_or_app. right.
  rewrite <- (firstn_skipn (i2 - i1) (skipn i1 l)). apply in_or_app.
  left. exact H.
Qed.

Lemma opcode_lines_origin : forall a b c line,
  In line (Difflib.opcode_lines a b c) -> diff_line_of a b line.
Proof.
  intros a b c line. unfold Difflib.opcode_lines, diff_line_of.
  destruct (Difflib.op_tag c); rewrite ?in_app_iff, !in_map_iff;
    intros H; repeat destruct H as [H|H]; destruct H as (l & <- & H);
    apply in_slice in H; eauto 6.
Qed.

Lemma hunk_origin : forall a b group line,
  In line (Difflib.hunk a b group) -> diff_line_of a b line.
Proof.
  intros a b group line. unfold Difflib.hunk.
  destruct group as [|first rest]; [intros []|].
  destruct (rev (first :: rest)) as [|last r]; [intros []|].
  intros [<-|H].
  - left. reflexivity.
  - apply in_flat_map in H. destruct H as (c & _ & H).
    apply (opcode_lines_origin _ _ _ _ H).
Qed.

Lemma unified_diff_line_origin : forall before after diff line,
  Difflib.unified_diff before after = Some diff ->
  In line diff ->
  is_file_header line = true \/ diff_line_of before after line.
Proof.
  intros before after diff line. unfold Difflib.unified_diff.
  destruct (Difflib.get_grouped_opcodes before after 3) as [groups|];
    [|discriminate].
  destruct groups as [|g groups]; intros E H; injection E as <-;
    [destruct H|].
  destruct H as [<-|[<-|H]]; [left; reflexivity | left; reflexivity |].
  right. apply in_app_iff in H. destruct H as [H|H].
  - apply (hunk_origin _ _ _ _ H).
  - apply in_flat_map in H. destruct H as (group & _ & H).
    apply (hunk_origin _ _ _ _ H).
Qed.

(** X8. Every line of a diff is a hunk header, a line of [after] behind
    [+], or a line of [before] behind [-] or behind a space; no line of
    the result starts with [---] or [+++]. *)
Theorem compare_configs_line_origin : forall before after diff line,
  compare_configs before after = Some diff ->
  In line diff ->
  diff_line_of before after line /\ is_file_header line = false.
Proof.
  intros before after diff line Hd Hin. unfold compare_configs in Hd.
  destruct (Difflib.unified_diff before after) as [d|] eqn:E;
    [|discriminate].
  injection Hd as <-. apply filter_In in Hin. destruct Hin as [Hin Hh].
  apply negb_true_iff in Hh. split; [|exact Hh].
  destruct (unified_diff_line_origin before after d line E Hin) as [Hc|Ho];
    [congruence | exact Ho].
Qed.

Lemma slice_all : forall l : list str, Difflib.slice l 0 (length l) = l.
Proof.
  intros l. unfold Difflib.slice. rewrite Nat.sub_0_r. cbn [skipn].
  apply firstn_all.
Qed.

Lemma added_lines_filter : forall l : list str,
  filter (fun line => negb (is_file_header line)) (List.map (app (lit "+")) l)
  = List.map (app (lit "+"))
      (filter (fun line => negb (startswith (lit "++") line)) l).
Proof.
  induction l as [|x l IH]; [reflexivity|].
  cbn [List.map filter]. rewrite IH.
  assert (E : is_file_header (lit "+" ++ x) = startswith (lit "++") x)
    by reflexivity.
  rewrite E. destruct (startswith (lit "++") x); reflexivity.
Qed.

Lemma removed_lines_filter : forall l : list str,
  filter (fun line => negb (is_file_header line)) (List.map (app (lit "-")) l)
  = List.map (app (lit "-"))
      (filter (fun line => negb (startswith (lit "--") line)) l).
Proof.
  induction l as [|x l IH]; [reflexivity|].
  cbn [List.map filter]. rewrite IH.
  assert (E : is_file_header (lit "-" ++ x) = startswith (lit "--") x).
  { unfold is_file_header. change (lit "-" ++ x) with (45%N :: x).
    change (lit "---") with (45%N :: lit "--").
    change (lit "+++") with (43%N :: lit "++").
    cbn [startswith]. change (45 =? 45)%N with true. change (43 =? 45)%N with false.
    cbn [andb]. apply orb_false_r. }
  rewrite E. destruct (startswith (lit "--") x); reflexivity.
Qed.

Lemma header_kept : forall s, is_file_header (lit "@@ -" ++ s) = false.
Proof. reflexivity. Qed.

Lemma filter_diff_of_one_group : forall header lines,
  is_file_header header = false ->
  filter (fun line => negb (is_file_header line))
         (lit "--- " :: lit "+++ " :: header :: lines)
  = header :: filter (fun line => negb (is_file_header line)) lines.
Proof.
  intros header lines H. cbn [filter].
  change (is_file_header (lit "--- ")) with true.
  change (is_file_header (lit "+++ ")) with true.
  rewrite H. reflexivity.
Qed.

Lemma get_opcodes_all_added : forall after,
  after <> [] ->
  Difflib.get_opcodes [] after
  = Some [Difflib.Op Difflib.Insert 0 0 0 (length after)].
Proof.
  intros after H.
  assert (Hn : (0 <? length after) = true).
  { apply Nat.ltb_lt. destruct after; [contradiction | simpl; lia]. }
  unfold Difflib.get_opcodes, Difflib.get_matching_blocks.
  cbn [length Nat.mul Nat.add Difflib.blocks_loop Difflib.find_longest_match
       Nat.sub seq Difflib.rows_loop Difflib.extend_left Difflib.extend_right
       Nat.eqb Difflib.sort_blocks Difflib.merge_adjacent app
       Difflib.opcodes_loop].
  rewrite Nat.ltb_irrefl, Hn. reflexivity.
Qed.

(** The range of a hunk that starts at the first line: [1] for one
    line, [1,n] for [n] lines. *)
Lemma format_range_from_start : forall n,
  n <> 0 ->
  Difflib.format_range_unified 0 n
  = if n =? 1 then lit "1" else lit "1," ++ str_of_int (Z.of_nat n).
Proof.
  intros n H. unfold Difflib.format_range_unified.
  rewrite Nat.sub_0_r. destruct (n =? 1); [reflexivity|].
  rewrite (proj2 (Nat.eqb_neq n 0) H). reflexivity.
Qed.

Lemma compare_configs_from_empty : forall after,
  after <> [] ->
  compare_configs [] after
  = Some ((lit "@@ -0,0 +" ++ Difflib.format_range_unified 0 (length after)
           ++ lit " @@")
          :: List.map (app (lit "+"))
               (filter (fun line => negb (startswith (lit "++") line)) after)).
Proof.
  intros after H. unfold compare_configs, Difflib.unified_diff,
    Difflib.get_grouped_opcodes.
  rewrite get_opcodes_all_added by assumption.
  cbn [Difflib.trim_first Difflib.trim_last Difflib.groups_loop
       Difflib.is_equal andb app flat_map].
  unfold Difflib.hunk.
  cbn [rev app Difflib.op_i1 Difflib.op_i2 Difflib.op_j1 Difflib.op_j2
       flat_map].
  unfold Difflib.opcode_lines at 1. cbn [Difflib.op_tag Difflib.op_j1 Difflib.op_j2].
  rewrite slice_all, !app_nil_r.
  rewrite filter_diff_of_one_group by apply header_kept.
  rewrite added_lines_filter. reflexivity.
Qed.

(** X9. Compared with the empty configuration, a configuration of [n]
    lines gives one hunk: its header is [@@ -0,0 +1 @@] if [n] is 1 and
    [@@ -0,0 +1,n @@] otherwise, and it lists the lines behind [+] in
    their order; a line that itself starts with [++] is missing from the
    hunk, because behind the [+] it looks like a file header. *)
Theorem compare_configs_all_added : forall after,
  after <> [] ->
  let n := length after in
  let header :=
    if n =? 1 then lit "@@ -0,0 +1 @@"
    else lit "@@ -0,0 +1," ++ str_of_int (Z.of_nat n) ++ lit " @@" in
  compare_configs [] after
  = Some (header
          :: List.map (app (lit "+"))
               (filter (fun line => negb (startswith (lit "++") line)) after)).
Proof.
  intros after H n header. subst n header.
  rewrite compare_configs_from_empty by exact H.
  rewrite format_range_from_start by (destruct after; [contradiction | discriminate]).
  destruct (length after =? 1); reflexivity.
Qed.

Lemma compare_configs_all_added_witness :
  compare_configs [] [lit "-A INPUT -j DROP"]
  = Some [lit "@@ -0,0 +1 @@"; lit "+-A INPUT -j DROP"]
  /\ compare_configs [] [lit "-A INPUT -j DROP"; lit "++ notes"]
     = Some [lit "@@ -0,0 +1,2 @@"; lit "+-A INPUT -j DROP"].
Proof.
  split.
  - exact (compare_configs_all_added [lit "-A INPUT -j DROP"]
             ltac:(discriminate)).
  - exact (compare_configs_all_added [lit "-A INPUT -j DROP"; lit "++ notes"]
             ltac:(discriminate)).
Defined.

Lemma rows_loop_empty_b : forall a rows j2len best,
  Difflib.rows_loop a [] rows 0 0 j2len best = best.
Proof.
  intros a rows. induction rows as [|i rows IH]; intros j2len best;
    [reflexivity|].
  cbn [Difflib.rows_loop]. unfold Difflib.b2j, Difflib.popular.
  cbn [length Nat.leb andb Difflib.indices_from Difflib.row_loop].
  destruct (nth i a []); apply IH.
Qed.

Lemma find_longest_match_empty_b : forall a ahi,
  Difflib.find_longest_match a [] 0 ahi 0 0 = (0, 0, 0).
Proof.
  intros a ahi. unfold Difflib.find_longest_match.
  rewrite rows_loop_empty_b. cbn [Difflib.extend_left].
  destruct ahi; cbn [Difflib.extend_right]; [reflexivity|].
  rewrite Nat.ltb_irrefl, andb_false_r. reflexivity.
Qed.

Lemma get_opcodes_all_removed : forall before,
  before <> [] ->
  Difflib.get_opcodes before []
  = Some [Difflib.Op Difflib.Delete 0 (length before) 0 0].
Proof.
  intros before H.
  assert (Hn : (0 <? length before) = true).
  { apply Nat.ltb_lt. destruct before; [contradiction | simpl; lia]. }
  unfold Difflib.get_opcodes, Difflib.get_matching_blocks.
  rewrite Nat.add_1_r. cbn [Difflib.blocks_loop].
  rewrite find_longest_match_empty_b. cbn [Nat.eqb].
  destruct (2 * length before); cbn [Difflib.blocks_loop];
    cbn [Difflib.sort_blocks Difflib.merge_adjacent Nat.eqb app length
         Difflib.opcodes_loop Nat.add];
    rewrite Hn; reflexivity.
Qed.

Lemma compare_configs_to_empty : forall before,
  before <> [] ->
  compare_configs before []
  = Some ((lit "@@ -" ++ Difflib.format_range_unified 0 (length before)
           ++ lit " +0,0 @@")
          :: List.map (app (lit "-"))
               (filter (fun line => negb (startswith (lit "--") line)) before)).
Proof.
  intros before H. unfold compare_configs, Difflib.unified_diff,
    Difflib.get_grouped_opcodes.
  rewrite get_opcodes_all_removed by assumption.
  cbn [Difflib.trim_first Difflib.trim_last Difflib.groups_loop
       Difflib.is_equal andb app flat_map].
  unfold Difflib.hunk.
  cbn [rev app Difflib.op_i1 Difflib.op_i2 Difflib.op_j1 Difflib.op_j2
       flat_map].
  unfold Difflib.opcode_lines at 1. cbn [Difflib.op_tag Difflib.op_i1 Difflib.op_i2].
  rewrite slice_all, !app_nil_r.
  rewrite filter_diff_of_one_group by apply header_kept.
  rewrite removed_lines_filter. reflexivity.
Qed.

(** X10. Compared with the empty configuration the other way round, a
    configuration of [n] lines gives one hunk: its header is
    [@@ -1 +0,0 @@] if [n] is 1 and [@@ -1,n +0,0 @@] otherwise, and it
    lists the lines behind [-] in their order; a line that itself starts
    with [--] is missing from the hunk. *)
Theorem compare_configs_all_removed : forall before,
  before <> [] ->
  let n := length before in
  let header :=
    if n =? 1 then lit "@@ -1 +0,0 @@"
    else lit "@@ -1," ++ str_of_int (Z.of_nat n) ++ lit " +0,0 @@" in
  compare_configs before []
  = Some (header
          :: List.map (app (lit "-"))
               (filter (fun line => negb (startswith (lit "--") line)) before)).
Proof.
  intros before H n header. subst n header.
  rewrite compare_configs_to_empty by exact H.
  rewrite format_range_from_start by (destruct before; [contradiction | discriminate]).
  destruct (length before =? 1); [reflexivity|].
  rewrite <- !app_assoc. reflexivity.
Qed.

Lemma compare_configs_all_removed_witness :
  compare_configs [lit "-A INPUT -j DROP"] []
  = Some [lit "@@ -1 +0,0 @@"; lit "--A INPUT -j DROP"]
  /\ compare_configs [lit "--dport 80 is open"; lit "-A INPUT -j DROP"] []
     = Some [lit "@@ -1,2 +0,0 @@"; lit "--A INPUT -j DROP"].
Proof.
  split.
  - exact (compare_configs_all_removed [lit "-A INPUT -j DROP"]
             ltac:(discriminate)).
  - exact (compare_configs_all_removed
             [lit "--dport 80 is open"; lit "-A INPUT -j DROP"]
             ltac:(discriminate)).
Defined.

(* ------------------------------------------------------------------ *)
(** ** Normalising, then comparing *)

Lemma unified_diff_self : forall x, Difflib.unified_diff x x = Some [].
Proof.
  intros x. unfold Difflib.unified_diff.
  destruct x as [|y x]; [reflexivity|].
  rewrite get_grouped_opcodes_self by discriminate. reflexivity.
Qed.

(** X11. Two configurations with the same lines in another order have the
    same normal form, and the comparison of the normal forms reports no
    difference. *)
Theorem reordered_config_no_differences : forall before after,
  Permutation before after ->
  normalize_iptables_config before = normalize_iptables_config after
  /\ compare_configs (normalize_iptables_config before)
                     (normalize_iptables_config after) = Some [].
Proof.
  intros before after H.
  assert (E : normalize_iptables_config before = normalize_iptables_config after).
  { unfold normalize_iptables_config. apply sorted_of_permutation.
    rewrite !normalize_loop_filter_map. apply Permutation_map.
    apply filter_permutation. assumption. }
  split; [assumption|]. rewrite E.
  unfold compare_configs. rewrite unified_diff_self. reflexivity.
Qed.

Lemma reordered_config_no_differences_witness :
  let before := [lit "-A INPUT -j DROP"; lit "-A FORWARD -j DROP"] in
  let after := [lit "-A FORWARD -j DROP"; lit "-A INPUT -j DROP"] in
  normalize_iptables_config before = normalize_iptables_config after
  /\ compare_configs (normalize_iptables_config before)
                     (normalize_iptables_config after) = Some [].
Proof.
  intros before after.
  exact (reordered_config_no_differences before after (perm_swap _ _ [])).
Defined.

(** X12. A blank line or a comment line put anywhere into a
    configuration does not show in the comparison of the normal forms. *)
Theorem comment_lines_no_differences : forall pre line post,
  strip line = [] \/ startswith (lit "#") (strip line) = true ->
  compare_configs (normalize_iptables_config (pre ++ post))
                  (normalize_iptables_config (pre ++ line :: post)) = Some [].
Proof.
  intros pre line post H.
  assert (Hr : is_rule_line line = false).
  { unfold is_rule_line. destruct H as [-> | H]; [reflexivity|].
    rewrite H. destruct (strip line); reflexivity. }
  assert (E : normalize_iptables_config (pre ++ line :: post)
              = normalize_iptables_config (pre ++ post)).
  { unfold normalize_iptables_config. rewrite !normalize_loop_filter_map.
    rewrite !filter_app. cbn [filter]. rewrite Hr. reflexivity. }
  rewrite E. unfold compare_configs. rewrite unified_diff_self. reflexivity.
Qed.

Lemma comment_lines_no_differences_witness :
  let pre := [lit "-A INPUT -j DROP"] in
  let line := lit "  # allow ssh" in
  let post := [lit "-A INPUT -p tcp --dport 22 -j ACCEPT"] in
  compare_configs (normalize_iptables_config (pre ++ post))
                  (normalize_iptables_config (pre ++ line :: post)) = Some [].
Proof.
  intros pre line post.
  apply (comment_lines_no_differences pre line post).
  right. vm_compute. reflexivity.
Defined.

Lemma compare_configs_line_origin_witness :
  let before := [lit "-A INPUT -j DROP"] in
  let after := [lit "-A INPUT -j DROP"; lit "-A OUTPUT -j DROP"] in
  let diff := [lit "@@ -1 +1,2 @@"; lit " -A INPUT -j DROP";
               lit "+-A OUTPUT -j DROP"] in
  compare_configs before after = Some diff
  /\ In (lit "+-A OUTPUT -j DROP") diff
  /\ diff_line_of before after (lit "+-A OUTPUT -j DROP")
  /\ is_file_header (lit "+-A OUTPUT -j DROP") = false.
Proof.
  intros before after diff.
  assert (H1 : compare_configs before after = Some diff)
    by (vm_compute; reflexivity).
  assert (H2 : In (lit "+-A OUTPUT -j DROP") diff)
    by (right; right; left; reflexivity).
  split; [exact H1|]. split; [exact H2|].
  exact (compare_configs_line_origin before after diff
           (lit "+-A OUTPUT -j DROP") H1 H2).
Defined.

(* ------------------------------------------------------------------ *)
(** ** More on the risk classifier *)

Lemma detect_security_risks_app : forall l1 l2,
  detect_security_risks (l1 ++ l2)
  = match detect_security_risks l1, detect_security_risks l2 with
    | Some findings1, Some findings2 => Some (findings1 ++ findings2)
    | _, _ => None
    end.
Proof.
  induction l1 as [|line rest IH]; intros l2.
  - cbn [app detect_security_risks].
    destruct (detect_security_risks l2); reflexivity.
  - cbn [app detect_security_risks]. rewrite IH.
    destruct (startswith (lit "+") line); [|reflexivity].
    destruct (port_findings line) as [findings|]; [|reflexivity].
    destruct (detect_security_risks rest) as [findings1|]; [|reflexivity].
    destruct (detect_security_risks l2) as [findings2|]; [|reflexivity].
    rewrite <- !app_assoc. reflexivity.
Qed.

(** X13. The classifier works line by line.  On a sequence of diff lines
    made of two parts it raises [ValueError] if it does on one of the
    parts, and it returns the findings of the first part followed by
    those of the second otherwise.  The lines that do not start with [+]
    (removed rules, context, hunk headers) can be left out without a
    change of the outcome. *)
Theorem detect_security_risks_line_by_line : forall l1 l2,
  detect_security_risks (l1 ++ l2)
  = match detect_security_risks l1, detect_security_risks l2 with
    | Some findings1, Some findings2 => Some (findings1 ++ findings2)
    | _, _ => None
    end
  /\ detect_security_risks (filter is_addition l1) = detect_security_risks l1.
Proof.
  intros l1 l2. split; [apply detect_security_risks_app|].
  induction l1 as [|line rest IH]; [reflexivity|].
  cbn [filter detect_security_risks]. unfold is_addition at 1.
  destruct (startswith (lit "+") line) eqn:E; [|exact IH].
  cbn [detect_security_risks]. rewrite E, IH. reflexivity.
Qed.

Lemma startswith_app : forall p s, startswith p (p ++ s) = true.
Proof.
  induction p as [|c p IH]; intros s; [reflexivity|].
  cbn [app startswith]. rewrite N.eqb_refl. apply IH.
Qed.

Lemma startswith_app2 : forall p q s, startswith (p ++ q) (p ++ q ++ s) = true.
Proof. intros p q s. rewrite app_assoc. apply startswith_app. Qed.

Lemma range_findings_quote : forall line ports f,
  In f (range_findings line ports) -> quotes f line.
Proof.
  intros line ports f. induction ports as [|port ports IH]; [intros []|].
  cbn [range_findings]. destruct (dict_get critical_ports port); [|exact IH].
  intros [<-|H]; [|exact (IH H)].
  left. unfold range_port_message. apply startswith_app2.
Qed.

Lemma port_findings_quote : forall line findings f,
  port_findings line = Some findings -> In f findings -> quotes f line.
Proof.
  intros line findings f. unfold port_findings.
  destruct (Re.search dport_pattern line) as [m|]; [|intros [= <-] []].
  assert (Hsingle :
    match Re.group m 1 with
    | Some g1 =>
        match int_of_str g1 with
        | Some port =>
            match dict_get critical_ports port with
            | Some description => Some [single_port_message line description]
            | None => Some []
            end
        | None => None
        end
    | None => None
    end = Some findings -> In f findings -> quotes f line).
  { destruct (Re.group m 1) as [g1|]; [|discriminate].
    destruct (int_of_str g1) as [port|]; [|discriminate].
    destruct (dict_get critical_ports port); intros [= <-]; [|intros []].
    intros [<-|[]]. left. unfold single_port_message. apply startswith_app2. }
  destruct (Re.group m 2) as [[|c g2]|]; try exact Hsingle.
  destruct (Re.group m 1) as [g1|]; [|discriminate].
  destruct (int_of_str g1); [|discriminate].
  destruct (int_of_str (c :: g2)); [|discriminate].
  intros [= <-]. apply range_findings_quote.
Qed.

Lemma pattern_findings_quote : forall patterns line f,
  In f (pattern_findings_in patterns line) -> quotes f line.
Proof.
  intros patterns line f.
  induction patterns as [|[pattern description] patterns IH]; [intros []|].
  cbn [pattern_findings_in]. destruct (Re.found pattern line); [|exact IH].
  intros [<-|H]; [|exact (IH H)].
  right. unfold pattern_message. apply startswith_app2.
Qed.

Lemma findings_quote : forall diff_lines findings f,
  detect_security_risks diff_lines = Some findings ->
  In f findings ->
  exists line, In line diff_lines /\ is_addition line = true /\ quotes f line.
Proof.
  induction diff_lines as [|line rest IH]; intros findings f;
    [intros [= <-] []|].
  cbn [detect_security_risks]. fold (is_addition line).
  destruct (is_addition line) eqn:Ha.
  - destruct (port_findings line) as [ports|] eqn:Ep; [|discriminate].
    destruct (detect_security_risks rest) as [others|]; [|discriminate].
    intros [= <-]. rewrite !in_app_iff. intros [H|[H|H]].
    + exists line. split; [left; reflexivity|]. split; [exact Ha|].
      apply (port_findings_quote line ports f Ep H).
    + exists line. split; [left; reflexivity|]. split; [exact Ha|].
      apply (pattern_findings_quote risky_patterns). exact H.
    + destruct (IH others f eq_refl H) as (l & H1 & H2).
      exists l. split; [right|]; assumption.
  - intros E H. destruct (IH findings f E H) as (l & H1 & H2).
    exists l. split; [right|]; assumption.
Qed.

(** X14. Every finding that the classifier returns on the diff of two
    configurations quotes a rule of the configuration after the change,
    behind its [+]: the text of the finding is one of the two tags, then
    that diff line stripped.  No finding is about a removed or an
    unchanged rule. *)
Theorem findings_quote_rules_of_after : forall before after diff findings f,
  compare_configs before after = Some diff ->
  detect_security_risks diff = Some findings ->
  In f findings ->
  exists rule, In rule after /\ quotes f (lit "+" ++ rule).
Proof.
  intros before after diff findings f Hd Hr Hf.
  destruct (findings_quote diff findings f Hr Hf) as (line & Hin & Ha & Hq).
  unfold compare_configs in Hd.
  destruct (Difflib.unified_diff before after) as [d|] eqn:E;
    [|discriminate].
  injection Hd as <-. apply filter_In in Hin. destruct Hin as [Hin Hh].
  apply negb_true_iff in Hh.
  destruct (unified_diff_line_origin before after d line E Hin) as [Hc|Ho];
    [congruence|].
  destruct Ho as [H|[(l & Hl & ->)|[(l & Hl & ->)|(l & Hl & ->)]]].
  - destruct line as [|c line]; [discriminate|].
    unfold is_addition in Ha. unfold is_hunk_header in H.
    change (lit "+") with [43%N] in Ha. rewrite startswith_one in Ha.
    apply N.eqb_eq in Ha. subst c. discriminate H.
  - exists l. split; assumption.
  - discriminate Ha.
  - discriminate Ha.
Qed.

Lemma findings_quote_rules_of_after_witness :
  let before := [lit "-A INPUT -j DROP"] in
  let after := [lit "-A INPUT -j DROP";
                lit "-A INPUT -p tcp --dport 22 -j ACCEPT"] in
  let diff := [lit "@@ -1 +1,2 @@"; lit " -A INPUT -j DROP";
               lit "+-A INPUT -p tcp --dport 22 -j ACCEPT"] in
  let f := single_port_message (lit "+-A INPUT -p tcp --dport 22 -j ACCEPT")
             (lit "SSH - Used for remote access, often targeted by attackers.") in
  compare_configs before after = Some diff
  /\ detect_security_risks diff = Some [f]
  /\ In f [f]
  /\ exists rule, In rule after /\ quotes f (lit "+" ++ rule).
Proof.
  intros before after diff f.
  assert (H1 : compare_configs before after = Some diff)
    by (vm_compute; reflexivity).
  assert (H2 : detect_security_risks diff = Some [f])
    by (vm_compute; reflexivity).
  assert (H3 : In f [f]) by (left; reflexivity).
  split; [exact H1|]. split; [exact H2|]. split; [exact H3|].
  exact (findings_quote_rules_of_after before after diff [f] f H1 H2 H3).
Defined.

(* ------------------------------------------------------------------ *)
(** ** More on the impact scorer *)

Lemma all_below_spec : forall n test,
  all_below n test = true -> forall i, i < n -> test i = true.
Proof.
  induction n as [|n IH]; intros test H i Hi; [lia|].
  cbn [all_below] in H. apply andb_prop in H. destruct H as [H1 H2].
  destruct (Nat.eq_dec i n) as [->|Hn]; [assumption|].
  apply IH; [assumption | lia].
Qed.

(** The two tables: the baseline up to 100 counted lines, and the score
    of every pair of counts whose sum is at most 100. *)
Lemma small_baseline_table : all_below 101 small_baseline_ok = true.
Proof. vm_compute. reflexivity. Qed.

Lemma small_score_table :
  all_below 101 (fun adds => all_below (101 - adds) (small_score_ok adds)) = true.
Proof. vm_compute. reflexivity. Qed.

Lemma small_baseline : forall total,
  (0 <= total <= 100)%Z -> max_expected_score total = Float.of_int 50.
Proof.
  intros total H. apply float_eqb_eq.
  rewrite <- (Z2Nat.id total) by lia.
  apply (all_below_spec 101 small_baseline_ok small_baseline_table). lia.
Qed.

Lemma small_score : forall adds rems total,
  (0 <= adds)%Z -> (0 <= rems)%Z -> (adds + rems <= total)%Z ->
  (total <= 100)%Z ->
  score_of_counts adds rems total
  = Float.of_int (Z.min 100 (3 * adds + 2 * rems)).
Proof.
  intros adds rems total Ha Hr Ht Hs.
  assert (E : score_of_counts adds rems total = score_of_counts adds rems 0).
  { unfold score_of_counts. rewrite (small_baseline total) by lia.
    reflexivity. }
  rewrite E. apply float_eqb_eq.
  rewrite <- (Z2Nat.id adds), <- (Z2Nat.id rems) by lia.
  apply (all_below_spec (101 - Z.to_nat adds) (small_score_ok (Z.to_nat adds)));
    [|lia].
  apply (all_below_spec 101
           (fun adds => all_below (101 - adds) (small_score_ok adds))
           small_score_table).
  lia.
Qed.

Lemma count_le : forall (f g : str -> bool) lines,
  (forall line, f line = true -> g line = true) ->
  (count f lines <= count g lines)%Z.
Proof.
  intros f g lines H. unfold count. apply inj_le.
  induction lines as [|line rest IH]; [reflexivity|].
  cbn [filter]. destruct (f line) eqn:E.
  - rewrite (H line E). cbn [length]. lia.
  - destruct (g line); cbn [length]; lia.
Qed.

Lemma changes_le_total : forall diff_lines,
  (sum_ones is_addition diff_lines + sum_ones is_removal diff_lines
   <= count (fun line => is_addition line || is_removal line
                         || is_context line) diff_lines)%Z.
Proof.
  intros diff_lines. rewrite !sum_ones_count, count_either. apply count_le.
  intros line E. rewrite E. reflexivity.
Qed.

Lemma chaos_score_of_counts : forall diff_lines,
  chaos_score (calculate_impact_metrics diff_lines)
  = score_of_counts
      (sum_ones is_addition diff_lines) (sum_ones is_removal diff_lines)
      (count (fun line => is_addition line || is_removal line
                          || is_context line) diff_lines).
Proof. reflexivity. Qed.

(** X15. For a diff of at most 100 counted lines (lines that start with
    [+], [-] or a space) the chaos score is exactly
    [min(100, 3 * additions + 2 * removals)]: the baseline is 50, and the
    rounding of the float operations leaves no error after [round]. *)
Theorem small_diff_chaos_score : forall diff_lines,
  (count (fun line => is_addition line || is_removal line || is_context line)
         diff_lines <= 100)%Z ->
  chaos_score (calculate_impact_metrics diff_lines)
  = Float.of_int
      (Z.min 100 (3 * count is_addition diff_lines
                  + 2 * count is_removal diff_lines)).
Proof.
  intros diff_lines H. rewrite chaos_score_of_counts.
  rewrite <- (sum_ones_count is_addition), <- (sum_ones_count is_removal).
  apply small_score.
  - apply sum_ones_nonneg.
  - apply sum_ones_nonneg.
  - apply changes_le_total.
  - exact H.
Qed.

Lemma small_diff_chaos_score_witness :
  let diff_lines := [lit "@@ -1,2 +1,2 @@"; lit " -A INPUT -j DROP";
                     lit "--A INPUT -p tcp --dport 23 -j ACCEPT";
                     lit "+-A INPUT -p tcp --dport 22 -j ACCEPT"] in
  (count (fun line => is_addition line || is_removal line || is_context line)
         diff_lines <= 100)%Z
  /\ chaos_score (calculate_impact_metrics diff_lines) = Float.of_int 5.
Proof.
  intros diff_lines.
  assert (H : (count (fun line => is_addition line || is_removal line
                                  || is_context line) diff_lines <= 100)%Z)
    by (apply Z.leb_le; vm_compute; reflexivity).
  split; [exact H|].
  exact (small_diff_chaos_score diff_lines H).
Defined.

Lemma sum_ones_none : forall test lines,
  (forall line, In line lines -> test line = false) ->
  sum_ones test lines = 0%Z.
Proof.
  intros test lines. induction lines as [|line rest IH]; intros H;
    [reflexivity|].
  cbn [sum_ones]. rewrite (H line) by (left; reflexivity).
  apply IH. intros l Hl. apply H. right. assumption.
Qed.

Lemma div_zero_by_large : forall y,
  Float.ltb (Float.of_int 50) y = true ->
  Float.div (S754_zero false) y = S754_zero false.
Proof.
  intros [[]|[]| |[] m e] H; try discriminate H; reflexivity.
Qed.

Lemma div_zero_by_baseline : forall total,
  Float.div (S754_zero false) (max_expected_score total) = S754_zero false.
Proof.
  intros [|p|p]; try reflexivity.
  unfold max_expected_score, Float.max.
  destruct (Float.ltb (Float.of_int 50) _) eqn:E; [|reflexivity].
  apply div_zero_by_large. exact E.
Qed.

(** X16. A diff without a line that starts with [+] or [-] has the score
    [0.0] and all counts 0, however many context lines and hunk headers it
    has. *)
Theorem no_changes_zero_score : forall diff_lines,
  (forall line, In line diff_lines ->
     is_addition line = false /\ is_removal line = false) ->
  calculate_impact_metrics diff_lines
  = {| chaos_score := S754_zero false; additions := 0; removals := 0;
       input_changes := 0; output_changes := 0; forward_changes := 0 |}.
Proof.
  intros diff_lines H. unfold calculate_impact_metrics.
  rewrite !sum_ones_none;
    try (intros line Hl; destruct (H line Hl) as [E1 E2];
         rewrite ?E1, ?E2; reflexivity).
  change (Float.add _ _) with (S754_zero false).
  rewrite div_zero_by_baseline. reflexivity.
Qed.

Lemma no_changes_zero_score_witness :
  calculate_impact_metrics [lit "@@ -1,2 +1,2 @@"; lit " -A INPUT -j DROP"]
  = {| chaos_score := S754_zero false; additions := 0; removals := 0;
       input_changes := 0; output_changes := 0; forward_changes := 0 |}.
Proof.
  apply (no_changes_zero_score
           [lit "@@ -1,2 +1,2 @@"; lit " -A INPUT -j DROP"]).
  intros line [<-|[<-|[]]]; split; reflexivity.
Defined.

(** X17. Each of the three chain counts lies between 0 and the number of
    changed lines, [additions + removals]. *)
Theorem chain_changes_bounded : forall diff_lines,
  let m := calculate_impact_metrics diff_lines in
  (0 <= input_changes m <= additions m + removals m)%Z
  /\ (0 <= output_changes m <= additions m + removals m)%Z
  /\ (0 <= forward_changes m <= additions m + removals m)%Z.
Proof.
  intros diff_lines m. subst m.
  cbn [calculate_impact_metrics input_changes output_changes forward_changes
       additions removals].
  rewrite !sum_ones_count, count_either.
  repeat split; try (unfold count; lia);
    apply count_le; intros line E; apply andb_prop in E; apply E.
Qed.

(* ------------------------------------------------------------------ *)
(** ** The bands of the report *)

Lemma band_table : all_below 101 band_ok = true.
Proof. vm_compute. reflexivity. Qed.

(** X18. The colour of the gauge and the assessment line of the report
    always name the same band, whatever the score is (a NaN included). *)
Theorem assessment_matches_color : forall chaos_score,
  exists k,
    k < 4
    /\ get_color_for_chaos chaos_score = nth k band_colors []
    /\ chaos_description chaos_score = nth k band_descriptions [].
Proof.
  intros x. unfold get_color_for_chaos, chaos_description.
  destruct (Float.ltb x (Float.of_int 25)); [exists 0; repeat split; lia|].
  destruct (Float.ltb x (Float.of_int 50)); [exists 1; repeat split; lia|].
  destruct (Float.ltb x (Float.of_int 75)); [exists 2; repeat split; lia|].
  exists 3; repeat split; lia.
Qed.

Lemma band_of_min : forall n, band (Z.min 100 n) = band n.
Proof.
  intros n. unfold band.
  destruct (Z.min_spec 100 n) as [[H1 ->]|[H1 ->]]; [|reflexivity].
  repeat match goal with
         | |- context [(?x <? ?y)%Z] => destruct (Z.ltb_spec x y); try lia
         end; reflexivity.
Qed.

(** X19. For a diff of at most 100 counted lines the band of the report
    is read off the counts: low below [3 * additions + 2 * removals = 25],
    moderate below 50, high below 75, extreme from 75 on; the colour and
    the assessment are those of that band. *)
Theorem small_diff_assessment : forall diff_lines,
  (count (fun line => is_addition line || is_removal line || is_context line)
         diff_lines <= 100)%Z ->
  let m := calculate_impact_metrics diff_lines in
  let k := band (3 * additions m + 2 * removals m) in
  get_color_for_chaos (chaos_score m) = nth k band_colors []
  /\ chaos_description (chaos_score m) = nth k band_descriptions [].
Proof.
  intros diff_lines H m k. subst m k. rewrite chaos_score_of_counts.
  cbn [additions removals calculate_impact_metrics].
  set (a := sum_ones is_addition diff_lines).
  set (r := sum_ones is_removal diff_lines).
  assert (Ha : (0 <= a)%Z) by apply sum_ones_nonneg.
  assert (Hr : (0 <= r)%Z) by apply sum_ones_nonneg.
  rewrite small_score by (assumption || apply changes_le_total).
  rewrite <- band_of_min.
  pose proof (all_below_spec 101 band_ok band_table
                (Z.to_nat (Z.min 100 (3 * a + 2 * r))) ltac:(lia)) as T.
  unfold band_ok in T. cbv zeta in T. rewrite Z2Nat.id in T by lia.
  apply andb_prop in T. destruct T as [T1 T2].
  split; apply str_eqb_eq; assumption.
Qed.

Lemma small_diff_assessment_witness :
  let diff_lines :=
    repeat (lit "+-A INPUT -p tcp --dport 22 -j ACCEPT") 9 in
  (count (fun line => is_addition line || is_removal line || is_context line)
         diff_lines <= 100)%Z
  /\ get_color_for_chaos (chaos_score (calculate_impact_metrics diff_lines))
     = lit "#FFC107"
  /\ chaos_description (chaos_score (calculate_impact_metrics diff_lines))
     = lit "Moderate impact, significant changes".
Proof.
  intros diff_lines.
  assert (H : (count (fun line => is_addition line || is_removal line
                                  || is_context line) diff_lines <= 100)%Z)
    by (apply Z.leb_le; vm_compute; reflexivity).
  split; [exact H|].
  exact (small_diff_assessment diff_lines H).
Defined.

(* ------------------------------------------------------------------ *)
(** ** The rule grouper *)

Example group_rules_example :
  group_rules (fun _ => false)
    [lit "@@ -1 +1,3 @@"; lit " -A INPUT -p tcp --dport 80 -j ACCEPT";
     lit "+-A INPUT -p tcp --dport 22 -j ACCEPT";
     lit "+-A OUTPUT -p tcp --dport 22 -j DROP";
     lit "--A INPUT -j DROP"]
  = [ lit "[bold blue]--- Rules Grouped by Port ---[/bold blue]";
      lit "[bold green]--dport 22 Rules[/bold green]:";
      lit "    +-A INPUT -p tcp --dport 22 -j ACCEPT";
      lit "    +-A OUTPUT -p tcp --dport 22 -j DROP";
      10%N :: lit "[bold blue]--- Rules Grouped by Chain ---[/bold blue]";
      lit "[bold green]Chain INPUT Rules[/bold green]:";
      lit "    +-A INPUT -p tcp --dport 22 -j ACCEPT";
      lit "[bold green]Chain OUTPUT Rules[/bold green]:";
      lit "    +-A OUTPUT -p tcp --dport 22 -j DROP" ].
Proof. vm_compute. reflexivity. Qed.

Lemma rules_of_append : forall d key value,
  Permutation (rules_of (dict_append d key value)) (value :: rules_of d).
Proof.
  unfold rules_of. induction d as [|[k values] d IH]; intros key value.
  - reflexivity.
  - cbn [dict_append]. destruct (str_eqb k key); cbn [flat_map snd].
    + rewrite <- app_assoc. cbn [app].
      symmetry. apply Permutation_middle.
    + rewrite IH. symmetry. apply Permutation_middle.
Qed.

Lemma rules_of_group_loop : forall key_of diff_lines grouped,
  Permutation
    (rules_of (group_loop key_of diff_lines grouped))
    (rules_of grouped
     ++ List.map strip
          (filter (fun line => is_addition line && has_key key_of line)
                  diff_lines)).
Proof.
  intros key_of. induction diff_lines as [|line rest IH]; intros grouped.
  - cbn. rewrite app_nil_r. reflexivity.
  - cbn [group_loop filter]. unfold is_addition at 1, has_key at 1.
    destruct (startswith (lit "+") line); [|apply IH].
    destruct (key_of line) as [key|]; [|apply IH].
    cbn [andb List.map]. rewrite IH, rules_of_append.
    apply Permutation_middle.
Qed.

Lemma group_lines_indented : forall heading d,
  (forall key, is_indented (heading key) = false) ->
  filter is_indented (group_lines heading d)
  = List.map (app (lit "    ")) (rules_of d).
Proof.
  intros heading d H. unfold group_lines, rules_of.
  induction d as [|[key rules] d IH]; [reflexivity|].
  cbn [flat_map snd]. rewrite filter_app, IH, map_app. f_equal.
  cbn [filter]. rewrite H.
  clear. induction rules as [|r rules IH]; [reflexivity|].
  cbn [List.map filter]. change (is_indented (lit "    " ++ r)) with true.
  rewrite IH. reflexivity.
Qed.

Lemma str_eqb_neq : forall a b, str_eqb a b = false -> a <> b.
Proof. intros a b H ->. rewrite str_eqb_refl in H. discriminate. Qed.

Lemma dict_append_keys : forall d key value k,
  In k (List.map fst (dict_append d key value))
  <-> k = key \/ In k (List.map fst d).
Proof.
  induction d as [|[k' values] d IH]; intros key value k; cbn [dict_append].
  - cbn. intuition.
  - destruct (str_eqb k' key) eqn:E; cbn [List.map fst In].
    + apply str_eqb_eq in E. subst. intuition.
    + rewrite IH. intuition.
Qed.

Lemma dict_append_nodup : forall d key value,
  NoDup (List.map fst d) -> NoDup (List.map fst (dict_append d key value)).
Proof.
  induction d as [|[k' values] d IH]; intros key value H; cbn [dict_append].
  - cbn. constructor; [intros [] | constructor].
  - inversion H as [|x l Hn Hd]. subst.
    destruct (str_eqb k' key) eqn:E; cbn [List.map fst].
    + constructor; assumption.
    + constructor; [|apply IH; assumption].
      rewrite dict_append_keys. intros [->|Hin]; [|contradiction].
      rewrite str_eqb_refl in E. discriminate.
Qed.

(** An item after an append: an old item of another key, or the item of
    the key with the value at its end. *)
Lemma dict_append_items : forall d key value k rules,
  NoDup (List.map fst d) ->
  In (k, rules) (dict_append d key value) ->
  (k <> key /\ In (k, rules) d)
  \/ (k = key /\ exists old, rules = old ++ [value]
                  /\ (In (key, old) d
                      \/ (old = [] /\ ~ In key (List.map fst d)))).
Proof.
  induction d as [|[k' values] d IH]; intros key value k rules Hn H;
    cbn [dict_append] in H.
  - destruct H as [[= <- <-]|[]]. right. split; [reflexivity|].
    exists []. split; [reflexivity|]. right. split; [reflexivity | intros []].
  - inversion Hn as [|x l Hk' Hd]. subst.
    destruct (str_eqb k' key) eqn:E.
    + apply str_eqb_eq in E. subst k'. destruct H as [[= <- <-]|H].
      * right. split; [reflexivity|]. exists values.
        split; [reflexivity|]. left. left. reflexivity.
      * left. split; [|right; assumption].
        intros ->. apply Hk'. apply (in_map fst) in H. exact H.
    + apply str_eqb_neq in E. destruct H as [[= <- <-]|H].
      * left. split; [assumption | left; reflexivity].
      * destruct (IH key value k rules Hd H) as [[H1 H2]|[H1 (old & H2 & H3)]].
        -- left. split; [assumption | right; assumption].
        -- right. split; [assumption|]. exists old. split; [assumption|].
           destruct H3 as [H3|[H3 H4]]; [left; right; assumption|].
           right. split; [assumption|]. cbn [List.map fst In].
           intros [Hc|Hc]; [congruence | contradiction].
Qed.

Lemma grouped_by_skip : forall key_of seen line d,
  (forall key, in_group key_of key line = false) ->
  grouped_by key_of seen d -> grouped_by key_of (seen ++ [line]) d.
Proof.
  intros key_of seen line d Hl (H1 & H2 & H3). split; [assumption|]. split.
  - intros key rules Hin. rewrite filter_app. cbn [filter]. rewrite Hl.
    rewrite app_nil_r. apply H2. assumption.
  - intros key Hk. rewrite filter_app. cbn [filter]. rewrite Hl, app_nil_r.
    apply H3. assumption.
Qed.

Lemma grouped_by_step : forall key_of seen line key d,
  is_addition line = true -> key_of line = Some key ->
  grouped_by key_of seen d ->
  grouped_by key_of (seen ++ [line]) (dict_append d key (strip line)).
Proof.
  intros key_of seen line key d Ha Hk (H1 & H2 & H3).
  assert (Hsame : in_group key_of key line = true).
  { unfold in_group. rewrite Ha, Hk, str_eqb_refl. reflexivity. }
  assert (Hother : forall k, k <> key -> in_group key_of k line = false).
  { intros k Hne. unfold in_group. rewrite Ha, Hk. cbn [andb].
    destruct (str_eqb key k) eqn:E; [|reflexivity].
    apply str_eqb_eq in E. congruence. }
  split; [apply dict_append_nodup; assumption|]. split.
  - intros k rules Hin. rewrite filter_app, map_app. cbn [filter].
    destruct (dict_append_items d key (strip line) k rules H1 Hin)
      as [[Hne Hd]|[-> (old & -> & Hd)]].
    + rewrite (Hother k Hne). cbn [List.map]. rewrite app_nil_r.
      apply H2. assumption.
    + rewrite Hsame. cbn [List.map]. split; [destruct old; discriminate|].
      f_equal. destruct Hd as [Hd|[-> Hd]].
      * apply H2. assumption.
      * rewrite (H3 key Hd). reflexivity.
  - intros k Hnk. rewrite dict_append_keys in Hnk.
    rewrite filter_app. cbn [filter].
    rewrite Hother by (intros ->; apply Hnk; left; reflexivity).
    rewrite app_nil_r. apply H3. intros Hc. apply Hnk. right. assumption.
Qed.

Lemma group_loop_grouped : forall key_of diff_lines seen d,
  grouped_by key_of seen d ->
  grouped_by key_of (seen ++ diff_lines) (group_loop key_of diff_lines d).
Proof.
  intros key_of. induction diff_lines as [|line rest IH]; intros seen d H.
  - rewrite app_nil_r. exact H.
  - cbn [group_loop].
    replace (seen ++ line :: rest) with ((seen ++ [line]) ++ rest)
      by (rewrite <- app_assoc; reflexivity).
    fold (is_addition line).
    destruct (is_addition line) eqn:Ha.
    + destruct (key_of line) as [key|] eqn:Hk.
      * apply IH. apply grouped_by_step; assumption.
      * apply IH. apply grouped_by_skip; [|assumption].
        intros key. unfold in_group. rewrite Hk. apply andb_false_r.
    + apply IH. apply grouped_by_skip; [|assumption].
      intros key. unfold in_group. rewrite Ha. reflexivity.
Qed.

(** X20. After a grouping loop of [group_rules] the dictionary has each
    key once; the group of a key is not empty and holds, stripped and in
    the order of the diff, exactly the [+] lines in which that key was
    found; and every key found in a [+] line has its group. *)
Theorem group_loop_groups : forall key_of diff_lines,
  let d := group_loop key_of diff_lines [] in
  NoDup (List.map fst d)
  /\ (forall key rules,
        In (key, rules) d ->
        rules <> []
        /\ rules = List.map strip (filter (in_group key_of key) diff_lines))
  /\ (forall line key,
        In line diff_lines -> is_addition line = true ->
        key_of line = Some key -> In key (List.map fst d)).
Proof.
  intros key_of diff_lines d.
  destruct (group_loop_grouped key_of diff_lines [] []) as (H1 & H2 & H3).
  { split; [constructor|]. split; [intros key rules []|reflexivity]. }
  cbn [app] in *. fold d in H1, H2, H3.
  split; [assumption|]. split; [assumption|].
  intros line key Hin Ha Hk.
  destruct (in_dec (list_eq_dec N.eq_dec) key (List.map fst d)) as [Hd|Hd];
    [assumption|].
  specialize (H3 key Hd).
  assert (Hf : In line (filter (in_group key_of key) diff_lines)).
  { apply filter_In. split; [assumption|]. unfold in_group.
    rewrite Ha, Hk, str_eqb_refl. reflexivity. }
  rewrite H3 in Hf. destruct Hf.
Qed.

Section RuleGrouperFacts.
Variable uni_alnum : char -> bool.

Lemma group_rules_indented : forall diff_lines,
  filter is_indented (group_rules uni_alnum diff_lines)
  = List.map (app (lit "    "))
      (rules_of (group_loop port_key diff_lines [])
       ++ rules_of (group_loop (chain_key uni_alnum) diff_lines [])).
Proof.
  intros diff_lines. unfold group_rules. rewrite filter_app, map_app. f_equal.
  - destruct (group_loop port_key diff_lines []) as [|g d] eqn:E;
      [reflexivity|].
    cbn [filter].
    change (is_indented (lit "[bold blue]--- Rules Grouped by Port ---[/bold blue]"))
      with false.
    apply group_lines_indented. reflexivity.
  - destruct (group_loop (chain_key uni_alnum) diff_lines []) as [|g d] eqn:E;
      [reflexivity|].
    cbn [filter].
    change (is_indented (10%N :: lit "[bold blue]--- Rules Grouped by Chain ---[/bold blue]"))
      with false.
    apply group_lines_indented. reflexivity.
Qed.

(** X21. The indented lines of the output of [group_rules] are, up to
    their order, the [+] lines of the diff in which the port pattern is
    found and the [+] lines in which the chain pattern is found, each
    stripped and listed once for each of the two. *)
Theorem group_rules_lists_each_rule_once : forall diff_lines,
  Permutation
    (filter is_indented (group_rules uni_alnum diff_lines))
    (List.map (fun line => lit "    " ++ strip line)
       (filter (fun line => is_addition line && has_key port_key line)
               diff_lines
        ++ filter (fun line => is_addition line
                               && has_key (chain_key uni_alnum) line)
                  diff_lines)).
Proof.
  intros diff_lines. rewrite group_rules_indented.
  rewrite <- (map_map strip (app (lit "    "))).
  apply Permutation_map. rewrite map_app.
  apply Permutation_app.
  - apply (rules_of_group_loop port_key diff_lines []).
  - apply (rules_of_group_loop (chain_key uni_alnum) diff_lines []).
Qed.

End RuleGrouperFacts.

(* ------------------------------------------------------------------ *)
(** ** The port check on a line with one [--dport] *)

Section GreedyFacts.
Variable R : Type.

Lemma greedy_run : forall p run rest (k : str -> option R) x,
  Forall (fun c => p c = true) run ->
  k rest = Some x ->
  head_fails [p] rest ->
  Re.greedy p (run ++ rest) k = Some x.
Proof.
  intros p run rest k x Hrun Hk Hrest.
  induction Hrun as [|c run Hc _ IH]; cbn [app].
  - destruct rest as [|c rest]; cbn [Re.greedy]; [exact Hk|].
    cbn [head_fails] in Hrest. inversion Hrest as [|? ? Hp _]. subst.
    rewrite Hp. exact Hk.
  - cbn [Re.greedy]. rewrite Hc, IH. reflexivity.
Qed.
End GreedyFacts.

Lemma skipn_app_left : forall (p s : str), skipn (length p) (p ++ s) = s.
Proof. induction p as [|c p IH]; intros s; [reflexivity | apply IH]. Qed.

(** Where [--dport] does not start, the port pattern does not match. *)
Lemma dport_not_here : forall s pos,
  startswith (lit "--dport") s = false ->
  Re.match_at dport_pattern pos s = None.
Proof.
  intros s pos H. unfold Re.match_at, dport_pattern, Re.cat.
  cbn [fold_right]. unfold Re.text. apply rmatch_word_seq. exact H.
Qed.

Lemma search_skips : forall r pre s pos,
  (forall u v, pre = u ++ v -> v <> [] -> forall p, Re.match_at r p (v ++ s) = None) ->
  Re.search_from r pos (pre ++ s) = Re.search_from r (pos + length pre) s.
Proof.
  intros r pre s. induction pre as [|c pre IH]; intros pos H.
  - cbn. rewrite Nat.add_0_r. reflexivity.
  - cbn [app Re.search_from].
    pose proof (H [] (c :: pre) eq_refl ltac:(discriminate) pos) as E.
    cbn [app] in E. rewrite E, IH.
    + cbn [length]. f_equal. lia.
    + intros u v Eu Hv p.
      apply (H (c :: u) v); [rewrite Eu; reflexivity | exact Hv].
Qed.

(** [int(str(n))] is [n] for an [n] that is not negative, and [str(n)]
    is then a non-empty string of ASCII digits. *)
Lemma lit_cons : forall c s, lit (String c s) = N_of_ascii c :: lit s.
Proof. reflexivity. Qed.

Lemma int_digits_uint_acc : forall u acc,
  int_digits (Zpos acc) (lit (NilEmpty.string_of_uint u))
  = Some (Zpos (Pos.of_uint_acc u acc)).
Proof.
  induction u as [|u IH|u IH|u IH|u IH|u IH|u IH|u IH|u IH|u IH|u IH];
    intros acc; [reflexivity|..];
    cbn [NilEmpty.string_of_uint Pos.of_uint_acc]; rewrite lit_cons;
    cbn [int_digits];
    match goal with
    | |- context [decimal_value ?c] =>
        let v := eval vm_compute in (decimal_value c) in
        change (decimal_value c) with v
    end;
    cbv iota beta; rewrite <- IH; f_equal; lia.
Qed.

Lemma int_digits_uint : forall u,
  int_digits 0 (lit (NilEmpty.string_of_uint u))
  = Some (Z.of_N (Pos.of_uint u)).
Proof.
  induction u as [|u IH|u IH|u IH|u IH|u IH|u IH|u IH|u IH|u IH|u IH];
    [reflexivity|..];
    cbn [NilEmpty.string_of_uint Pos.of_uint]; rewrite lit_cons;
    cbn [int_digits];
    match goal with
    | |- context [decimal_value ?c] =>
        let v := eval vm_compute in (decimal_value c) in
        change (decimal_value c) with v
    end;
    cbv iota beta; [exact IH | ..]; apply int_digits_uint_acc.
Qed.

Lemma uint_digits : forall u,
  Forall (fun c => Re.ascii_digit c = true) (lit (NilEmpty.string_of_uint u)).
Proof.
  induction u as [|u IH|u IH|u IH|u IH|u IH|u IH|u IH|u IH|u IH|u IH];
    [constructor|..];
    cbn [NilEmpty.string_of_uint]; rewrite lit_cons;
    (constructor; [reflexivity | exact IH]).
Qed.

Lemma str_of_int_pos : forall p,
  str_of_int (Zpos p) = lit (NilEmpty.string_of_uint (Pos.to_uint p))
  /\ str_of_int (Zpos p) <> [].
Proof.
  intros p. unfold str_of_int. cbn [Z.to_int NilZero.string_of_int].
  pose proof (DecimalPos.Unsigned.to_uint_nonnil p) as H.
  destruct (Pos.to_uint p) eqn:E; try contradiction;
    (split; [reflexivity | discriminate]).
Qed.

Lemma int_of_str_of_int : forall port,
  (0 <= port)%Z ->
  int_of_str (str_of_int port)
  = if over_limit port then None else Some port.
Proof.
  intros [|p|p] H; [reflexivity | | lia].
  destruct (str_of_int_pos p) as [E Hne]. unfold int_of_str, over_limit.
  destruct (str_of_int (Z.pos p)) eqn:Es; [contradiction|].
  destruct (int_max_str_digits <? _)%Z; [reflexivity|].
  rewrite E, int_digits_uint, DecimalPos.Unsigned.of_to. reflexivity.
Qed.

Lemma str_of_int_digits : forall port,
  (0 <= port)%Z ->
  str_of_int port <> []
  /\ Forall (fun c => Re.ascii_digit c = true) (str_of_int port).
Proof.
  intros [|p|p] H; [| | lia].
  - split; [discriminate | repeat constructor].
  - destruct (str_of_int_pos p) as [E Hne]. split; [exact Hne|].
    rewrite E. apply uint_digits.
Qed.


Lemma ascii_digit_decimal : forall c,
  Re.ascii_digit c = true -> Re.digit c = true /\ Re.space c = false.
Proof.
  intros c H. unfold Re.ascii_digit, in_range in H.
  apply andb_true_iff in H. destruct H as [H1 H2].
  apply N.leb_le in H1, H2. split.
  - unfold Re.digit, isdecimal, decimal_value, decimal_runs.
    cbn [decimal_in].
    replace ((48 <=? c) && (c <? 48 + 10))%N with true; [reflexivity|].
    symmetry. apply andb_true_iff. split; [apply N.leb_le | apply N.ltb_lt]; lia.
  - unfold Re.space, isspace, in_range.
    repeat match goal with
           | |- context [(?x <=? ?y)%N] => destruct (N.leb_spec x y); try lia
           | |- context [(?x =? ?y)%N] => destruct (N.eqb_spec x y); try lia
           end; reflexivity.
Qed.

Lemma startswith_long : forall w x y,
  length w <= length x -> startswith w (x ++ y) = startswith w x.
Proof.
  induction w as [|c w IH]; intros x y H; [reflexivity|].
  destruct x as [|d x]; [cbn in H; lia|].
  cbn [app startswith]. rewrite IH by (cbn in H; lia). reflexivity.
Qed.

Lemma contains_suffix : forall w u v,
  contains w (u ++ v) = false -> contains w v = false.
Proof.
  intros w u v. induction u as [|c u IH]; intros H; [exact H|].
  cbn [app contains] in H. apply orb_false_iff in H. apply IH, H.
Qed.

Lemma no_dport_before : forall pre s u v,
  contains (lit "--dport") (pre ++ lit "--dpor") = false ->
  pre = u ++ v -> v <> [] ->
  startswith (lit "--dport") (v ++ lit "--dport" ++ s) = false.
Proof.
  intros pre s u v H -> Hv. rewrite <- app_assoc in H.
  apply contains_suffix in H.
  change (lit "--dport" ++ s) with (lit "--dpor" ++ 116%N :: s).
  rewrite app_assoc, startswith_long.
  - destruct (v ++ lit "--dpor"); cbn [contains] in H;
      apply orb_false_iff in H; apply H.
  - rewrite length_app. destruct v; [contradiction | cbn; lia].
Qed.

Lemma search_dport_after : forall pre s,
  contains (lit "--dport") (pre ++ lit "--dpor") = false ->
  Re.search dport_pattern (pre ++ lit "--dport" ++ s)
  = Re.search_from dport_pattern (length pre) (lit "--dport" ++ s).
Proof.
  intros pre s H. unfold Re.search. rewrite search_skips; [reflexivity|].
  intros u v E Hv p. apply dport_not_here.
  apply (no_dport_before pre s u v H E Hv).
Qed.

Lemma firstn_app_length : forall (p s : str),
  firstn (length (p ++ s) - length s) (p ++ s) = p.
Proof.
  intros p s. rewrite length_app, Nat.add_sub.
  rewrite firstn_app, Nat.sub_diag, firstn_all. cbn. apply app_nil_r.
Qed.

Lemma digits_are_decimal : forall ds,
  Forall (fun c => Re.ascii_digit c = true) ds ->
  Forall (fun c => Re.digit c = true) ds.
Proof.
  intros ds H. apply Forall_forall. intros c Hc.
  apply (ascii_digit_decimal c). revert c Hc. apply Forall_forall. exact H.
Qed.

(** The match of the pattern at [--dport], when a single port follows. *)
Lemma match_at_single_port : forall pos w ws d ds post,
  Re.space w = true -> Forall (fun c => Re.space c = true) ws ->
  Re.ascii_digit d = true -> Forall (fun c => Re.ascii_digit c = true) ds ->
  head_fails [Re.digit; is_dash] post ->
  Re.match_at dport_pattern pos (lit "--dport" ++ (w :: ws) ++ (d :: ds) ++ post)
  = Some (Re.Match pos (lit "--dport" ++ (w :: ws) ++ (d :: ds))
                   [(1, d :: ds)] post).
Proof.
  intros pos w ws d ds post Hw Hws Hd Hds Hpost.
  assert (Hp1 : head_fails [Re.digit] post).
  { destruct post as [|c post]; [exact I|]. cbn [head_fails] in *.
    inversion Hpost. constructor; [assumption | constructor]. }
  assert (Hp2 : startswith (lit "-") post = false).
  { destruct post as [|c post]; [reflexivity|]. cbn [head_fails] in Hpost.
    inversion Hpost as [|? ? _ H2]. inversion H2 as [|? ? H3 _].
    change (lit "-") with [45%N]. rewrite startswith_one.
    unfold is_dash in H3. rewrite N.eqb_sym. exact H3. }
  destruct (ascii_digit_decimal d Hd) as [Hd1 Hd2].
  unfold Re.match_at, dport_pattern, Re.cat. cbn [fold_right]. unfold Re.text.
  cbn [Re.rmatch]. rewrite rmatch_word, startswith_app, skipn_app_left.
  cbn [app]. rewrite Hw.
  erewrite greedy_run; [reflexivity | exact Hws | |
                        cbn [head_fails]; repeat constructor; exact Hd2].
  rewrite Hd1.
  erewrite greedy_run; [reflexivity | apply digits_are_decimal; exact Hds | |
                        exact Hp1].
  rewrite rmatch_word, Hp2.
  change (d :: ds ++ post) with ((d :: ds) ++ post).
  rewrite (firstn_app_length (d :: ds) post).
  replace (lit "--dport" ++ w :: ws ++ (d :: ds) ++ post)
    with ((lit "--dport" ++ w :: ws ++ d :: ds) ++ post)
    by (rewrite <- app_assoc; cbn [app]; rewrite <- app_assoc; reflexivity).
  rewrite firstn_app_length. reflexivity.
Qed.

(** The match when a range follows: two ports with a [-] between them. *)
Lemma match_at_port_range : forall pos w ws d ds e es post,
  Re.space w = true -> Forall (fun c => Re.space c = true) ws ->
  Re.ascii_digit d = true -> Forall (fun c => Re.ascii_digit c = true) ds ->
  Re.ascii_digit e = true -> Forall (fun c => Re.ascii_digit c = true) es ->
  head_fails [Re.digit] post ->
  Re.match_at dport_pattern pos
    (lit "--dport" ++ (w :: ws) ++ (d :: ds) ++ lit "-" ++ (e :: es) ++ post)
  = Some (Re.Match pos
            (lit "--dport" ++ (w :: ws) ++ (d :: ds) ++ lit "-" ++ (e :: es))
            [(2, e :: es); (1, d :: ds)] post).
Proof.
  intros pos w ws d ds e es post Hw Hws Hd Hds He Hes Hpost.
  destruct (ascii_digit_decimal d Hd) as [Hd1 Hd2].
  destruct (ascii_digit_decimal e He) as [He1 He2].
  unfold Re.match_at, dport_pattern, Re.cat. cbn [fold_right]. unfold Re.text.
  cbn [Re.rmatch]. rewrite rmatch_word, startswith_app, skipn_app_left.
  cbn [app]. rewrite Hw.
  erewrite greedy_run; [reflexivity | exact Hws | |
                        cbn [head_fails]; repeat constructor; exact Hd2].
  rewrite Hd1.
  erewrite greedy_run; [reflexivity | apply digits_are_decimal; exact Hds | |
                        change (lit "-") with [45%N]; cbn [app head_fails];
                        repeat constructor].
  rewrite rmatch_word, startswith_app, skipn_app_left.
  cbn [app]. rewrite He1.
  erewrite greedy_run; [reflexivity | apply digits_are_decimal; exact Hes | |
                        exact Hpost].
  change (e :: es ++ post) with ((e :: es) ++ post).
  rewrite (firstn_app_length (e :: es) post).
  change (d :: ds ++ lit "-" ++ (e :: es) ++ post)
    with ((d :: ds) ++ lit "-" ++ (e :: es) ++ post).
  rewrite (firstn_app_length (d :: ds)).
  replace (lit "--dport" ++ w :: ws ++ (d :: ds) ++ lit "-" ++ (e :: es) ++ post)
    with ((lit "--dport" ++ w :: ws ++ (d :: ds) ++ lit "-" ++ e :: es) ++ post).
  - rewrite firstn_app_length. reflexivity.
  - rewrite <- app_assoc. cbn [app]. rewrite <- app_assoc. cbn [app].
    rewrite <- !app_assoc. reflexivity.
Qed.

Lemma search_from_here : forall r pos s m,
  Re.match_at r pos s = Some m -> Re.search_from r pos s = Some m.
Proof.
  intros r pos s m H. destruct s; cbn [Re.search_from]; rewrite H; reflexivity.
Qed.

Lemma in_range_incl : forall lo hi port,
  In port (range_incl lo hi) <-> (lo <= port <= hi)%Z.
Proof.
  intros lo hi port. unfold range_incl. rewrite in_map_iff. split.
  - intros (i & <- & Hi). apply in_seq in Hi. lia.
  - intros H. exists (Z.to_nat (port - lo)). split; [lia|].
    apply in_seq. lia.
Qed.

Lemma in_range_findings : forall line ports f,
  In f (range_findings line ports)
  <-> exists port description,
        In port ports /\ dict_get critical_ports port = Some description
        /\ f = range_port_message line port description.
Proof.
  intros line ports f. induction ports as [|p ports IH].
  - cbn. split; [intros [] | intros (port & d & [] & _)].
  - cbn [range_findings]. destruct (dict_get critical_ports p) as [d|] eqn:E.
    + cbn [In]. rewrite IH. split.
      * intros [<-|(port & d' & H1 & H2 & H3)].
        -- exists p, d. auto.
        -- exists port, d'. auto.
      * intros (port & d' & [<-|H1] & H2 & H3).
        -- left. congruence.
        -- right. exists port, d'. auto.
    + rewrite IH. split.
      * intros (port & d' & H1 & H2 & H3). exists port, d'. cbn [In]. auto.
      * intros (port & d' & [<-|H1] & H2 & H3); [congruence|].
        exists port, d'. auto.
Qed.

Lemma pattern_findings_need_iptables : forall line,
  contains (lit "iptables") line = false -> pattern_findings line = [].
Proof.
  intros line H. apply pattern_findings_in_none.
  intros pattern description Hin.
  destruct (risky_patterns_start _ _ Hin) as [r ->].
  apply found_word_seq. exact H.
Qed.

Lemma port_findings_single : forall pre ws post port,
  (0 <= port)%Z ->
  contains (lit "--dport") (pre ++ lit "--dpor") = false ->
  ws <> [] -> Forall (fun c => isspace c = true) ws ->
  head_fails [isdecimal; is_dash] post ->
  let line := pre ++ lit "--dport" ++ ws ++ str_of_int port ++ post in
  port_findings line
  = if over_limit port then None
    else Some match dict_get critical_ports port with
              | Some description => [single_port_message line description]
              | None => []
              end.
Proof.
  intros pre ws post port Hport Hpre Hws Hspace Hpost line.
  destruct (str_of_int_digits port Hport) as [Hne Hdigits].
  pose proof (int_of_str_of_int port Hport) as Hint.
  unfold port_findings. subst line.
  destruct (str_of_int port) as [|d ds]; [contradiction|].
  destruct ws as [|w ws]; [contradiction|].
  inversion Hspace as [|? ? Hw Hws']. inversion Hdigits as [|? ? Hd Hds].
  subst.
  rewrite (search_dport_after pre _ Hpre).
  pose proof (match_at_single_port (length pre) w ws d ds post
                Hw Hws' Hd Hds Hpost) as Hm.
  rewrite (search_from_here _ _ _ _ Hm).
  unfold Re.group. cbn [Re.m_groups Re.group_of Nat.eqb].
  rewrite Hint. destruct (over_limit port); [reflexivity|].
  destruct (dict_get critical_ports port); reflexivity.
Qed.

(** X22. The port check on a line whose first [--dport] is followed by
    whitespace and one port number, whatever stands before [--dport] and
    after the number (the number ends where a character follows that is
    neither a digit nor a [-]).  If the number has more than 4300 digits,
    [int] raises [ValueError].  Otherwise the line gets the finding of
    that port if the port is in the table, and no finding of the port
    check if it is not.  If the line starts with [+] and does not contain
    [iptables], this is the whole outcome of the classifier for the
    line. *)
Theorem single_port_findings : forall pre ws post port,
  (0 <= port)%Z ->
  contains (lit "--dport") (pre ++ lit "--dpor") = false ->
  ws <> [] -> Forall (fun c => isspace c = true) ws ->
  head_fails [isdecimal; is_dash] post ->
  let line := pre ++ lit "--dport" ++ ws ++ str_of_int port ++ post in
  let outcome :=
    if over_limit port then None
    else Some match dict_get critical_ports port with
              | Some description => [single_port_message line description]
              | None => []
              end in
  port_findings line = outcome
  /\ (is_addition line = true -> contains (lit "iptables") line = false ->
      detect_security_risks [line] = outcome).
Proof.
  intros pre ws post port Hport Hpre Hws Hspace Hpost line outcome.
  assert (E : port_findings line = outcome)
    by (apply port_findings_single; assumption).
  split; [exact E|]. intros Ha Hi.
  cbn [detect_security_risks]. fold (is_addition line).
  rewrite Ha, E, (pattern_findings_need_iptables line Hi).
  destruct outcome as [findings|]; [|reflexivity].
  rewrite !app_nil_r. reflexivity.
Qed.

Lemma single_port_findings_witness :
  let line := lit "+-A INPUT -p tcp --dport 22 -j ACCEPT" in
  detect_security_risks [line]
  = Some [single_port_message line
            (lit "SSH - Used for remote access, often targeted by attackers.")].
Proof.
  intros line.
  destruct (single_port_findings (lit "+-A INPUT -p tcp ") (lit " ")
              (lit " -j ACCEPT") 22) as [_ H].
  - lia.
  - vm_compute. reflexivity.
  - discriminate.
  - repeat constructor.
  - cbn. repeat constructor.
  - apply H; vm_compute; reflexivity.
Defined.

(** The limit of [int] at work: a port number of 4300 digits is read, zeros
    in front included; with one digit more the classifier raises. *)
Example long_port_numbers :
  let zeros := repeat 48%N 4298 in
  detect_security_risks [lit "+-A INPUT --dport " ++ zeros ++ lit "22"]
  = Some [single_port_message (lit "+-A INPUT --dport " ++ zeros ++ lit "22")
            (lit "SSH - Used for remote access, often targeted by attackers.")]
  /\ detect_security_risks [lit "+-A INPUT --dport 0" ++ zeros ++ lit "22"]
     = None
  /\ detect_security_risks
       [lit "+-A INPUT --dport 22-1" ++ repeat 48%N 4300] = None.
Proof.
  intros zeros. split; [vm_compute; reflexivity|].
  split; vm_compute; reflexivity.
Qed.

(** X23. The port check on a line whose first [--dport] is followed by
    whitespace and a range [lo-hi].  If one of the two numbers has more
    than 4300 digits, [int] raises [ValueError].  Otherwise the findings
    are those of the ports from [lo] to [hi] that are in the table, each
    with its port number, in ascending order of the ports; there is none
    if [hi] is below [lo]. *)
Theorem port_range_findings : forall pre ws post lo hi,
  (0 <= lo)%Z -> (0 <= hi)%Z ->
  contains (lit "--dport") (pre ++ lit "--dpor") = false ->
  ws <> [] -> Forall (fun c => isspace c = true) ws ->
  head_fails [isdecimal] post ->
  let line := pre ++ lit "--dport" ++ ws ++ str_of_int lo ++ lit "-"
              ++ str_of_int hi ++ post in
  port_findings line
  = (if over_limit lo || over_limit hi then None
     else Some (range_findings line (range_incl lo hi)))
  /\ (forall findings,
        port_findings line = Some findings ->
        (forall f,
           In f findings
           <-> exists port description,
                 (lo <= port <= hi)%Z
                 /\ dict_get critical_ports port = Some description
                 /\ f = range_port_message line port description)
        /\ ((hi < lo)%Z -> findings = [])).
Proof.
  intros pre ws post lo hi Hlo Hhi Hpre Hws Hspace Hpost line.
  assert (E : port_findings line
              = if over_limit lo || over_limit hi then None
                else Some (range_findings line (range_incl lo hi))).
  { destruct (str_of_int_digits lo Hlo) as [Hne1 Hdigits1].
    destruct (str_of_int_digits hi Hhi) as [Hne2 Hdigits2].
    pose proof (int_of_str_of_int lo Hlo) as Hint1.
    pose proof (int_of_str_of_int hi Hhi) as Hint2.
    unfold port_findings. subst line.
    destruct (str_of_int lo) as [|d ds]; [contradiction|].
    destruct (str_of_int hi) as [|e es]; [contradiction|].
    destruct ws as [|w ws]; [contradiction|].
    inversion Hspace as [|? ? Hw Hws']. inversion Hdigits1 as [|? ? Hd Hds].
    inversion Hdigits2 as [|? ? He Hes]. subst.
    rewrite (search_dport_after pre _ Hpre).
    pose proof (match_at_port_range (length pre) w ws d ds e es post
                  Hw Hws' Hd Hds He Hes Hpost) as Hm.
    rewrite (search_from_here _ _ _ _ Hm).
    unfold Re.group. cbn [Re.m_groups Re.group_of Nat.eqb].
    rewrite Hint1, Hint2.
    destruct (over_limit lo), (over_limit hi); reflexivity. }
  split; [exact E|]. intros findings Hf. rewrite E in Hf.
  destruct (over_limit lo || over_limit hi); [discriminate|].
  injection Hf as <-. split.
  - intros f. rewrite in_range_findings.
    split; intros (port & description & H1 & H2); exists port, description;
      (split; [apply in_range_incl; exact H1 | exact H2]).
  - intros H. unfold range_incl.
    replace (Z.to_nat (hi + 1 - lo)) with 0 by lia. reflexivity.
Qed.

Lemma port_range_findings_witness :
  let line := lit "+-A INPUT -p tcp --dport 20-25 -j ACCEPT" in
  port_findings line
  = Some (range_findings line [20; 21; 22; 23; 24; 25]%Z).
Proof.
  intros line.
  destruct (port_range_findings (lit "+-A INPUT -p tcp ") (lit " ")
              (lit " -j ACCEPT") 20 25) as [H _].
  - lia.
  - lia.
  - vm_compute. reflexivity.
  - discriminate.
  - repeat constructor.
  - cbn. repeat constructor.
  - exact H.
Defined.
